(** * Social content engine: idea registry, mining queue and session machine

    A shallow embedding of [ContentMiner] ([src/services/content-miner.ts]),
    [AIBrain] (the module [./ai-brain], whose text follows the scheduler in
    [src/services/scheduler.ts]) and [SlackBot] ([src/services/slack-bot.ts]),
    and the properties of the content pipeline proved over it.

    Conventions of the embedding.
    - A JavaScript string is a [string] of 8-bit code units (the Latin-1
      part of UTF-16); [String.length] is the [.length] of the code.
    - A point in time ([Date.now()], [new Date().toISOString()]) is a number
      of milliseconds in [N]; ISO-8601 renderings compare like these numbers.
    - A [Map] is an insertion-ordered association list with unique keys
      ([JsMap]); a [Set] that is only tested and extended is a [gset].
    - An [async] method is a resumption ([Async.prog]): it runs to its next
      [await], hands the state back, and resumes on the answer. *)

From Stdlib Require Import String Ascii NArith ZArith Bool Lia.
From stdpp Require Import base option list gmap strings pretty.

Local Open Scope string_scope.
Local Open Scope list_scope.

(** ** Strings as the code uses them *)

Module JsString.

Definition code (c : ascii) : N := N_of_ascii c.

(** [\s] of a regular expression, and the white space of [trim]. *)
Definition is_space (c : ascii) : bool :=
  let n := code c in
  ((9 <=? n) && (n <=? 13) || (n =? 32) || (n =? 160))%N.

Definition is_digit (c : ascii) : bool :=
  let n := code c in ((48 <=? n) && (n <=? 57))%N.

Definition is_lower (c : ascii) : bool :=
  let n := code c in ((97 <=? n) && (n <=? 122))%N.

Definition to_lower_char (c : ascii) : ascii :=
  let n := code c in
  if ((65 <=? n) && (n <=? 90))%N then ascii_of_N (n + 32)
  else if ((192 <=? n) && (n <=? 222) && negb (n =? 215))%N
       then ascii_of_N (n + 32)
       else c.

Fixpoint toLowerCase (s : string) : string :=
  match s with
  | EmptyString => EmptyString
  | String c s' => String (to_lower_char c) (toLowerCase s')
  end.

(** [s.replace(/[^a-z0-9\s]/g, '')] *)
Fixpoint strip_other (s : string) : string :=
  match s with
  | EmptyString => EmptyString
  | String c s' =>
      if is_lower c || is_digit c || is_space c
      then String c (strip_other s')
      else strip_other s'
  end.

(** [s.replace(/\s+/g, ' ')]: [in_run] tells that the previous character
    belonged to the run of white space being replaced. *)
Fixpoint collapse_from (in_run : bool) (s : string) : string :=
  match s with
  | EmptyString => EmptyString
  | String c s' =>
      if is_space c
      then (if in_run then collapse_from true s'
            else String " " (collapse_from true s'))
      else String c (collapse_from false s')
  end.

Definition collapse_spaces (s : string) : string := collapse_from false s.

Fixpoint trimStart (s : string) : string :=
  match s with
  | EmptyString => EmptyString
  | String c s' => if is_space c then trimStart s' else s
  end.

Fixpoint trimEnd (s : string) : string :=
  match s with
  | EmptyString => EmptyString
  | String c s' =>
      match trimEnd s' with
      | EmptyString => if is_space c then EmptyString else String c EmptyString
      | r => String c r
      end
  end.

Definition trim (s : string) : string := trimEnd (trimStart s).

(** [s.toLowerCase().replace(/[^a-z0-9\s]/g, '').replace(/\s+/g, ' ').trim()],
    the chain shared by [normalizeHook] and the command matching. *)
Definition normalize (s : string) : string :=
  trim (collapse_spaces (strip_other (toLowerCase s))).

Definition startsWith (s pre : string) : bool := String.prefix pre s.

Fixpoint includes (s sub : string) : bool :=
  String.prefix sub s ||
  match s with
  | EmptyString => false
  | String _ s' => includes s' sub
  end.

Fixpoint drop (n : nat) (s : string) : string :=
  match n, s with
  | S n', String _ s' => drop n' s'
  | _, _ => s
  end.

(** [s.replace(pat, '')] with a string pattern: the first occurrence only. *)
Fixpoint remove_first (pat s : string) : string :=
  if String.prefix pat s then drop (String.length pat) s
  else match s with
       | EmptyString => EmptyString
       | String c s' => String c (remove_first pat s')
       end.

(** [s.slice(0, n)] *)
Definition slice0 (n : nat) (s : string) : string := substring 0 n s.

(** [/^\d{1,2}$/.test(s)] *)
Definition is_number_1_2 (s : string) : bool :=
  match s with
  | String a EmptyString => is_digit a
  | String a (String b EmptyString) => is_digit a && is_digit b
  | _ => false
  end.

Fixpoint digits_value (acc : N) (s : string) : N :=
  match s with
  | String c s' =>
      if is_digit c then digits_value (acc * 10 + (code c - 48)) s' else acc
  | EmptyString => acc
  end.

(** [parseInt(s, 10)]: white space and a sign are skipped, the longest run
    of digits is read; [None] is [NaN]. *)
Definition parseInt (s : string) : option Z :=
  let s1 := trimStart s in
  let '(neg, s2) :=
    match s1 with
    | String "-" r => (true, r)
    | String "+" r => (false, r)
    | _ => (false, s1)
    end in
  match s2 with
  | String c _ =>
      if is_digit c
      then let v := Z.of_N (digits_value 0 s2) in
           Some (if neg then (- v)%Z else v)
      else None
  | EmptyString => None
  end.

(** [s.split('\n\n')] *)
Fixpoint split_blank_from (cur : string) (s : string) : list string :=
  match s with
  | EmptyString => [cur]
  | String c s' =>
      match s' with
      | String c' s'' =>
          if (code c =? 10)%N && (code c' =? 10)%N
          then cur :: split_blank_from EmptyString s''
          else split_blank_from (cur +:+ String c EmptyString) s'
      | EmptyString => [cur +:+ String c EmptyString]
      end
  end.

Definition split_blank (s : string) : list string :=
  split_blank_from EmptyString s.

End JsString.

(** ** [Map]: insertion order, one binding per key *)

Module JsMap.

Definition t (V : Type) : Type := list (string * V).

Definition empty {V} : t V := [].

Fixpoint get {V} (m : t V) (k : string) : option V :=
  match m with
  | [] => None
  | (k', v) :: m' => if String.eqb k' k then Some v else get m' k
  end.

Definition has {V} (m : t V) (k : string) : bool :=
  match get m k with Some _ => true | None => false end.

(** [m.set(k, v)]: a known key keeps its place, a new key goes last. *)
Fixpoint set {V} (m : t V) (k : string) (v : V) : t V :=
  match m with
  | [] => [(k, v)]
  | (k', v') :: m' =>
      if String.eqb k' k then (k', v) :: m' else (k', v') :: set m' k v
  end.

(** Assignment to a field of the object bound to [k]. *)
Fixpoint update {V} (m : t V) (k : string) (f : V -> V) : t V :=
  match m with
  | [] => []
  | (k', v') :: m' =>
      if String.eqb k' k then (k', f v') :: m' else (k', v') :: update m' k f
  end.

Definition values {V} (m : t V) : list V := map snd m.
Definition keys {V} (m : t V) : list string := map fst m.
Definition size {V} (m : t V) : nat := length m.

End JsMap.

(** ** Data model ([src/types/index.ts]) *)

Inductive TranscriptSource := tldv | manual.

Record Transcript := {
  t_id : string;
  t_meetingId : string;
  t_title : string;
  t_date : option N;   (* [new Date(t.date).getTime()]; [None] is [NaN] *)
  t_participants : list string;
  t_content : string;
  t_source : TranscriptSource;
  t_processedAt : option N;
  t_notionPageId : option string
}.

Inductive ContentFormat := linkedin_post | youtube_script | newsletter | x_thread.

Inductive IdeaStatus :=
  extracted | interviewing | drafting | draft_ready | idea_published.

Record ContentIdea := {
  i_id : string;
  i_sourceTranscriptIds : list string;
  i_theme : string;
  i_hook : string;
  i_rawQuotes : list string;
  i_suggestedFormat : ContentFormat;
  i_status : IdeaStatus;
  i_createdAt : N;
  i_notionPageId : option string
}.

Inductive DraftStatus := draft | review | approved | draft_published.

Record ContentDraft := {
  d_id : string;
  d_ideaId : string;
  d_format : ContentFormat;
  d_title : string;
  d_body : string;
  d_version : N;
  d_status : DraftStatus;
  d_createdAt : N;
  d_notionPageId : option string
}.

Inductive Role := agent | user.

Record InterviewMessage := {
  m_role : Role;
  m_content : string;
  m_timestamp : N
}.

Inductive SessionStatus := active | completed | abandoned.

Record InterviewSession := {
  s_id : string;
  s_ideaId : string;
  s_slackThreadTs : string;
  s_messages : list InterviewMessage;
  s_status : SessionStatus;
  s_startedAt : N;
  s_completedAt : option N
}.

(** What the drafting service answers for one idea, before [mineContentIdeas]
    gives it an identifier. *)
Record RawIdea := {
  r_theme : string;
  r_hook : string;
  r_rawQuotes : list string;
  r_suggestedFormat : ContentFormat
}.

#[global] Instance TranscriptSource_eq_dec : EqDecision TranscriptSource.
Proof. solve_decision. Defined.
#[global] Instance ContentFormat_eq_dec : EqDecision ContentFormat.
Proof. solve_decision. Defined.
#[global] Instance IdeaStatus_eq_dec : EqDecision IdeaStatus.
Proof. solve_decision. Defined.
#[global] Instance DraftStatus_eq_dec : EqDecision DraftStatus.
Proof. solve_decision. Defined.
#[global] Instance Role_eq_dec : EqDecision Role.
Proof. solve_decision. Defined.
#[global] Instance SessionStatus_eq_dec : EqDecision SessionStatus.
Proof. solve_decision. Defined.

Definition IdeaStatus_name (s : IdeaStatus) : string :=
  match s with
  | extracted => "extracted"
  | interviewing => "interviewing"
  | drafting => "drafting"
  | draft_ready => "draft_ready"
  | idea_published => "published"
  end.

(** Field assignments on the objects above. *)
Definition idea_with_status (st : IdeaStatus) (i : ContentIdea) : ContentIdea :=
  {| i_id := i_id i; i_sourceTranscriptIds := i_sourceTranscriptIds i;
     i_theme := i_theme i; i_hook := i_hook i; i_rawQuotes := i_rawQuotes i;
     i_suggestedFormat := i_suggestedFormat i; i_status := st;
     i_createdAt := i_createdAt i; i_notionPageId := i_notionPageId i |}.

Definition idea_with_page (p : string) (i : ContentIdea) : ContentIdea :=
  {| i_id := i_id i; i_sourceTranscriptIds := i_sourceTranscriptIds i;
     i_theme := i_theme i; i_hook := i_hook i; i_rawQuotes := i_rawQuotes i;
     i_suggestedFormat := i_suggestedFormat i; i_status := i_status i;
     i_createdAt := i_createdAt i; i_notionPageId := Some p |}.

Definition transcript_with_content (c : string) (t : Transcript) : Transcript :=
  {| t_id := t_id t; t_meetingId := t_meetingId t; t_title := t_title t;
     t_date := t_date t; t_participants := t_participants t; t_content := c;
     t_source := t_source t; t_processedAt := t_processedAt t;
     t_notionPageId := t_notionPageId t |}.

Definition draft_with_status (st : DraftStatus) (d : ContentDraft) : ContentDraft :=
  {| d_id := d_id d; d_ideaId := d_ideaId d; d_format := d_format d;
     d_title := d_title d; d_body := d_body d; d_version := d_version d;
     d_status := st; d_createdAt := d_createdAt d;
     d_notionPageId := d_notionPageId d |}.

Definition draft_with_page (p : string) (d : ContentDraft) : ContentDraft :=
  {| d_id := d_id d; d_ideaId := d_ideaId d; d_format := d_format d;
     d_title := d_title d; d_body := d_body d; d_version := d_version d;
     d_status := d_status d; d_createdAt := d_createdAt d;
     d_notionPageId := Some p |}.

Definition session_push (m : InterviewMessage) (s : InterviewSession) : InterviewSession :=
  {| s_id := s_id s; s_ideaId := s_ideaId s; s_slackThreadTs := s_slackThreadTs s;
     s_messages := s_messages s ++ [m]; s_status := s_status s;
     s_startedAt := s_startedAt s; s_completedAt := s_completedAt s |}.

Definition session_with_status (st : SessionStatus) (s : InterviewSession) : InterviewSession :=
  {| s_id := s_id s; s_ideaId := s_ideaId s; s_slackThreadTs := s_slackThreadTs s;
     s_messages := s_messages s; s_status := st;
     s_startedAt := s_startedAt s; s_completedAt := s_completedAt s |}.

Definition session_with_completedAt (n : N) (s : InterviewSession) : InterviewSession :=
  {| s_id := s_id s; s_ideaId := s_ideaId s; s_slackThreadTs := s_slackThreadTs s;
     s_messages := s_messages s; s_status := s_status s;
     s_startedAt := s_startedAt s; s_completedAt := Some n |}.

(** ** The outside world

    Every [await] of the code reaches one of the collaborators below: the
    drafting service (the Anthropic client inside [AIBrain]), the record store
    ([NotionService]) or the chat transport (the Slack web client). A request
    is a [call X], its settled promise a [result X]. *)

Inductive result (X : Type) : Type :=
| Ok (x : X)
| Err (e : string).
Arguments Ok {X} x.
Arguments Err {X} e.

(** The wording of a chat message is left out; which message it is, and the
    data it carries, is kept. *)
Inductive SlackText :=
| TxtOpener (opener : string)
| TxtDraftHeader (f : ContentFormat) (theme hook : string)
| TxtDraftBody (chunk : string)
| TxtDraftButtons
| TxtEnough
| TxtFollowUp (question : string)
| TxtAutoXThread (thread : string)
| TxtXThread (thread : string)
| TxtSyndicateHint
| TxtApproved
| TxtDraftExpired
| TxtReworkPrompt
| TxtReworkCancelled
| TxtOriginalMissing
| TxtReworking
| TxtReworkFailed (e : string)
| TxtStopped
| TxtNothingToStop
| TxtStatus (transcripts ideas interviews ready drafts : nat)
| TxtNoIdeas
| TxtIdeaList (shown : list ContentIdea)
| TxtNoTranscripts
| TxtMining (n : nat)
| TxtNothingFound
| TxtFound (ideas : list ContentIdea)
| TxtNoIdeaAt (num : Z)
| TxtUnknownIdea (input : string)
| TxtHelp
| TxtNoted
| TxtHandlerError (e : string)
| TxtActionError (e : string).

Record SlackPost := {
  p_channel : string;
  p_thread_ts : option string;
  p_text : SlackText;
  p_ideaId : option string;     (* metadata.event_payload.ideaId *)
  p_buttonsFor : option string  (* the draft the three buttons carry *)
}.

Inductive call : Type -> Type :=
(* drafting service; [None] is an answer whose first block is not text *)
| LlmMine (batch : list Transcript) : call (list RawIdea)
| LlmOpener (idea : ContentIdea) : call (option string)
| LlmFollowUp (idea : ContentIdea) (msgs : list InterviewMessage) : call (option string)
| LlmEnough (msgs : list InterviewMessage) : call (option string)
| LlmDraft (idea : ContentIdea) (msgs : list InterviewMessage) (f : ContentFormat)
    : call (option string)
| LlmRework (body feedback : string) (f : ContentFormat) : call (option string)
| LlmSyndicate (body : string) : call (option string)
(* record store *)
| NotionLoadIdeas : call (list ContentIdea)
| NotionLoadTranscriptContent (pageId : string) : call string
| NotionSaveIdea (idea : ContentIdea) : call string
| NotionSaveDraft (d : ContentDraft) : call string
| NotionUpdateStatus (pageId status : string) : call unit
(* chat transport; the answer is [result.ts] *)
| SlackPostMessage (p : SlackPost) : call (option string).

(** What the code reads without suspending: the clock, and the transcript
    cache, which is not part of the embedded state. *)
Inductive query : Type -> Type :=
| Now : query N
| StoreGetRecent (days : N) : query (list Transcript).

Inductive event : Type :=
| ECall {X : Type} (c : call X)
| EAsk {X : Type} (q : query X).

(** ** Resumptions *)

Module Async.

Inductive prog (S A : Type) : Type :=
| Ret (a : A) (s : S)
| Throw (e : string) (s : S)
| Ask {X : Type} (q : query X) (k : X -> prog S A)
| Await {X : Type} (s : S) (c : call X) (k : result X -> S -> prog S A).
Arguments Ret {S A} a s.
Arguments Throw {S A} e s.
Arguments Ask {S A X} q k.
Arguments Await {S A X} s c k.

Definition M (S A : Type) : Type := S -> prog S A.

Definition ret {S A} (a : A) : M S A := fun s => Ret a s.
Definition throw {S A} (e : string) : M S A := fun s => Throw e s.

Fixpoint bindP {S A B} (p : prog S A) (f : A -> M S B) : prog S B :=
  match p with
  | Ret a s => f a s
  | Throw e s => Throw e s
  | Ask q k => Ask q (fun x => bindP (k x) f)
  | Await s c k => Await s c (fun r s' => bindP (k r s') f)
  end.

Definition bind {S A B} (m : M S A) (f : A -> M S B) : M S B :=
  fun s => bindP (m s) f.

(** [try { m } catch (error) { h error }] *)
Fixpoint catchP {S A} (p : prog S A) (h : string -> M S A) : prog S A :=
  match p with
  | Ret a s => Ret a s
  | Throw e s => h e s
  | Ask q k => Ask q (fun x => catchP (k x) h)
  | Await s c k => Await s c (fun r s' => catchP (k r s') h)
  end.

Definition try_catch {S A} (m : M S A) (h : string -> M S A) : M S A :=
  fun s => catchP (m s) h.

Definition get {S} : M S S := fun s => Ret s s.
Definition gets {S A} (f : S -> A) : M S A := fun s => Ret (f s) s.
Definition modify {S} (f : S -> S) : M S unit := fun s => Ret tt (f s).

(** [await c]: the state is released until the promise settles; a rejected
    promise is rethrown at the [await]. *)
Definition await {S X} (c : call X) : M S X :=
  fun s => Await s c (fun r s' =>
    match r with Ok x => Ret x s' | Err e => Throw e s' end).

Definition ask {S X} (q : query X) : M S X :=
  fun s => Ask q (fun x => Ret x s).

(** A method of a component run inside the object that holds it. *)
Fixpoint zoomP {T S A} (proj : S -> T) (inj : T -> S -> S)
    (p : prog T A) (outer : S) : prog S A :=
  match p with
  | Ret a t => Ret a (inj t outer)
  | Throw e t => Throw e (inj t outer)
  | Ask q k => Ask q (fun x => zoomP proj inj (k x) outer)
  | Await t c k =>
      Await (inj t outer) c (fun r s' => zoomP proj inj (k r (proj s')) s')
  end.

Definition zoom {T S A} (proj : S -> T) (inj : T -> S -> S) (m : M T A) : M S A :=
  fun s => zoomP proj inj (m (proj s)) s.

(** [for (const x of xs) { body x }] *)
Fixpoint for_each {S X} (xs : list X) (body : X -> M S unit) : M S unit :=
  match xs with
  | [] => ret tt
  | x :: xs' => bind (body x) (fun _ => for_each xs' body)
  end.

(** *** Running a resumption to its end

    The world is a function of what has happened so far. [run] feeds every
    request its answer at once, so no other event comes in between. *)
Record oracle := {
  answer : forall X, list event -> call X -> result X;
  tell : forall X, list event -> query X -> X
}.

Inductive outcome (S A : Type) : Type :=
| Done (a : A) (s : S)
| Failed (e : string) (s : S).
Arguments Done {S A} a s.
Arguments Failed {S A} e s.

Fixpoint run {S A} (o : oracle) (tr : list event) (p : prog S A)
    : list event * outcome S A :=
  match p with
  | Ret a s => (tr, Done a s)
  | Throw e s => (tr, Failed e s)
  | Ask q k => run o (tr ++ [EAsk q]) (k (tell o _ tr q))
  | Await s c k => run o (tr ++ [ECall c]) (k (answer o _ tr c) s)
  end.

Definition final_state {S A} (r : list event * outcome S A) : S :=
  match snd r with Done _ s => s | Failed _ s => s end.

End Async.

Import Async.

Notation "'let*' x ':=' m 'in' k" := (Async.bind m (fun x => k))
  (at level 10, x name, m at level 100, k at level 200).
Notation "m ';;' k" := (Async.bind m (fun _ => k))
  (at level 100, k at level 200, right associativity).

(** A value in a condition: [undefined] and the empty string are falsy. *)
Definition truthy (o : option string) : option string :=
  match o with
  | Some EmptyString => None
  | _ => o
  end.

Definition text_or (dflt : string) (o : option string) : string :=
  match o with Some t => t | None => dflt end.

(** ** [AIBrain] (module [./ai-brain], in [src/services/scheduler.ts])

    The prompt context handed to the drafting service only shapes the request
    text and is left out of the requests. *)

Module AIBrain.

Definition idea_id (now : N) (i : nat) : string :=
  "idea-" +:+ pretty now +:+ "-" +:+ pretty i.

Definition draft_id (now : N) : string := "draft-" +:+ pretty now.

(** [ideas.map((idea, i) => ({ id: `idea-${Date.now()}-${i}`, ... }))] *)
Fixpoint stamp_ideas {St} (sources : list string) (i : nat) (raw : list RawIdea)
    : M St (list ContentIdea) :=
  match raw with
  | [] => ret []
  | r :: raw' =>
      let* t_id := ask Now in
      let* t_created := ask Now in
      let idea :=
        {| i_id := idea_id t_id i;
           i_sourceTranscriptIds := sources;
           i_theme := r_theme r;
           i_hook := r_hook r;
           i_rawQuotes := r_rawQuotes r;
           i_suggestedFormat := r_suggestedFormat r;
           i_status := extracted;
           i_createdAt := t_created;
           i_notionPageId := None |} in
      let* rest := stamp_ideas sources (S i) raw' in
      ret (idea :: rest)
  end.

(** The request is rejected ([Err]) or answers the parsed array; an answer
    without a JSON array, or one that does not parse, is [Ok []]. *)
Definition mineContentIdeas {St} (transcripts : list Transcript)
    : M St (list ContentIdea) :=
  match transcripts with
  | [] => ret []
  | _ =>
      let* raw := await (LlmMine transcripts) in
      stamp_ideas (map t_id transcripts) 0 raw
  end.

Definition generateInterviewOpener {St} (idea : ContentIdea) : M St string :=
  let* r := await (LlmOpener idea) in ret (text_or "" r).

Definition generateFollowUp {St} (idea : ContentIdea) (msgs : list InterviewMessage)
    : M St string :=
  let* r := await (LlmFollowUp idea msgs) in ret (text_or "" r).

Definition hasEnoughMaterial {St} (messages : list InterviewMessage) : M St bool :=
  if (length messages <? 4)%nat then ret false     (* Need at least 2 exchanges *)
  else if (10 <=? length messages)%nat then ret true   (* Cap it *)
  else
    let* r := await (LlmEnough messages) in
    let answer :=
      match r with
      | Some t => JsString.trim (JsString.toLowerCase t)
      | None => "no"
      end in
    ret (JsString.includes answer "yes").

Definition generateDraft {St} (idea : ContentIdea) (messages : list InterviewMessage)
    (format : ContentFormat) : M St ContentDraft :=
  let* r := await (LlmDraft idea messages format) in
  let body := text_or "" r in
  let* t_id := ask Now in
  let* t_created := ask Now in
  ret {| d_id := draft_id t_id;
         d_ideaId := i_id idea;
         d_format := format;
         d_title := i_hook idea;
         d_body := body;
         d_version := 1;
         d_status := draft;
         d_createdAt := t_created;
         d_notionPageId := None |}.

Definition reworkDraft {St} (originalBody feedback : string) (format : ContentFormat)
    : M St string :=
  let* r := await (LlmRework originalBody feedback format) in ret (text_or "" r).

Definition syndicateToXThread {St} (linkedinPost : string) : M St string :=
  let* r := await (LlmSyndicate linkedinPost) in ret (text_or "" r).

End AIBrain.

(** ** [ContentMiner] ([src/services/content-miner.ts])

    An idea object is reached through its key in [ideas]: an assignment to a
    field of the object is an update of the binding. *)

Module ContentMiner.

Record Miner := {
  ideas : JsMap.t ContentIdea;
  pendingTranscripts : list Transcript;
  processing : bool;
  minedTranscriptIds : gset string;
  knownHooks : gset string
}.

Definition init : Miner :=
  {| ideas := JsMap.empty; pendingTranscripts := []; processing := false;
     minedTranscriptIds := ∅; knownHooks := ∅ |}.

Definition set_ideas (x : JsMap.t ContentIdea) (m : Miner) : Miner :=
  {| ideas := x; pendingTranscripts := pendingTranscripts m;
     processing := processing m; minedTranscriptIds := minedTranscriptIds m;
     knownHooks := knownHooks m |}.

Definition set_pendingTranscripts (x : list Transcript) (m : Miner) : Miner :=
  {| ideas := ideas m; pendingTranscripts := x;
     processing := processing m; minedTranscriptIds := minedTranscriptIds m;
     knownHooks := knownHooks m |}.

Definition set_processing (x : bool) (m : Miner) : Miner :=
  {| ideas := ideas m; pendingTranscripts := pendingTranscripts m;
     processing := x; minedTranscriptIds := minedTranscriptIds m;
     knownHooks := knownHooks m |}.

Definition set_minedTranscriptIds (x : gset string) (m : Miner) : Miner :=
  {| ideas := ideas m; pendingTranscripts := pendingTranscripts m;
     processing := processing m; minedTranscriptIds := x;
     knownHooks := knownHooks m |}.

Definition set_knownHooks (x : gset string) (m : Miner) : Miner :=
  {| ideas := ideas m; pendingTranscripts := pendingTranscripts m;
     processing := processing m; minedTranscriptIds := minedTranscriptIds m;
     knownHooks := x |}.

(** [this.minedTranscriptIds.add(tid)] and the like *)
Definition mark_mined (tid : string) (m : Miner) : Miner :=
  set_minedTranscriptIds ({[tid]} ∪ minedTranscriptIds m) m.

Definition mark_all_mined (tids : list string) (m : Miner) : Miner :=
  foldl (fun acc tid => mark_mined tid acc) m tids.

Definition put_idea (idea : ContentIdea) (m : Miner) : Miner :=
  set_ideas (JsMap.set (ideas m) (i_id idea) idea) m.

Definition normalizeHook (hook : string) : string := JsString.normalize hook.

Definition add_hook (hook : string) (m : Miner) : Miner :=
  set_knownHooks ({[normalizeHook hook]} ∪ knownHooks m) m.

Definition isDuplicate (m : Miner) (hook : string) : bool :=
  bool_decide (normalizeHook hook ∈ knownHooks m).

(** One turn of the loop over the loaded ideas; the flag is
    [hasOrphanedIdeas]. *)
Definition load_idea (acc : Miner * bool) (idea : ContentIdea) : Miner * bool :=
  let '(m, hasOrphanedIdeas) := acc in
  let m := add_hook (i_hook idea) (put_idea idea m) in
  match i_sourceTranscriptIds idea with
  | [] => (m, true)
  | tids => (mark_all_mined tids m, hasOrphanedIdeas)
  end.

Definition load_ideas (loaded : list ContentIdea)
    (allTranscriptIds : option (list string)) (m : Miner) : Miner :=
  let '(m, hasOrphanedIdeas) := foldl load_idea (m, false) loaded in
  match hasOrphanedIdeas, allTranscriptIds with
  | true, Some tids => mark_all_mined tids m
  | _, _ => m
  end.

Definition loadFromNotion (allTranscriptIds : option (list string)) : M Miner unit :=
  try_catch
    (let* loaded := await NotionLoadIdeas in
     modify (load_ideas loaded allTranscriptIds))
    (fun _ => ret tt).

(** [try { idea.notionPageId = await this.notion.saveContentIdea(idea) }
    catch { }]; the answer is the idea as the caller holds it afterwards. *)
Definition save_idea (idea : ContentIdea) : M Miner ContentIdea :=
  try_catch
    (let* page := await (NotionSaveIdea idea) in
     modify (fun m =>
       set_ideas (JsMap.update (ideas m) (i_id idea) (idea_with_page page)) m);;
     ret (idea_with_page page idea))
    (fun _ => ret idea).

(** [processQueue]; the recursion of its [finally] block is bounded by
    [fuel], and [false] answers that the bound was hit. *)
Fixpoint processQueue (fuel : nat) : M Miner bool :=
  let* m := get in
  if processing m || (length (pendingTranscripts m) =? 0)%nat then ret true
  else
    match fuel with
    | O => ret false
    | S fuel' =>
        modify (set_processing true);;
        try_catch
          (let* m := get in
           let batch := take 5 (pendingTranscripts m) in
           modify (set_pendingTranscripts (drop 5 (pendingTranscripts m)));;
           let* found := AIBrain.mineContentIdeas batch in
           for_each found (fun idea =>
             modify (put_idea idea);;
             let* _ := save_idea idea in
             ret tt))
          (fun _ => ret tt);;
        modify (set_processing false);;
        let* m := get in
        if (0 <? length (pendingTranscripts m))%nat
        then processQueue fuel'
        else ret true
    end.

Definition queueTranscript (fuel : nat) (transcript : Transcript) : M Miner bool :=
  modify (fun m =>
    set_pendingTranscripts (pendingTranscripts m ++ [transcript]) m);;
  let* m := get in
  if negb (processing m) then processQueue fuel else ret true.

Definition has_content (c : string) : bool := (50 <? String.length c)%nat.

(** The loop that fills [withContent] and marks every transcript mined. *)
Fixpoint load_contents (unmined withContent : list Transcript)
    : M Miner (list Transcript) :=
  match unmined with
  | [] => ret withContent
  | t :: rest =>
      let* withContent :=
        if has_content (t_content t) then ret (withContent ++ [t])
        else
          match truthy (t_notionPageId t) with
          | Some page =>
              try_catch
                (let* c := await (NotionLoadTranscriptContent page) in
                 if has_content c
                 then ret (withContent ++ [transcript_with_content c t])
                 else ret withContent)
                (fun _ => ret withContent)
          | None => ret withContent
          end in
      modify (mark_mined (t_id t));;
      load_contents rest withContent
  end.

Definition newline : string := String (ascii_of_N 10) EmptyString.

Definition truncation_note : string :=
  newline +:+ newline +:+ "[... transcript truncated for processing]".

Definition truncate (t : Transcript) : Transcript :=
  if (4000 <? String.length (t_content t))%nat
  then transcript_with_content
         (JsString.slice0 4000 (t_content t) +:+ truncation_note) t
  else t.

(** The loop over the ideas of one batch; [allIdeas] is the array that
    [mineFromTranscripts] answers. *)
Fixpoint record_ideas (found allIdeas : list ContentIdea)
    : M Miner (list ContentIdea) :=
  match found with
  | [] => ret allIdeas
  | idea :: rest =>
      let* m := get in
      if isDuplicate m (i_hook idea) then record_ideas rest allIdeas
      else
        modify (fun m => add_hook (i_hook idea) (put_idea idea m));;
        let* idea := save_idea idea in
        record_ideas rest (allIdeas ++ [idea])
  end.

Definition batchSize : nat := 10.

(** [l.slice(i, j)] *)
Definition slice {A} (i j : nat) (l : list A) : list A := take (j - i) (drop i l).

(** [for (let i = 0; i < withContent.length; i += batchSize)]. Nothing
    after [mineContentIdeas] throws inside the [try], so the handler meets
    [allIdeas] as it was when the batch began. *)
Fixpoint mine_batches (fuel i : nat) (withContent : list Transcript)
    (allIdeas : list ContentIdea) : M Miner (list ContentIdea) :=
  match fuel with
  | O => ret allIdeas
  | S fuel' =>
      if (i <? length withContent)%nat then
        let batch := slice i (i + batchSize) withContent in
        let* allIdeas :=
          try_catch
            (let* found := AIBrain.mineContentIdeas batch in
             record_ideas found allIdeas)
            (fun _ => ret allIdeas) in
        mine_batches fuel' (i + batchSize) withContent allIdeas
      else ret allIdeas
  end.

Definition mineFromTranscripts (transcripts : list Transcript)
    : M Miner (list ContentIdea) :=
  match transcripts with
  | [] => ret []
  | _ =>
      let* m := get in
      let unmined :=
        filter (fun t => t_id t ∉ minedTranscriptIds m) transcripts in
      match unmined with
      | [] => ret []
      | _ =>
          let* withContent := load_contents unmined [] in
          match withContent with
          | [] => ret []
          | _ =>
              let withContent := map truncate withContent in
              mine_batches (length withContent) 0 withContent []
          end
      end
  end.

Definition getUnprocessedIdeas (m : Miner) : list ContentIdea :=
  filter (fun idea => i_status idea = extracted) (JsMap.values (ideas m)).

Definition getIdea (m : Miner) (id : string) : option ContentIdea :=
  JsMap.get (ideas m) id.

Definition updateIdeaStatus (id : string) (status : IdeaStatus) : M Miner unit :=
  let* m := get in
  match JsMap.get (ideas m) id with
  | None => ret tt
  | Some idea =>
      modify (fun m =>
        set_ideas (JsMap.update (ideas m) id (idea_with_status status)) m);;
      match truthy (i_notionPageId idea) with
      | Some page =>
          try_catch
            (await (NotionUpdateStatus page (IdeaStatus_name status)))
            (fun _ => ret tt)
      | None => ret tt
      end
  end.

(** A stable sort, newest first: [sort((a, b) => time(b) - time(a))]. *)
Fixpoint insert_newest_first (x : ContentIdea) (l : list ContentIdea)
    : list ContentIdea :=
  match l with
  | [] => [x]
  | y :: l' =>
      if (i_createdAt y <=? i_createdAt x)%N then x :: l
      else y :: insert_newest_first x l'
  end.

Definition getAllIdeas (m : Miner) : list ContentIdea :=
  foldr insert_newest_first [] (JsMap.values (ideas m)).

End ContentMiner.

(** ** [SlackBot] ([src/services/slack-bot.ts])

    A session or draft object is reached through its key in the table that
    holds it. No binding of either table is ever removed; the embedding is
    exact as long as a key is not bound to a second object while a handler
    still holds the first, that is, as long as the chat transport does not
    hand out a thread timestamp twice. *)

Module SlackBot.
Import ContentMiner.

Record PendingRework := { pr_draftId : string; pr_ideaId : string }.

Record Bot := {
  miner : Miner;
  activeSessions : JsMap.t InterviewSession;
  pendingDrafts : JsMap.t ContentDraft;
  lastShownIdeas : list ContentIdea;
  pendingRework : option PendingRework;
  slackUserId : string   (* config.slack.userId *)
}.

Definition init (owner : string) (m : Miner) : Bot :=
  {| miner := m; activeSessions := JsMap.empty; pendingDrafts := JsMap.empty;
     lastShownIdeas := []; pendingRework := None; slackUserId := owner |}.

Definition set_miner (x : Miner) (b : Bot) : Bot :=
  {| miner := x; activeSessions := activeSessions b;
     pendingDrafts := pendingDrafts b; lastShownIdeas := lastShownIdeas b;
     pendingRework := pendingRework b; slackUserId := slackUserId b |}.

Definition set_activeSessions (x : JsMap.t InterviewSession) (b : Bot) : Bot :=
  {| miner := miner b; activeSessions := x;
     pendingDrafts := pendingDrafts b; lastShownIdeas := lastShownIdeas b;
     pendingRework := pendingRework b; slackUserId := slackUserId b |}.

Definition set_pendingDrafts (x : JsMap.t ContentDraft) (b : Bot) : Bot :=
  {| miner := miner b; activeSessions := activeSessions b;
     pendingDrafts := x; lastShownIdeas := lastShownIdeas b;
     pendingRework := pendingRework b; slackUserId := slackUserId b |}.

Definition set_lastShownIdeas (x : list ContentIdea) (b : Bot) : Bot :=
  {| miner := miner b; activeSessions := activeSessions b;
     pendingDrafts := pendingDrafts b; lastShownIdeas := x;
     pendingRework := pendingRework b; slackUserId := slackUserId b |}.

Definition set_pendingRework (x : option PendingRework) (b : Bot) : Bot :=
  {| miner := miner b; activeSessions := activeSessions b;
     pendingDrafts := pendingDrafts b; lastShownIdeas := lastShownIdeas b;
     pendingRework := x; slackUserId := slackUserId b |}.

(** [await this.miner.f(...)] *)
Definition in_miner {A} (m : M Miner A) : M Bot A := zoom miner set_miner m.

Definition upd_session (key : string) (f : InterviewSession -> InterviewSession)
    (b : Bot) : Bot :=
  set_activeSessions (JsMap.update (activeSessions b) key f) b.

(** The session object a handler holds, read through its key. *)
Definition session_at (key : string) (held : InterviewSession) (b : Bot)
    : InterviewSession :=
  default held (JsMap.get (activeSessions b) key).

Definition post (channel : string) (thread : option string) (text : SlackText)
    : SlackPost :=
  {| p_channel := channel; p_thread_ts := thread; p_text := text;
     p_ideaId := None; p_buttonsFor := None |}.

(** The [say] closure of the message handler posts to the channel of the
    message. *)
Definition say (channel : string) (text : SlackText) (thread : option string)
    : M Bot unit :=
  let* _ := await (SlackPostMessage (post channel thread text)) in ret tt.

(** [this.webClient.chat.postMessage({ channel: config.slack.userId, ... })] *)
Definition tell_owner (text : SlackText) : M Bot unit :=
  let* b := get in
  let* _ := await (SlackPostMessage (post (slackUserId b) None text)) in ret tt.

Definition sendContentPing (idea : ContentIdea) : M Bot unit :=
  let* opener := AIBrain.generateInterviewOpener idea in
  let* b := get in
  let* ts := await (SlackPostMessage
    {| p_channel := slackUserId b; p_thread_ts := None;
       p_text := TxtOpener opener; p_ideaId := Some (i_id idea);
       p_buttonsFor := None |}) in
  match truthy ts with
  | Some ts =>
      let* t_id := ask Now in
      let* t_msg := ask Now in
      let* t_start := ask Now in
      let session :=
        {| s_id := "session-" +:+ pretty t_id;
           s_ideaId := i_id idea;
           s_slackThreadTs := ts;
           s_messages :=
             [{| m_role := agent; m_content := opener; m_timestamp := t_msg |}];
           s_status := active;
           s_startedAt := t_start;
           s_completedAt := None |} in
      modify (fun b =>
        set_activeSessions (JsMap.set (activeSessions b) ts session) b);;
      in_miner (updateIdeaStatus (i_id idea) interviewing)
  | None => ret tt
  end.

Definition maxLen : nat := 3500.

Definition blank_line : string := newline +:+ newline.

Definition nonempty (s : string) : bool :=
  match s with EmptyString => false | _ => true end.

(** The loop that cuts a long body at paragraph breaks. *)
Definition chunk_step (acc : list string * string) (para : string)
    : list string * string :=
  let '(chunks, current) := acc in
  if (maxLen <? String.length (current +:+ blank_line +:+ para))%nat
     && (0 <? String.length current)%nat
  then (chunks ++ [JsString.trim current], para)
  else (chunks, if nonempty current then current +:+ blank_line +:+ para else para).

Definition chunk_paragraphs (body : string) : list string :=
  let '(chunks, current) :=
    foldl chunk_step ([], EmptyString) (JsString.split_blank body) in
  if nonempty (JsString.trim current)
  then chunks ++ [JsString.trim current]
  else chunks.

Definition sendDraftNotification (d : ContentDraft) (idea : ContentIdea)
    : M Bot unit :=
  let* b := get in
  let owner := slackUserId b in
  let* threadTs := await (SlackPostMessage (post owner None
    (TxtDraftHeader (d_format d) (i_theme idea) (i_hook idea)))) in
  (if (String.length (d_body d) <=? maxLen)%nat
   then
     let* _ := await (SlackPostMessage
       (post owner threadTs (TxtDraftBody (d_body d)))) in ret tt
   else
     for_each (chunk_paragraphs (d_body d)) (fun chunk =>
       let* _ := await (SlackPostMessage
         (post owner threadTs (TxtDraftBody chunk))) in ret tt));;
  let* _ := await (SlackPostMessage
    {| p_channel := owner; p_thread_ts := threadTs; p_text := TxtDraftButtons;
       p_ideaId := None; p_buttonsFor := Some (d_id d) |}) in
  modify (fun b => set_pendingDrafts (JsMap.set (pendingDrafts b) (d_id d) d) b).

(** The most recently started active session, with its key. *)
Definition latest_step (latest : option (string * InterviewSession))
    (entry : string * InterviewSession) : option (string * InterviewSession) :=
  if bool_decide (s_status (snd entry) = active) then
    match latest with
    | None => Some entry
    | Some l =>
        if (s_startedAt (snd l) <? s_startedAt (snd entry))%N
        then Some entry else latest
    end
  else latest.

Definition getLatestActiveSession (b : Bot) : option (string * InterviewSession) :=
  foldl latest_step None (activeSessions b).

(** [try { d.notionPageId = await this.notion.saveContentDraft(d) } catch { }] *)
Definition save_draft (d : ContentDraft) : M Bot ContentDraft :=
  try_catch
    (let* page := await (NotionSaveDraft d) in ret (draft_with_page page d))
    (fun _ => ret d).

Definition handleInterviewReply (key : string) (held : InterviewSession)
    (userMessage threadTs channel : string) : M Bot unit :=
  let* t := ask Now in
  modify (upd_session key (session_push
    {| m_role := user; m_content := userMessage; m_timestamp := t |}));;
  let* b := get in
  match getIdea (miner b) (s_ideaId (session_at key held b)) with
  | None => ret tt
  | Some idea =>
      let* hasEnough :=
        AIBrain.hasEnoughMaterial (s_messages (session_at key held b)) in
      if hasEnough : bool then
        say channel TxtEnough (Some threadTs);;
        modify (upd_session key (session_with_status completed));;
        let* t := ask Now in
        modify (upd_session key (session_with_completedAt t));;
        let* b := get in
        let* d := AIBrain.generateDraft idea
                    (s_messages (session_at key held b))
                    (i_suggestedFormat idea) in
        let* d := save_draft d in
        in_miner (updateIdeaStatus (i_id idea) draft_ready);;
        sendDraftNotification d idea;;
        if bool_decide (i_suggestedFormat idea = linkedin_post) then
          let* xThread := AIBrain.syndicateToXThread (d_body d) in
          tell_owner (TxtAutoXThread xThread)
        else ret tt
      else
        let* b := get in
        let* followUp := AIBrain.generateFollowUp idea
                           (s_messages (session_at key held b)) in
        let* t := ask Now in
        modify (upd_session key (session_push
          {| m_role := agent; m_content := followUp; m_timestamp := t |}));;
        say channel (TxtFollowUp followUp) (Some threadTs)
  end.

(** [{ ...draft, id, body, version: draft.version + 1, status, createdAt }] *)
Definition reworked (d : ContentDraft) (t_id : N) (body : string) (t_created : N)
    : ContentDraft :=
  {| d_id := AIBrain.draft_id t_id;
     d_ideaId := d_ideaId d;
     d_format := d_format d;
     d_title := d_title d;
     d_body := body;
     d_version := d_version d + 1;
     d_status := draft;
     d_createdAt := t_created;
     d_notionPageId := d_notionPageId d |}.

(** The idea handed to [sendDraftNotification] when the registry has none. *)
Definition stand_in_idea (rework : PendingRework) (d : ContentDraft) : ContentIdea :=
  {| i_id := pr_ideaId rework; i_sourceTranscriptIds := []; i_theme := "";
     i_hook := d_title d; i_rawQuotes := [];
     i_suggestedFormat := d_format d; i_status := draft_ready;
     i_createdAt := d_createdAt d; i_notionPageId := None |}.

Definition handleReworkFeedback (feedback channel : string) : M Bot unit :=
  let* b := get in
  match pendingRework b with
  | None => ret tt
  | Some rework =>
      (* Clear the pending state immediately so we don't loop *)
      modify (set_pendingRework None);;
      match JsMap.get (pendingDrafts b) (pr_draftId rework) with
      | None => say channel TxtOriginalMissing None
      | Some d =>
          let idea := getIdea (miner b) (pr_ideaId rework) in
          say channel TxtReworking None;;
          try_catch
            (let* reworkedBody :=
               AIBrain.reworkDraft (d_body d) feedback (d_format d) in
             let* t_id := ask Now in
             let* t_created := ask Now in
             let* newDraft := save_draft (reworked d t_id reworkedBody t_created) in
             sendDraftNotification newDraft
               (default (stand_in_idea rework d) idea))
            (fun e => say channel (TxtReworkFailed e) None)
      end
  end.

Definition handleStatusCommand (channel : string) : M Bot unit :=
  let* b := get in
  let all := getAllIdeas (miner b) in
  let* transcripts := ask (StoreGetRecent 7) in
  let activeInterviews :=
    filter (fun s => s_status s = active) (JsMap.values (activeSessions b)) in
  say channel
    (TxtStatus (length transcripts) (length all) (length activeInterviews)
       (length (filter (fun i => i_status i = extracted) all))
       (length (filter (fun i => i_status i = draft_ready) all)))
    None.

Definition handleIdeasCommand (channel : string) : M Bot unit :=
  let* b := get in
  match getUnprocessedIdeas (miner b) with
  | [] => say channel TxtNoIdeas None
  | unprocessed =>
      let shown := take 10 unprocessed in
      modify (set_lastShownIdeas shown);;
      say channel (TxtIdeaList shown) None
  end.

Definition handleMineCommand (channel : string) : M Bot unit :=
  let* transcripts := ask (StoreGetRecent 90) in
  match transcripts with
  | [] => say channel TxtNoTranscripts None
  | _ =>
      say channel (TxtMining (length transcripts)) None;;
      let* found := in_miner (mineFromTranscripts transcripts) in
      match found with
      | [] => say channel TxtNothingFound None
      | _ =>
          modify (set_lastShownIdeas found);;
          say channel (TxtFound found) None
      end
  end.

Definition fuzzy_match (input : string) (i : ContentIdea) : bool :=
  JsString.includes (i_id i) input || JsString.includes input (i_id i).

Definition handleDraftCommand (command channel : string) : M Bot unit :=
  let input := JsString.trim (JsString.remove_first "draft " command) in
  let* b := get in
  let by_id :=
    match getIdea (miner b) input with
    | Some idea => sendContentPing idea
    | None =>
        match List.find (fuzzy_match input) (getAllIdeas (miner b)) with
        | Some fuzzyMatch => sendContentPing fuzzyMatch
        | None => say channel (TxtUnknownIdea input) None
        end
    end in
  match JsString.parseInt input with
  | Some num =>
      if ((1 <=? num) && (num <=? 99))%Z then
        let shown :=
          match lastShownIdeas b with
          | [] => getAllIdeas (miner b)
          | l => l
          end in
        match shown !! Z.to_nat (num - 1) with
        | Some idea => sendContentPing idea
        | None => say channel (TxtNoIdeaAt num) None
        end
      else by_id
  | None => by_id
  end.

Definition handleHelpCommand (channel : string) : M Bot unit :=
  say channel TxtHelp None.

Definition is_one_of (l : list string) (s : string) : bool :=
  existsb (String.eqb s) l.

Definition handleCommand (text channel : string) : M Bot unit :=
  let command := JsString.normalize text in
  if is_one_of ["stop"; "done"] command then
    let* b := get in
    match getLatestActiveSession b with
    | Some (key, _) =>
        modify (upd_session key (session_with_status abandoned));;
        say channel TxtStopped None
    | None => say channel TxtNothingToStop None
    end
  else if is_one_of ["status"; "what do you have"] command then
    handleStatusCommand channel
  else if is_one_of ["ideas"; "show ideas"] command then
    handleIdeasCommand channel
  else if is_one_of ["mine"; "find content"] command then
    handleMineCommand channel
  else if JsString.startsWith command "draft " || JsString.is_number_1_2 command then
    handleDraftCommand command channel
  else if String.eqb command "help" then
    handleHelpCommand channel
  else
    say channel TxtNoted None.

(** *** The message handler

    [Incoming] is a direct message that has been acknowledged and has
    passed the filters at the head of the handler (no subtype, a text, not
    from a bot, from the configured user); [msg_text] is its text after the
    Slack markup has been removed, the [userMessage] of the code. From there
    to the first handler that is called nothing is awaited. *)
Record Incoming := {
  msg_thread_ts : option string;
  msg_ts : string;
  msg_channel : string;
  msg_text : string
}.

Definition interview_commands : list string :=
  ["stop"; "done"; "ideas"; "mine"; "status"; "help"; "what do you have";
   "show ideas"; "find content"].

Definition rework_commands : list string :=
  ["stop"; "done"; "ideas"; "mine"; "status"; "help"; "cancel"].

(** Where the conditionals of the handler send a message. *)
Inductive Route :=
| ThreadReply (key : string) (session : InterviewSession)
| LatestReply (key : string) (session : InterviewSession)
| ReworkCancel
| ReworkFeedback
| CommandAfterRework
| Command.

Definition threadTs_of (msg : Incoming) : string :=
  match truthy (msg_thread_ts msg) with
  | Some t => t
  | None => msg_ts msg
  end.

Definition route_rework (b : Bot) (msg : Incoming) : Route :=
  match pendingRework b with
  | Some _ =>
      let cmd := JsString.normalize (msg_text msg) in
      if String.eqb cmd "cancel" then ReworkCancel
      else if negb (is_one_of rework_commands cmd) then ReworkFeedback
      else CommandAfterRework
  | None => Command
  end.

Definition route_unthreaded (b : Bot) (msg : Incoming) : Route :=
  match truthy (msg_thread_ts msg) with
  | Some _ => route_rework b msg
  | None =>
      let lowerMsg := JsString.normalize (msg_text msg) in
      let isCommand := is_one_of interview_commands lowerMsg in
      let isNumber := JsString.is_number_1_2 lowerMsg in
      if negb isCommand && negb isNumber then
        match getLatestActiveSession b with
        | Some (key, activeSession) => LatestReply key activeSession
        | None => route_rework b msg
        end
      else route_rework b msg
  end.

Definition route (b : Bot) (msg : Incoming) : Route :=
  match JsMap.get (activeSessions b) (threadTs_of msg) with
  | Some session =>
      if bool_decide (s_status session = active)
      then ThreadReply (threadTs_of msg) session
      else route_unthreaded b msg
  | None => route_unthreaded b msg
  end.

Definition dispatch (msg : Incoming) (r : Route) : M Bot unit :=
  let userMessage := msg_text msg in
  let channel := msg_channel msg in
  match r with
  | ThreadReply key session =>
      handleInterviewReply key session userMessage (threadTs_of msg) channel
  | LatestReply key activeSession =>
      handleInterviewReply key activeSession userMessage
        (s_slackThreadTs activeSession) channel
  | ReworkCancel =>
      modify (set_pendingRework None);;
      say channel TxtReworkCancelled None
  | ReworkFeedback => handleReworkFeedback userMessage channel
  | CommandAfterRework =>
      modify (set_pendingRework None);;
      handleCommand userMessage channel
  | Command => handleCommand userMessage channel
  end.

Definition on_message (msg : Incoming) : M Bot unit :=
  try_catch
    (let* b := get in dispatch msg (route b msg))
    (fun e =>
       try_catch (say (msg_channel msg) (TxtHandlerError e) None)
                 (fun _ => ret tt)).

(** *** The handler of button clicks *)
Record Action := { action_id : string; action_value : option string }.

Definition on_action (a : Action) : M Bot unit :=
  if String.eqb (action_id a) "approve_draft" then
    match truthy (action_value a) with
    | None => ret tt
    | Some value =>
        let* b := get in
        match JsMap.get (pendingDrafts b) value with
        | Some d =>
            modify (fun b => set_pendingDrafts
              (JsMap.update (pendingDrafts b) value (draft_with_status approved)) b);;
            match truthy (d_notionPageId d) with
            | Some page => await (NotionUpdateStatus page "approved")
            | None => ret tt
            end;;
            tell_owner TxtApproved
        | None => tell_owner TxtDraftExpired
        end
    end
  else if String.eqb (action_id a) "rework_draft" then
    let* b := get in
    match
      match truthy (action_value a) with
      | Some draftId => JsMap.get (pendingDrafts b) draftId
      | None => None
      end
    with
    | Some d =>
        modify (set_pendingRework
          (Some {| pr_draftId := d_id d; pr_ideaId := d_ideaId d |}));;
        tell_owner TxtReworkPrompt
    | None => tell_owner TxtDraftExpired
    end
  else if String.eqb (action_id a) "syndicate_x" then
    match truthy (action_value a) with
    | None => ret tt
    | Some value =>
        let* b := get in
        match JsMap.get (pendingDrafts b) value with
        | Some d =>
            if bool_decide (d_format d = linkedin_post) then
              let* xThread := AIBrain.syndicateToXThread (d_body d) in
              tell_owner (TxtXThread xThread)
            else tell_owner TxtSyndicateHint
        | None => tell_owner TxtSyndicateHint
        end
    end
  else ret tt.

(** [payload] is [None] for a payload that is missing or not of type
    [block_actions], else its [actions]. *)
Definition on_interactive (payload : option (list Action)) : M Bot unit :=
  try_catch
    (match payload with
     | None => ret tt
     | Some actions => for_each actions on_action
     end)
    (fun e => try_catch (tell_owner (TxtActionError e)) (fun _ => ret tt)).

(** *** What happens to the bot

    Chat events are taken one after another, each run to its end. The
    scheduler reaches the session table through [sendContentPing] only; the
    mining queue, the scheduler's mining and the start-up load work on the
    registry between chat events, and any registry may result. *)
Inductive Event :=
| Message (msg : Incoming)
| Interactive (payload : option (list Action))
| ContentPing (idea : ContentIdea)
| Mining (registry : Miner).

Definition handle (e : Event) : M Bot unit :=
  match e with
  | Message msg => on_message msg
  | Interactive payload => on_interactive payload
  | ContentPing idea => try_catch (sendContentPing idea) (fun _ => ret tt)
  | Mining registry => modify (set_miner registry)
  end.

Definition step (o : oracle) (st : list event * Bot) (e : Event)
    : list event * Bot :=
  let r := run o (fst st) (handle e (snd st)) in
  (fst r, final_state r).

Definition run_events (o : oracle) (st : list event * Bot) (es : list Event)
    : list event * Bot :=
  foldl (step o) st es.

End SlackBot.

(** ** More of the strings and arrays of the code *)

Module JsText.

(** [l.join(sep)] *)
Fixpoint join (sep : string) (l : list string) : string :=
  match l with
  | [] => EmptyString
  | x :: l' =>
      match l' with
      | [] => x
      | _ => x +:+ sep +:+ join sep l'
      end
  end.

(** [s.split(sep)] for a separator that is not empty. [skip] counts the
    characters of a separator just met that are still to be passed over;
    [cur] is the piece being read. *)
Fixpoint split_from (sep : string) (skip : nat) (cur s : string) : list string :=
  match s with
  | EmptyString => [cur]
  | String c s' =>
      match skip with
      | S skip' => split_from sep skip' cur s'
      | O =>
          if String.prefix sep s
          then cur :: split_from sep (String.length sep - 1) EmptyString s'
          else split_from sep 0 (cur +:+ String c EmptyString) s'
      end
  end.

Definition split (sep s : string) : list string :=
  split_from sep 0 EmptyString s.

(** [s.slice(i, j)] for [0 <= i <= j] *)
Definition slice (i j : nat) (s : string) : string := substring i (j - i) s.

(** [Boolean(s)] *)
Definition truthy_text (s : string) : bool :=
  match s with EmptyString => false | _ => true end.

End JsText.

(** ** [NotionService] ([src/services/notion.ts]): what is written to a page
    and read back from it

    The requests themselves are the [Notion...] calls above; here is the
    text that the methods put into the properties and the body of a page, and
    what they make of the text they read. *)

Module NotionService.

Definition formatLabel (format : ContentFormat) : string :=
  match format with
  | linkedin_post => "LinkedIn Post"
  | youtube_script => "YouTube Script"
  | newsletter => "Newsletter"
  | x_thread => "X Thread"
  end.

(** [reverseLabels[label] || 'linkedin_post']: [reverseLabels] is an object
    literal, so a label that is none of its four keys is looked up in
    [Object.prototype]. The properties of [Object.prototype] are functions,
    and [__proto__] gives [Object.prototype] itself; all are truthy, so such
    a label gives that member and not the default. *)
Definition object_prototype_keys : list string :=
  ["constructor"; "hasOwnProperty"; "isPrototypeOf"; "propertyIsEnumerable";
   "toLocaleString"; "toString"; "valueOf"; "__proto__";
   "__defineGetter__"; "__defineSetter__"; "__lookupGetter__"; "__lookupSetter__"].

Inductive ParsedFormat :=
| Format (format : ContentFormat)
| Inherited (key : string).   (* [Object.prototype[key]], no format *)

Definition parseFormat (label : string) : ParsedFormat :=
  if String.eqb label "LinkedIn Post" then Format linkedin_post
  else if String.eqb label "YouTube Script" then Format youtube_script
  else if String.eqb label "Newsletter" then Format newsletter
  else if String.eqb label "X Thread" then Format x_thread
  else if existsb (String.eqb label) object_prototype_keys then Inherited label
  else Format linkedin_post.

(** The text of the property ['Source Transcripts'] in [saveContentIdea]:
    [idea.sourceTranscriptIds.join(',')]. *)
Definition sourceTranscripts_text (idea : ContentIdea) : string :=
  JsText.join "," (i_sourceTranscriptIds idea).

(** What [loadContentIdeas] makes of that text:
    [extractRichText(props['Source Transcripts']).split(',').filter(Boolean)]. *)
Definition sourceTranscriptIds_of (text : string) : list string :=
  List.filter JsText.truthy_text (JsText.split "," text).

(** The title of a draft page in [saveContentDraft], and the test by which
    [loadContentIdeas] passes over such pages. *)
Definition draft_title (d : ContentDraft) : string := "[DRAFT] " +:+ d_title d.

Definition is_draft_title (title : string) : bool :=
  JsString.startsWith title "[DRAFT]".

Definition maxLen : nat := 2000.

(** [for (let i = 0; i < paragraph.length; i += maxLen)
      blocks.push(... paragraph.slice(i, i + maxLen) ...)];
    [fuel] bounds the number of turns. *)
Fixpoint paragraph_blocks (fuel i : nat) (paragraph : string) : list string :=
  match fuel with
  | O => []
  | S fuel' =>
      if (i <? String.length paragraph)%nat
      then JsText.slice i (i + maxLen) paragraph
             :: paragraph_blocks fuel' (i + maxLen) paragraph
      else []
  end.

(** [textToBlocks]; a block is given by the [content] of its one text. *)
Definition textToBlocks (text : string) : list string :=
  flat_map
    (fun paragraph =>
       if JsText.truthy_text (JsString.trim paragraph)
       then paragraph_blocks (String.length paragraph) 0 paragraph
       else [])
    (JsString.split_blank text).

End NotionService.

(** ** The listeners of [registerHandlers] ([src/services/slack-bot.ts])

    [this.socketClient.on('message', async (event) => { await event.ack();
    ...; try { ... } catch (error) { ... } })], and the same for
    ['interactive']: the acknowledgement comes first and stands outside the
    [try]. It belongs to the socket client and is taken as a program [ack]
    that ends or throws. An event that the tests at the head of the message
    listener pass over (no inner event, a subtype, no text, a bot, another
    user) is [None]; [on_message] and [on_interactive] are the [try]
    statements of the two listeners. *)

Module Listeners.
Import SlackBot.

Definition message_listener (ack : M Bot unit) (event : option Incoming)
    : M Bot unit :=
  ack;;
  match event with
  | None => ret tt
  | Some msg => on_message msg
  end.

Definition interactive_listener (ack : M Bot unit) (payload : option (list Action))
    : M Bot unit :=
  ack;;
  on_interactive payload.

End Listeners.

(** ** [Scheduler] ([src/services/scheduler.ts])

    The scheduler works on the miner that the bot holds and on the bot
    itself. [pollNewMeetings] stands for [this.tldv.pollNewMeetings()],
    whose answer the cycle does not use. *)

Module Scheduler.
Import ContentMiner SlackBot.

(** Steps 1 to 4 of [runContentCycle]. *)
Definition content_cycle : M Bot unit :=
  let* b := get in
  match getUnprocessedIdeas (miner b) with
  | bestIdea :: _ => sendContentPing bestIdea
  | [] =>
      let* recentTranscripts := ask (StoreGetRecent 7) in
      match recentTranscripts with
      | [] => ret tt
      | _ =>
          let* found := in_miner (mineFromTranscripts recentTranscripts) in
          match found with
          | [] => ret tt
          | bestIdea :: _ => sendContentPing bestIdea
          end
      end
  end.

Definition runContentCycle (pollNewMeetings : M Bot (list Transcript))
    : M Bot unit :=
  try_catch
    (let* _ := pollNewMeetings in content_cycle)
    (fun _ => ret tt).

End Scheduler.

(** ** Components with requests of their own

    [TranscriptStore] and [TldvService] await requests that the session
    machine never makes. Their methods are resumptions over their own
    requests [R]; the clock is the only thing they read without suspending. *)

Module Task.

Inductive prog (R : Type -> Type) (S A : Type) : Type :=
| Ret (a : A) (s : S)
| Throw (e : string) (s : S)
| Clock (k : N -> prog R S A)
| Await {X : Type} (s : S) (r : R X) (k : result X -> S -> prog R S A).
Arguments Ret {R S A} a s.
Arguments Throw {R S A} e s.
Arguments Clock {R S A} k.
Arguments Await {R S A X} s r k.

Definition M (R : Type -> Type) (S A : Type) : Type := S -> prog R S A.

Definition ret {R S A} (a : A) : M R S A := fun s => Ret a s.
Definition throw {R S A} (e : string) : M R S A := fun s => Throw e s.

Fixpoint bindP {R S A B} (p : prog R S A) (f : A -> M R S B) : prog R S B :=
  match p with
  | Ret a s => f a s
  | Throw e s => Throw e s
  | Clock k => Clock (fun t => bindP (k t) f)
  | Await s r k => Await s r (fun x s' => bindP (k x s') f)
  end.

Definition bind {R S A B} (m : M R S A) (f : A -> M R S B) : M R S B :=
  fun s => bindP (m s) f.

(** [try { m } catch (error) { h error }] *)
Fixpoint catchP {R S A} (p : prog R S A) (h : string -> M R S A) : prog R S A :=
  match p with
  | Ret a s => Ret a s
  | Throw e s => h e s
  | Clock k => Clock (fun t => catchP (k t) h)
  | Await s r k => Await s r (fun x s' => catchP (k x s') h)
  end.

Definition try_catch {R S A} (m : M R S A) (h : string -> M R S A) : M R S A :=
  fun s => catchP (m s) h.

Definition get {R S} : M R S S := fun s => Ret s s.
Definition modify {R S} (f : S -> S) : M R S unit := fun s => Ret tt (f s).

(** [await r]: a rejected promise is rethrown at the [await]. *)
Definition await {R S X} (r : R X) : M R S X :=
  fun s => Await s r (fun x s' =>
    match x with Ok v => Ret v s' | Err e => Throw e s' end).

(** [Date.now()], [new Date()] *)
Definition now {R S} : M R S N := fun s => Clock (fun t => Ret t s).

(** What has happened: a request made, or the clock read. *)
Inductive event (R : Type -> Type) : Type :=
| Asked {X : Type} (r : R X)
| Read.
Arguments Asked {R X} r.
Arguments Read {R}.

(** The world answers as a function of what has happened so far. *)
Record world (R : Type -> Type) := {
  answer : forall X, list (event R) -> R X -> result X;
  time : list (event R) -> N
}.
Arguments answer {R} w X tr r.
Arguments time {R} w tr.

Fixpoint run {R S A} (w : world R) (tr : list (event R)) (p : prog R S A)
    : list (event R) * outcome S A :=
  match p with
  | Ret a s => (tr, Done a s)
  | Throw e s => (tr, Failed e s)
  | Clock k => run w (tr ++ [Read]) (k (time w tr))
  | Await s r k => run w (tr ++ [Asked r]) (k (answer w _ tr r) s)
  end.

End Task.

Notation "'let+' x ':=' m 'in' k" := (Task.bind m (fun x => k))
  (at level 10, x name, m at level 100, k at level 200).

(** ** [TranscriptStore] ([src/services/transcript-store.ts])

    A transcript object is reached through its key in [transcripts]. *)

Module TranscriptStore.

Inductive request : Type -> Type :=
| NotionSaveTranscript (t : Transcript) : request string
| NotionLoadTranscripts : request (list Transcript).

Definition Store : Type := JsMap.t Transcript.

Definition transcript_with_processedAt (at_ : N) (t : Transcript) : Transcript :=
  {| t_id := t_id t; t_meetingId := t_meetingId t; t_title := t_title t;
     t_date := t_date t; t_participants := t_participants t;
     t_content := t_content t; t_source := t_source t;
     t_processedAt := Some at_; t_notionPageId := t_notionPageId t |}.

Definition transcript_with_page (p : string) (t : Transcript) : Transcript :=
  {| t_id := t_id t; t_meetingId := t_meetingId t; t_title := t_title t;
     t_date := t_date t; t_participants := t_participants t;
     t_content := t_content t; t_source := t_source t;
     t_processedAt := t_processedAt t; t_notionPageId := Some p |}.

Definition save (transcript : Transcript) : Task.M request Store unit :=
  let+ s := Task.get in
  if JsMap.has s (t_id transcript) then Task.ret tt
  else
    let+ t := Task.now in
    let transcript := transcript_with_processedAt t transcript in
    let+ _ := Task.modify (fun s => JsMap.set s (t_id transcript) transcript) in
    Task.try_catch
      (let+ notionPageId := Task.await (NotionSaveTranscript transcript) in
       Task.modify (fun s =>
         JsMap.update s (t_id transcript) (transcript_with_page notionPageId)))
      (fun _ => Task.ret tt).

Definition has (s : Store) (id : string) : bool := JsMap.has s id.

Definition get (s : Store) (id : string) : option Transcript := JsMap.get s id.

(** The comparator of both sorts,
    [(a, b) => new Date(b.date).getTime() - new Date(a.date).getTime()], is
    not positive: [a] stays before [b]. The date of a transcript is a text
    from outside ([loadTranscripts] gives [''] for a page without a date);
    with a text that is no date the difference is [NaN], which [sort] takes
    as [+0], a tie. *)
Definition stays_before (a b : Transcript) : bool :=
  match t_date a, t_date b with
  | Some ta, Some tb => (tb <=? ta)%N
  | _, _ => true
  end.

(** A stable sort by that comparator. When a date is no date the comparator
    is not consistent, and the standard leaves the order to the engine; the
    order computed here is then one of those it allows. *)
Fixpoint insert_latest_first (x : Transcript) (l : list Transcript)
    : list Transcript :=
  match l with
  | [] => [x]
  | y :: l' =>
      if stays_before x y then x :: l
      else y :: insert_latest_first x l'
  end.

Definition latest_first (l : list Transcript) : list Transcript :=
  foldr insert_latest_first [] l.

(** [new Date(t.date) >= cutoff]: false for a text that is no date. *)
Definition dated_since (cutoff : N) (t : Transcript) : bool :=
  match t_date t with
  | Some n => (cutoff <=? n)%N
  | None => false
  end.

(** [getRecent]; [cutoff] is the moment [days] days before now, as
    [cutoff.setDate(cutoff.getDate() - days)] works it out on the calendar. *)
Definition getRecent (cutoff : N) (s : Store) : list Transcript :=
  latest_first (List.filter (dated_since cutoff) (JsMap.values s)).

Definition getAll (s : Store) : list Transcript :=
  latest_first (JsMap.values s).

Definition loadFromNotion : Task.M request Store unit :=
  Task.try_catch
    (let+ transcripts := Task.await NotionLoadTranscripts in
     Task.modify (fun s =>
       foldl (fun acc t => JsMap.set acc (t_id t) t) s transcripts))
    (fun _ => Task.ret tt).

End TranscriptStore.

(** ** [TldvService]: the listing of meetings

    (The text of [src/services/tldv.ts] follows [ContentMiner] in
    [src/services/content-miner.ts].) *)

Module TldvService.

Record TldvMeeting := {
  mt_id : string;
  mt_name : string;
  mt_happenedAt : string;
  mt_duration : N;
  mt_invitees : list (string * option string)
}.

(** One page of the listing. The answer is the array that the code takes out
    of the body, [data.results || data.meetings || (Array.isArray(data) ? data
    : [])]; a failed request, a status that is not ok and a body that does not
    parse are all [Err]. *)
Inductive request : Type -> Type :=
| FetchMeetings (since : option string) (limit offset : nat)
    : request (list TldvMeeting).

Definition limit : nat := 100.
Definition maxMeetings : nat := 500.

(** [while (allMeetings.length < maxMeetings) { ... }]; [fuel] bounds the
    number of turns, and [None] answers that the bound was hit. *)
Fixpoint listMeetings_from {S} (fuel : nat) (since : option string)
    (allMeetings : list TldvMeeting) (offset : nat)
    : Task.M request S (option (list TldvMeeting)) :=
  if (length allMeetings <? maxMeetings)%nat then
    match fuel with
    | O => Task.ret None
    | S fuel' =>
        let+ meetings := Task.await (FetchMeetings since limit offset) in
        match meetings with
        | [] => Task.ret (Some allMeetings)
        | _ =>
            let allMeetings := allMeetings ++ meetings in
            if (length meetings <? limit)%nat
            then Task.ret (Some allMeetings)
            else listMeetings_from fuel' since allMeetings (offset + limit)
        end
    end
  else Task.ret (Some allMeetings).

Definition listMeetings {S} (fuel : nat) (since : option string)
    : Task.M request S (option (list TldvMeeting)) :=
  listMeetings_from fuel since [] 0.

End TldvService.

(** ** The start ([src/index.ts]) *)

Module Main.

(** [transcriptStore.getAll().map(t => t.id)], handed to
    [miner.loadFromNotion]. *)
Definition allTranscriptIds (s : TranscriptStore.Store) : list string :=
  map t_id (TranscriptStore.getAll s).

End Main.

(** * Vocabulary of the properties *)

Import ContentMiner SlackBot.

(** The events a run adds to [tr]. *)
Definition emitted {St A} (o : oracle) (tr : list event) (p : prog St A)
    : list event :=
  drop (length tr) (fst (run o tr p)).

(** ** A program logic for runs

    [triple o P m Q E]: started where [P] holds, [m] ends where [Q] holds of
    its answer, or throws where [E] holds of the error. *)

Definition triple {St A} (o : oracle) (P : list event -> St -> Prop) (m : M St A)
    (Q : A -> list event -> St -> Prop) (E : string -> list event -> St -> Prop)
    : Prop :=
  forall tr s, P tr s ->
    match run o tr (m s) with
    | (tr', Done a s') => Q a tr' s'
    | (tr', Failed e s') => E e tr' s'
    end.

(** An invariant of the run: it holds whenever the program ends or throws. *)
Definition keeps {St A} (o : oracle) (I : list event -> St -> Prop) (m : M St A) : Prop :=
  triple o I m (fun _ => I) (fun _ => I).

(** [I] does not mind what is added to the record of events. *)
Definition stable {St} (I : list event -> St -> Prop) : Prop :=
  forall tr s e, I tr s -> I (tr ++ [e]) s.

(** ** Assumptions on the outside world *)

(** The chat transport accepts every message. *)
Definition slack_up (o : oracle) : Prop :=
  forall tr p, exists ts, answer o _ tr (SlackPostMessage p) = Ok ts.

(** The drafting service answers every request for a draft. *)
Definition drafts_up (o : oracle) : Prop :=
  forall tr idea msgs f, exists body, answer o _ tr (LlmDraft idea msgs f) = Ok body.

(** The drafting service answers every request for a rework. *)
Definition reworks_up (o : oracle) : Prop :=
  forall tr body feedback f,
    exists body', answer o _ tr (LlmRework body feedback f) = Ok body'.

(** ** What a record of events holds *)

(** The batch of a request for idea extraction. *)
Definition mine_call (e : event) : option (list Transcript) :=
  match e with
  | ECall c => match c with LlmMine batch => Some batch | _ => None end
  | EAsk _ => None
  end.

Definition mine_calls (tr : list event) : list (list Transcript) :=
  omap mine_call tr.

(** The idea of a request to persist an idea. *)
Definition save_call (e : event) : option ContentIdea :=
  match e with
  | ECall c => match c with NotionSaveIdea idea => Some idea | _ => None end
  | EAsk _ => None
  end.

(** The draft of a request to persist a draft. *)
Definition draft_call (e : event) : option ContentDraft :=
  match e with
  | ECall c => match c with NotionSaveDraft d => Some d | _ => None end
  | EAsk _ => None
  end.

(** The idea a content ping is about. *)
Definition ping_call (e : event) : option string :=
  match e with
  | ECall c => match c with SlackPostMessage p => p_ideaId p | _ => None end
  | EAsk _ => None
  end.

(** The number of active sessions for the idea [id]. *)
Definition is_active_for (id : string) (s : InterviewSession) : bool :=
  bool_decide (s_ideaId s = id) && bool_decide (s_status s = active).

Definition count_in (p : InterviewSession -> bool) (m : JsMap.t InterviewSession)
    : nat :=
  length (List.filter p (JsMap.values m)).

Definition active_sessions_for (id : string) (b : Bot) : nat :=
  count_in (is_active_for id) (activeSessions b).

(** ** A world for examples

    Every request succeeds; the clock starts at 1000 and advances with every
    event. *)
Definition sample_world (found : list RawIdea) (loaded : list ContentIdea)
    (enough : string) : oracle :=
  {| answer := fun X tr c =>
       match c in call X return result X with
       | LlmMine _ => Ok found
       | LlmOpener _ => Ok (Some "What happened next?")
       | LlmFollowUp _ _ => Ok (Some "Tell me more.")
       | LlmEnough _ => Ok (Some enough)
       | LlmDraft _ _ _ => Ok (Some "A first draft.")
       | LlmRework _ _ _ => Ok (Some "A second draft.")
       | LlmSyndicate _ => Ok (Some "1/ A thread.")
       | NotionLoadIdeas => Ok loaded
       | NotionLoadTranscriptContent _ => Ok ""
       | NotionSaveIdea _ => Ok ("page-" +:+ pretty (length tr))
       | NotionSaveDraft _ => Ok ("page-" +:+ pretty (length tr))
       | NotionUpdateStatus _ _ => Ok tt
       | SlackPostMessage _ => Ok (Some ("ts-" +:+ pretty (length tr)))
       end;
     tell := fun X tr q =>
       match q in query X return X with
       | Now => (1000 + N.of_nat (length tr))%N
       | StoreGetRecent _ => []
       end |}.

Definition sample_transcript (id : string) : Transcript :=
  {| t_id := id; t_meetingId := id; t_title := "Weekly call"; t_date := Some 0%N;
     t_participants := []; t_content := ""; t_source := tldv;
     t_processedAt := None; t_notionPageId := None |}.

Definition sample_idea (id hook : string) (sources : list string) : ContentIdea :=
  {| i_id := id; i_sourceTranscriptIds := sources; i_theme := "pricing";
     i_hook := hook; i_rawQuotes := []; i_suggestedFormat := newsletter;
     i_status := extracted; i_createdAt := 0; i_notionPageId := None |}.

Definition sample_raw (hook : string) : RawIdea :=
  {| r_theme := "pricing"; r_hook := hook; r_rawQuotes := [];
     r_suggestedFormat := newsletter |}.

Definition sample_registry : Miner :=
  put_idea (sample_idea "idea-1" "Charge more" ["t-1"]) ContentMiner.init.

(** ** Lineages of drafts *)

(** The cache after the rework handler, started at the record [tr]: the
    new draft has been added, with an identifier made from a reading of the
    clock after [tr], or, when the chat or the drafting service failed,
    nothing has changed. *)
Definition rework_added (o : oracle) (tr : list event) (D : JsMap.t ContentDraft)
    (d : ContentDraft) (s : Bot) : Prop :=
  exists nd t_id body t_created,
    (exists ev, ev <> [] /\ t_id = tell o N (tr ++ ev) Now) /\
    (nd = reworked d t_id body t_created \/
     exists page, nd = draft_with_page page (reworked d t_id body t_created)) /\
    pendingDrafts s = JsMap.set D (d_id nd) nd.

Definition rework_dropped (o : oracle) (D : JsMap.t ContentDraft) (s : Bot) : Prop :=
  pendingDrafts s = D /\ ~ (slack_up o /\ reworks_up o).

(** [nd] continues the lineage of [d]: next version, an identifier of its
    own, same format, same idea. *)
Definition next_version (d nd : ContentDraft) : Prop :=
  (d_version nd = (d_version d + 1)%N) /\
  (d_id nd <> d_id d) /\
  (d_format nd = d_format d) /\
  (d_ideaId nd = d_ideaId d).

(** [rework_step o d nd]: a run of the rework handler, with [d] the draft
    that the pending rework names, has put [nd] into the cache, under an
    identifier that was not bound before. *)
Definition rework_step (o : oracle) (d nd : ContentDraft) : Prop :=
  exists tr b feedback channel rw,
    pendingRework b = Some rw /\
    JsMap.get (pendingDrafts b) (pr_draftId rw) = Some d /\
    JsMap.get (pendingDrafts b) (d_id nd) = None /\
    JsMap.get
      (pendingDrafts (final_state (run o tr (handleReworkFeedback feedback channel b))))
      (d_id nd) = Some nd.

(** A draft that [generateDraft] made, followed by its successive reworks,
    each made by the rework handler from the one before. *)
Inductive lineage (o : oracle) : list ContentDraft -> Prop :=
| lineage_fresh idea msgs f tr (s : Bot) tr' d s' :
    run o tr (AIBrain.generateDraft idea msgs f s) = (tr', Done d s') ->
    lineage o [d]
| lineage_rework l d nd :
    lineage o (l ++ [d]) -> rework_step o d nd -> lineage o (l ++ [d; nd]).

(** ** Interviews *)

(** The state after an interview reply that ended in a draft: the session
    bound to [key] is completed, the drafting service was asked for a draft
    of [idea] from a history of ten messages or more, and the cache holds a
    first version for [idea]. *)
Definition draft_produced (key : string) (idea : ContentIdea)
    (tr : list event) (s : Bot) : Prop :=
  (exists session, JsMap.get (activeSessions s) key = Some session /\
                   s_status session = completed) /\
  (exists msgs, ECall (LlmDraft idea msgs (i_suggestedFormat idea)) ∈ tr /\
                (10 <= length msgs)%nat) /\
  (exists d, JsMap.get (pendingDrafts s) (d_id d) = Some d /\
             d_version d = 1%N /\ d_ideaId d = i_id idea).

(** ** Interleaving

    A handler lets go of the state at each [await] and when it ends, and other
    handlers may run before it resumes. [released I p]: [I] holds at every
    point where [p] lets go of the state, as long as [I] holds whenever [p]
    takes the state back. *)
Fixpoint released {St A} (I : St -> Prop) (p : prog St A) : Prop :=
  match p with
  | Ret _ s => I s
  | Throw _ s => I s
  | Ask _ k => forall x, released I (k x)
  | Await s _ k => I s /\ forall r s', I s' -> released I (k r s')
  end.

Definition releasedM {St A} (I : St -> Prop) (m : M St A) : Prop :=
  forall s, I s -> released I (m s).

(** No rework is waiting for its feedback. *)
Definition no_rework (s : Bot) : Prop := pendingRework s = None.

(** The message is taken as a reply to an interview or as a command. *)
Definition reply_or_command (r : Route) : Prop :=
  match r with
  | ThreadReply _ _ | LatestReply _ _ | Command => True
  | ReworkCancel | ReworkFeedback | CommandAfterRework => False
  end.

Definition sample_session : InterviewSession :=
  let said (r : Role) (text : string) :=
    {| m_role := r; m_content := text; m_timestamp := 0 |} in
  {| s_id := "session-1"; s_ideaId := "idea-1"; s_slackThreadTs := "ts-1";
     s_messages := [said agent "q1"; said user "a1"; said agent "q2";
                    said user "a2"; said agent "q3"; said user "a3";
                    said agent "q4"; said user "a4"; said agent "q5"];
     s_status := active; s_startedAt := 0; s_completedAt := None |}.

Definition sample_draft : ContentDraft :=
  {| d_id := AIBrain.draft_id 5; d_ideaId := "idea-1"; d_format := newsletter;
     d_title := "Charge more"; d_body := "A first draft."; d_version := 1;
     d_status := draft; d_createdAt := 5; d_notionPageId := None |}.

(** A bot in the middle of things: one interview under way, one draft
    delivered, and its rework asked for. *)
Definition sample_bot : Bot :=
  {| miner := sample_registry;
     activeSessions := [("ts-1", sample_session)];
     pendingDrafts := [(AIBrain.draft_id 5, sample_draft)];
     lastShownIdeas := [];
     pendingRework :=
       Some {| pr_draftId := AIBrain.draft_id 5; pr_ideaId := "idea-1" |};
     slackUserId := "U1" |}.

Definition sample_message_at (ts text : string) : Incoming :=
  {| msg_thread_ts := None; msg_ts := ts; msg_channel := "D1";
     msg_text := text |}.

Definition sample_message (text : string) : Incoming :=
  sample_message_at "100.1" text.

(** The same bot with no interview under way. *)
Definition sample_bot_idle : Bot := set_activeSessions JsMap.empty sample_bot.

(** *** An interview that ends in a draft, and the Rework button

    The owner picks the first idea and answers twice; the drafting service
    then finds the material enough, and the first draft is delivered.
    [rework_click d] is a click on the Rework button under [d]. *)
Definition interview_to_draft : list Event :=
  [Message (sample_message_at "100.1" "1");
   Message (sample_message_at "100.2" "We doubled the price.");
   Message (sample_message_at "100.3" "Nobody left.")].

Definition first_draft : ContentDraft :=
  {| d_id := AIBrain.draft_id 1014; d_ideaId := "idea-1"; d_format := newsletter;
     d_title := "Charge more"; d_body := "A first draft."; d_version := 1;
     d_status := draft; d_createdAt := 1015; d_notionPageId := Some "page-16" |}.

(** The same world with a clock that stands still. *)
Definition stopped_clock_world : oracle :=
  {| answer := answer (sample_world [] [] "yes");
     tell := fun X tr q =>
       match q in query X return X with
       | Now => 1000%N
       | StoreGetRecent _ => []
       end |}.

Definition rework_click (d : ContentDraft) : Event :=
  Interactive (Some [{| action_id := "rework_draft"; action_value := Some (d_id d) |}]).

(** ** Mining on demand *)

(** The request that [mineContentIdeas] makes for a batch: none for an empty
    batch. *)
Definition request_for (batch : list Transcript) : list (list Transcript) :=
  match batch with [] => [] | _ => [batch] end.

(** The batches that the loop of [mineFromTranscripts] submits from index
    [i] on. *)
Fixpoint batches_from (fuel i : nat) (withContent : list Transcript)
    : list (list Transcript) :=
  match fuel with
  | O => []
  | S fuel' =>
      if (i <? length withContent)%nat
      then request_for (slice i (i + batchSize) withContent)
             ++ batches_from fuel' (i + batchSize) withContent
      else []
  end.

(** What has been asked of the drafting service so far, and what is known
    to be marked mined. *)
Definition mining (C : list (list Transcript)) (X : gset string)
    (tr : list event) (m : Miner) : Prop :=
  mine_calls tr = C /\ X ⊆ minedTranscriptIds m.

Definition long_text : string :=
  "We stopped discounting the day a customer told us why they bought.".

(** Twelve transcripts with content, and a drafting service that rejects
    every request for ideas. *)
Definition twelve_transcripts : list Transcript :=
  map (fun n : nat => transcript_with_content long_text
                        (sample_transcript ("t-" +:+ pretty n)))
      (seq 1 12).

Definition failing_world : oracle :=
  {| answer := fun X tr c =>
       match c in call X return result X with
       | LlmMine _ => Err "overloaded"
       | other => answer (sample_world [] [] "no") _ tr other
       end;
     tell := tell (sample_world [] [] "no") |}.

(** ** Handlers that interleave

    Between an [await] of a handler and its answer, other events are taken
    and other answers come in. A pool holds the state that all handlers
    share, the record of events, the content pings that the chat has taken,
    and the handlers that wait for an answer. *)

(** A handler waiting at an [await]: its request, and what it does with the
    answer in the state it finds then. *)
Record Suspended := {
  sus_type : Type;
  sus_call : call sus_type;
  sus_resume : result sus_type -> Bot -> prog Bot unit
}.

(** [segment p tr tr' b' next]: from the record [tr], [p] runs on to its next
    [await] or to its end; then the record is [tr'], the state [b'], and
    [next] waits. What the clock and the transcript cache tell is not
    constrained. *)
Inductive segment
    : prog Bot unit -> list event -> list event -> Bot -> option Suspended -> Prop :=
| segment_ret u b tr : segment (Ret u b) tr tr b None
| segment_throw e b tr : segment (Throw e b) tr tr b None
| segment_ask X (q : query X) k x tr tr' b' next :
    segment (k x) (tr ++ [EAsk q]) tr' b' next ->
    segment (Ask q k) tr tr' b' next
| segment_await X (c : call X) k b tr :
    segment (Await b c k) tr (tr ++ [ECall c]) b
      (Some {| sus_type := X; sus_call := c; sus_resume := k |}).

Definition option_list {A} (o : option A) : list A :=
  match o with Some x => [x] | None => [] end.

(** The idea of a content ping that the chat took: the request is the post
    of a ping, and its answer carries a thread anchor ([result.ts] is
    truthy). A post that is rejected, or answered without an anchor, is not
    taken; a request of another kind is no ping. *)
Definition ping_taken {X} (c : call X) : result X -> option string :=
  match c in call X return result X -> option string with
  | SlackPostMessage p => fun r =>
      match r with
      | Ok ts => match truthy ts with Some _ => p_ideaId p | None => None end
      | Err _ => None
      end
  | _ => fun _ => None
  end.

Record Pool := {
  shared : Bot;
  happened : list event;
  taken : list string;  (* the ideas of the pings that the chat took, in order *)
  waiting : list Suspended
}.

(** An event is taken, or a waiting handler gets an answer; in both cases
    the handler runs to its next [await]. An answer that takes a content
    ping is noted. *)
Inductive pool_step : Pool -> Pool -> Prop :=
| pool_event w (e : Event) tr' b' next :
    segment (handle e (shared w)) (happened w) tr' b' next ->
    pool_step w
      {| shared := b'; happened := tr'; taken := taken w;
         waiting := waiting w ++ option_list next |}
| pool_answer w before t after (r : result (sus_type t)) tr' b' next :
    waiting w = before ++ t :: after ->
    segment (sus_resume t r (shared w)) (happened w) tr' b' next ->
    pool_step w
      {| shared := b'; happened := tr';
         taken := taken w ++ option_list (ping_taken (sus_call t) r);
         waiting := before ++ option_list next ++ after |}.

Inductive pool_reachable (owner : string) (registry : Miner) : Pool -> Prop :=
| reachable_start :
    pool_reachable owner registry
      {| shared := SlackBot.init owner registry; happened := []; taken := [];
         waiting := [] |}
| reachable_step w w' :
    pool_reachable owner registry w -> pool_step w w' ->
    pool_reachable owner registry w'.

(** *** Pools that are computed

    The same steps with the clock, the transcript cache and the answers read
    from a world [o]: the handler of an event runs to its first [await], and
    the handler at place [i] of those that wait gets the answer that [o]
    gives to its request. *)
Fixpoint advance (o : oracle) (p : prog Bot unit) (tr : list event)
    : list event * Bot * option Suspended :=
  match p with
  | Ret _ b => (tr, b, None)
  | Throw _ b => (tr, b, None)
  | Ask q k => advance o (k (tell o _ tr q)) (tr ++ [EAsk q])
  | Await b c k =>
      (tr ++ [ECall c], b,
       Some {| sus_type := _; sus_call := c; sus_resume := k |})
  end.

Definition deliver (o : oracle) (e : Event) (w : Pool) : Pool :=
  let '(tr', b', next) := advance o (handle e (shared w)) (happened w) in
  {| shared := b'; happened := tr'; taken := taken w;
     waiting := waiting w ++ option_list next |}.

Definition resume (o : oracle) (i : nat) (w : Pool) : Pool :=
  match waiting w !! i with
  | None => w
  | Some t =>
      let r := answer o (sus_type t) (happened w) (sus_call t) in
      let '(tr', b', next) := advance o (sus_resume t r (shared w)) (happened w) in
      {| shared := b'; happened := tr';
         taken := taken w ++ option_list (ping_taken (sus_call t) r);
         waiting := take i (waiting w) ++ option_list next ++ drop (S i) (waiting w) |}
  end.

Definition start (owner : string) (registry : Miner) : Pool :=
  {| shared := SlackBot.init owner registry; happened := []; taken := [];
     waiting := [] |}.

(** *** Mining after a restart

    The start-up load leaves a transcript in the cache without its content,
    with the page that holds it. In this world the cache holds one such
    transcript, its page holds a text, and every request succeeds. *)
Definition loaded_transcript (id page : string) : Transcript :=
  {| t_id := id; t_meetingId := id; t_title := "Weekly call"; t_date := Some 0%N;
     t_participants := []; t_content := ""; t_source := tldv;
     t_processedAt := None; t_notionPageId := Some page |}.

Definition restart_world : oracle :=
  {| answer := fun X tr c =>
       match c in call X return result X with
       | NotionLoadTranscriptContent _ => Ok long_text
       | other => answer (sample_world [] [] "no") _ tr other
       end;
     tell := fun X tr q =>
       match q in query X return X with
       | StoreGetRecent _ => [loaded_transcript "t-1" "page-1"]
       | other => tell (sample_world [] [] "no") _ tr other
       end |}.

(** ** The session table *)

(** The number of content pings for the idea [id] that the chat took. *)
Definition pings_taken (id : string) (taken : list string) : nat :=
  length (filter (fun x => x = id) taken).

(** What holds of the session table at every moment: one session per thread
    anchor, and no more active sessions for an idea than content pings for it
    that the chat took. *)
Definition sessions_bounded (D : list string) (b : Bot) : Prop :=
  NoDup (JsMap.keys (activeSessions b)) /\
  forall id, (active_sessions_for id b <= pings_taken id D)%nat.

(** [safe D p]: wherever [p] lets go of the state, and when it ends, the
    bound holds with the pings taken so far; [p] may count on the same when it
    resumes, with the ping that its own answer takes. *)
Fixpoint safe {A} (D : list string) (p : prog Bot A) : Prop :=
  match p with
  | Ret _ b => sessions_bounded D b
  | Throw _ b => sessions_bounded D b
  | Ask q k => forall x, safe D (k x)
  | Await b c k =>
      sessions_bounded D b /\
      forall r D' b',
        sessions_bounded D' b' ->
        safe (D' ++ option_list (ping_taken c r)) (k r b')
  end.

Definition safeM {A} (m : M Bot A) : Prop :=
  forall D b, sessions_bounded D b -> safe D (m b).

Definition task_safe (t : Suspended) : Prop :=
  forall r D b,
    sessions_bounded D b ->
    safe (D ++ option_list (ping_taken (sus_call t) r)) (sus_resume t r b).

Definition pool_ok (w : Pool) : Prop :=
  Forall task_safe (waiting w) /\ sessions_bounded (taken w) (shared w).
(** * Vocabulary of the further properties *)

(** Lower-case letters, digits and plain spaces, with no two spaces in a
    row; [prev] tells that a space has just been read. *)
Fixpoint tidy (prev : bool) (s : string) : bool :=
  match s with
  | EmptyString => true
  | String c s' =>
      if JsString.is_space c
      then Ascii.eqb c " " && negb prev && tidy true s'
      else (JsString.is_lower c || JsString.is_digit c) && tidy false s'
  end.

(** The order of [sort((a, b) => time(b) - time(a))]: no idea comes before a
    newer one. *)
Definition newest_first (l : list ContentIdea) : Prop :=
  forall i j a b, (i < j)%nat -> l !! i = Some a -> l !! j = Some b ->
    (i_createdAt b <= i_createdAt a)%N.

Fixpoint newest_first_rec (l : list ContentIdea) : Prop :=
  match l with
  | [] => True
  | x :: l' =>
      Forall (fun y => (i_createdAt y <= i_createdAt x)%N) l' /\ newest_first_rec l'
  end.

(** The ideas of [l] that were created at [t], in their order. *)
Definition created_at (t : N) (l : list ContentIdea) : list ContentIdea :=
  filter (fun i => i_createdAt i = t) l.

(** The request that [updateIdeaStatus] makes for an idea. *)
Definition status_request (idea : ContentIdea) (status : IdeaStatus) : list event :=
  match truthy (i_notionPageId idea) with
  | Some page => [ECall (NotionUpdateStatus page (IdeaStatus_name status))]
  | None => []
  end.

(** The key under which the duplicate check knows an idea. *)
Definition hook_key (i : ContentIdea) : string := normalizeHook (i_hook i).

(** The ideas [found] are new to the hooks [K0], new to each other, known
    now, and registered. *)
Definition fresh_hooks (K0 : gset string) (found : list ContentIdea) (m : Miner)
    : Prop :=
  knownHooks m = K0 ∪ list_to_set (map hook_key found) /\
  NoDup (map hook_key found) /\
  (forall i, i ∈ found -> hook_key i ∉ K0) /\
  (forall i, i ∈ found -> is_Some (getIdea m (i_id i))).

(** A transcript as the drafting service gets it: with content worth
    reading, cut to size. *)
Definition fit_to_mine (t : Transcript) : Prop :=
  (50 < String.length (t_content t) <= 4043)%nat.

(** The batches that the drain of the live queue takes from [pending]. *)
Fixpoint drain_batches (fuel : nat) (pending : list Transcript)
    : list (list Transcript) :=
  match fuel with
  | O => []
  | S fuel' =>
      match pending with
      | [] => []
      | _ => take 5 pending :: drain_batches fuel' (drop 5 pending)
      end
  end.

(** The live queue at some point of a drain: what is pending, whether a drain
    is under way, what has been asked of the drafting service, and the sets of
    mined transcripts and of known hooks. *)
Definition draining (pending : list Transcript) (busy : bool)
    (C : list (list Transcript)) (M0 K0 : gset string)
    (tr : list event) (s : Miner) : Prop :=
  pendingTranscripts s = pending /\ processing s = busy /\ mine_calls tr = C /\
  minedTranscriptIds s = M0 /\ knownHooks s = K0.

(** A string of decimal digits. *)
Fixpoint all_digits (s : string) : bool :=
  match s with
  | EmptyString => true
  | String c s' => JsString.is_digit c && all_digits s'
  end.

(** An idea as [mineContentIdeas] makes it from a batch. *)
Definition stamped_from (batch : list Transcript) (idea : ContentIdea) : Prop :=
  i_sourceTranscriptIds idea = map t_id batch /\
  i_status idea = extracted /\
  i_notionPageId idea = None.

(** [r] is the choice of [getLatestActiveSession] among the sessions [seen]:
    an active session that started last, the first of those in the order of
    the table; or none when no session is active. *)
Definition latest_of (seen : list (string * InterviewSession))
    (r : option (string * InterviewSession)) : Prop :=
  match r with
  | Some e =>
      s_status (snd e) = active /\
      exists before after,
        seen = before ++ e :: after /\
        (forall e', e' ∈ before -> s_status (snd e') = active ->
                    (s_startedAt (snd e') < s_startedAt (snd e))%N) /\
        (forall e', e' ∈ after -> s_status (snd e') = active ->
                    (s_startedAt (snd e') <= s_startedAt (snd e))%N)
  | None => forall e', e' ∈ seen -> s_status (snd e') <> active
  end.

(** The click on a button of a draft notification. *)
Definition click (button value : string) : option (list Action) :=
  Some [{| action_id := button; action_value := Some value |}].

(** The message by which [sendContentPing] opens an interview. *)
Definition ping_post (owner opener : string) (idea : ContentIdea) : SlackPost :=
  {| p_channel := owner; p_thread_ts := None; p_text := TxtOpener opener;
     p_ideaId := Some (i_id idea); p_buttonsFor := None |}.

(** The session that [sendContentPing] enters for [idea] under the thread
    [ts], with the clock readings that it holds. *)
Definition opened_session (idea : ContentIdea) (ts opener : string)
    (t_id t_msg t_start : N) : InterviewSession :=
  {| s_id := "session-" +:+ pretty t_id;
     s_ideaId := i_id idea;
     s_slackThreadTs := ts;
     s_messages := [{| m_role := agent; m_content := opener; m_timestamp := t_msg |}];
     s_status := active;
     s_startedAt := t_start;
     s_completedAt := None |}.

(** The list from which a number picks an idea: what the owner was shown
    last, or every idea when nothing was shown yet. *)
Definition numbered_ideas (b : Bot) : list ContentIdea :=
  match lastShownIdeas b with
  | [] => getAllIdeas (miner b)
  | l => l
  end.

(** What the command matching makes of the numeral of [n]. *)
Definition numeral_is_command (n : nat) : bool :=
  let text : string := pretty n in
  String.eqb (JsString.normalize text) text
  && negb (is_one_of ["stop"; "done"] text)
  && negb (is_one_of ["status"; "what do you have"] text)
  && negb (is_one_of ["ideas"; "show ideas"] text)
  && negb (is_one_of ["mine"; "find content"] text)
  && (JsString.startsWith text "draft " || JsString.is_number_1_2 text)
  && bool_decide (JsString.parseInt (JsString.trim (JsString.remove_first "draft " text))
                  = Some (Z.of_nat n)).

(** The texts of [l] one after another. *)
Definition concat_text (l : list string) : string := foldr String.append EmptyString l.

(** [c] occurs in [s]. *)
Fixpoint has_char (c : ascii) (s : string) : bool :=
  match s with
  | EmptyString => false
  | String c' s' => Ascii.eqb c' c || has_char c s'
  end.

(** An identifier that the text of ['Source Transcripts'] can carry: not
    empty, and without a comma. *)
Definition plain_id (id : string) : Prop :=
  id <> EmptyString /\ has_char "," id = false.

(** ** What a program asks of the outside world *)

(** Every request that [p] makes is one that [ok] allows. *)
Fixpoint asks_only {St A} (ok : forall X, call X -> Prop) (p : prog St A) : Prop :=
  match p with
  | Ret _ _ => True
  | Throw _ _ => True
  | Ask _ k => forall x, asks_only ok (k x)
  | Await _ c k => ok _ c /\ forall r s', asks_only ok (k r s')
  end.

Definition asks_onlyM {St A} (ok : forall X, call X -> Prop) (m : M St A) : Prop :=
  forall s, asks_only ok (m s).

(** The requests that are not posts to the chat. *)
Definition no_post (X : Type) (c : call X) : Prop :=
  match c with
  | SlackPostMessage _ => False
  | _ => True
  end.

(** The number of content pings in a record of events. *)
Definition ping_count (tr : list event) : nat := length (omap ping_call tr).

(** ** The transcript store and the listing of meetings *)

(** [a] is dated, and [b] is dated no later. *)
Definition not_later (b a : Transcript) : Prop :=
  exists tb ta, t_date b = Some tb /\ t_date a = Some ta /\ (tb <= ta)%N.

(** The order of [sort((a, b) => time(b.date) - time(a.date))] on dated
    transcripts: the latest first. *)
Definition latest_first_order (l : list Transcript) : Prop :=
  forall i j a b, (i < j)%nat -> l !! i = Some a -> l !! j = Some b ->
    not_later b a.

Fixpoint latest_first_rec (l : list Transcript) : Prop :=
  match l with
  | [] => True
  | x :: l' => Forall (fun y => not_later y x) l' /\ latest_first_rec l'
  end.

Definition dated (t : Transcript) : Prop := is_Some (t_date t).

(** What [TranscriptStore.save] has bound to the identifier of a new
    transcript when it ends: the stamped transcript, with its page when the
    record store gave one. *)
Definition stored_on (stamped : Transcript) (answered : result string) : Transcript :=
  match answered with
  | Ok page => TranscriptStore.transcript_with_page page stamped
  | Err _ => stamped
  end.

(** [x] is the last of [l] under the key [k]. *)
Definition last_under {V} (key : V -> string) (l : list V) (k : string) (x : V)
    : Prop :=
  exists before after,
    l = before ++ x :: after /\ key x = k /\ Forall (fun y => key y <> k) after.

(** The requests for the pages [0 .. n-1] of the listing, from [offset] on. *)
Definition page_requests (since : option string) (offset n : nat)
    : list (Task.event TldvService.request) :=
  map (fun k => Task.Asked (TldvService.FetchMeetings since TldvService.limit
                              (offset + k * TldvService.limit)))
      (seq 0 n).

(** The pages that the world [w] answers to the requests [new], made after
    [before]. *)
Fixpoint pages_answered (w : Task.world TldvService.request)
    (before new : list (Task.event TldvService.request))
    : list (list TldvService.TldvMeeting) :=
  match new with
  | [] => []
  | e :: rest =>
      match e with
      | Task.Asked r =>
          match r in TldvService.request X
                return result X -> list (list TldvService.TldvMeeting) with
          | TldvService.FetchMeetings _ _ _ =>
              fun x => match x with Ok page => [page] | Err _ => [] end
          end (Task.answer w _ before r)
      | Task.Read => []
      end ++ pages_answered w (before ++ [e]) rest
  end.

(** A message of an interview. *)
Definition said_by (who : Role) (text : string) (at_ : N) : InterviewMessage :=
  {| m_role := who; m_content := text; m_timestamp := at_ |}.
(** * Properties *)

(** ** Reasoning about runs *)

Section RunFacts.
Context {St : Type} (o : oracle).

Lemma run_bindP {A B} (p : prog St A) (f : A -> M St B) tr :
  run o tr (bindP p f) =
  match run o tr p with
  | (tr', Done a s) => run o tr' (f a s)
  | (tr', Failed e s) => (tr', Failed e s)
  end.
Proof.
  revert tr. induction p as [a s|e s|X q k IH|X s c k IH]; intros tr; simpl; auto.
Qed.

Lemma run_catchP {A} (p : prog St A) (h : string -> M St A) tr :
  run o tr (catchP p h) =
  match run o tr p with
  | (tr', Done a s) => (tr', Done a s)
  | (tr', Failed e s) => run o tr' (h e s)
  end.
Proof.
  revert tr. induction p as [a s|e s|X q k IH|X s c k IH]; intros tr; simpl; auto.
Qed.

(** A run only adds to what has happened. *)
Lemma run_extends {A} (p : prog St A) tr :
  exists new, fst (run o tr p) = tr ++ new.
Proof.
  revert tr. induction p as [a s|e s|X q k IH|X s c k IH]; intros tr; simpl.
  - exists []. by rewrite app_nil_r.
  - exists []. by rewrite app_nil_r.
  - destruct (IH (tell o X tr q) (tr ++ [EAsk q])) as [new Hn].
    exists (EAsk q :: new). rewrite Hn. by rewrite <- app_assoc.
  - destruct (IH (answer o X tr c) s (tr ++ [ECall c])) as [new Hn].
    exists (ECall c :: new). rewrite Hn. by rewrite <- app_assoc.
Qed.

End RunFacts.


Lemma run_emitted {St A} (o : oracle) (p : prog St A) tr :
  fst (run o tr p) = tr ++ emitted o tr p.
Proof.
  unfold emitted. destruct (run_extends o p tr) as [new ->].
  by rewrite drop_app_length.
Qed.


Section Triples.
Context {St : Type} (o : oracle).
Implicit Types P : list event -> St -> Prop.

Lemma triple_ret {A} P (a : A) (Q : A -> _) E :
  (forall tr s, P tr s -> Q a tr s) -> triple o P (ret a) Q E.
Proof. intros H tr s HP. simpl. auto. Qed.

Lemma triple_throw {A} P e (Q : A -> _) E :
  (forall tr s, P tr s -> E e tr s) -> triple o P (throw e) Q E.
Proof. intros H tr s HP. simpl. auto. Qed.

Lemma triple_bind {A B} P (m : M St A) (f : A -> M St B) R Q E :
  triple o P m R E ->
  (forall a, triple o (R a) (f a) Q E) ->
  triple o P (bind m f) Q E.
Proof.
  intros Hm Hf tr s HP. unfold bind. rewrite run_bindP.
  specialize (Hm tr s HP). destruct (run o tr (m s)) as [tr' [a s'|e s']]; auto.
  by apply Hf.
Qed.

Lemma triple_catch {A} P (m : M St A) (h : string -> M St A) R Q E :
  triple o P m Q R ->
  (forall e, triple o (R e) (h e) Q E) ->
  triple o P (try_catch m h) Q E.
Proof.
  intros Hm Hh tr s HP. unfold try_catch. rewrite run_catchP.
  specialize (Hm tr s HP). destruct (run o tr (m s)) as [tr' [a s'|e s']]; auto.
  by apply Hh.
Qed.

Lemma triple_get P (Q : St -> _) E :
  (forall tr s, P tr s -> Q s tr s) -> triple o P get Q E.
Proof. intros H tr s HP. simpl. auto. Qed.

(** Reading a state that is known. *)
Lemma triple_get_known {A} P (s0 : St) (f : St -> M St A) Q E :
  (forall tr s, P tr s -> s = s0) ->
  triple o P (f s0) Q E ->
  triple o P (bind get f) Q E.
Proof.
  intros Hknown Hf tr s HP. unfold bind. simpl.
  pose proof (Hknown tr s HP) as ->. by apply Hf.
Qed.

(** A fact of the precondition that does not depend on the state. *)
Lemma triple_assume {A} P (fact : Prop) (m : M St A) Q E :
  (fact -> triple o P m Q E) ->
  triple o (fun tr s => P tr s /\ fact) m Q E.
Proof. intros H tr s [HP Hfact]. by apply H. Qed.

Lemma triple_gets {A} P (f : St -> A) (Q : A -> _) E :
  (forall tr s, P tr s -> Q (f s) tr s) -> triple o P (gets f) Q E.
Proof. intros H tr s HP. simpl. auto. Qed.

Lemma triple_modify P (f : St -> St) (Q : unit -> _) E :
  (forall tr s, P tr s -> Q tt tr (f s)) -> triple o P (modify f) Q E.
Proof. intros H tr s HP. simpl. auto. Qed.

Lemma triple_await {X} P (c : call X) (Q : X -> _) E :
  (forall tr s, P tr s ->
     match answer o X tr c with
     | Ok x => Q x (tr ++ [ECall c]) s
     | Err e => E e (tr ++ [ECall c]) s
     end) ->
  triple o P (await c) Q E.
Proof.
  intros H tr s HP. simpl. specialize (H tr s HP).
  destruct (answer o X tr c); auto.
Qed.

Lemma triple_ask {X} P (q : query X) (Q : X -> _) E :
  (forall tr s, P tr s -> Q (tell o X tr q) (tr ++ [EAsk q]) s) ->
  triple o P (ask q) Q E.
Proof. intros H tr s HP. simpl. auto. Qed.

Lemma triple_weaken {A} P P' (m : M St A) (Q Q' : A -> _) (E E' : string -> _) :
  triple o P' m Q' E' ->
  (forall tr s, P tr s -> P' tr s) ->
  (forall a tr s, Q' a tr s -> Q a tr s) ->
  (forall e tr s, E' e tr s -> E e tr s) ->
  triple o P m Q E.
Proof.
  intros Hm HP HQ HE tr s Hs. specialize (Hm tr s (HP _ _ Hs)).
  destruct (run o tr (m s)) as [tr' [a s'|e s']]; auto.
Qed.

(** A loop keeps what each of its turns keeps. *)
Lemma triple_for_each {X} (I : list event -> St -> Prop) (xs : list X)
    (body : X -> M St unit) E :
  (forall x, x ∈ xs -> triple o I (body x) (fun _ => I) E) ->
  triple o I (for_each xs body) (fun _ => I) E.
Proof.
  induction xs as [|x xs IH]; intros Hb; simpl.
  - by apply triple_ret.
  - eapply triple_bind.
    + apply Hb. by left.
    + intros u. apply IH. intros y Hy. apply Hb. by right.
Qed.

End Triples.


Section Keeps.
Context {St : Type} (o : oracle) (I : list event -> St -> Prop).


Lemma keeps_ret {A} (a : A) : keeps o I (ret a).
Proof. by apply triple_ret. Qed.

Lemma keeps_throw {A} e : keeps o I (@throw St A e).
Proof. by apply triple_throw. Qed.

Lemma keeps_bind {A B} (m : M St A) (f : A -> M St B) :
  keeps o I m -> (forall a, keeps o I (f a)) -> keeps o I (bind m f).
Proof. intros Hm Hf. eapply triple_bind; [exact Hm|exact Hf]. Qed.

Lemma keeps_catch {A} (m : M St A) (h : string -> M St A) :
  keeps o I m -> (forall e, keeps o I (h e)) -> keeps o I (try_catch m h).
Proof. intros Hm Hh. eapply triple_catch; [exact Hm|exact Hh]. Qed.

Lemma keeps_get : keeps o I get.
Proof. by apply triple_get. Qed.

Lemma keeps_modify (f : St -> St) :
  (forall tr s, I tr s -> I tr (f s)) -> keeps o I (modify f).
Proof. intros H. by apply triple_modify. Qed.

Lemma keeps_await {X} (c : call X) : stable I -> keeps o I (await c).
Proof.
  intros Hs. apply triple_await. intros tr s HI.
  destruct (answer o X tr c); by apply Hs.
Qed.

Lemma keeps_ask {X} (q : query X) : stable I -> keeps o I (ask q).
Proof. intros Hs. apply triple_ask. intros tr s HI. by apply Hs. Qed.

Lemma keeps_for_each {X} (xs : list X) (body : X -> M St unit) :
  (forall x, keeps o I (body x)) -> keeps o I (for_each xs body).
Proof. intros H. apply triple_for_each. intros x _. apply H. Qed.

(** What [I] says of the state a run ends in. *)
Lemma keeps_final {A} (m : M St A) tr s :
  keeps o I m -> I tr s ->
  I (fst (run o tr (m s))) (final_state (run o tr (m s))).
Proof.
  intros Hk HI. specialize (Hk tr s HI). unfold final_state.
  destruct (run o tr (m s)) as [tr' [a s'|e s']]; exact Hk.
Qed.

End Keeps.

(** One step of a proof that a program keeps an invariant. *)
Ltac keeps_step :=
  lazymatch goal with
  | |- keeps _ _ (Async.bind _ _) => apply keeps_bind; [|intros ?]
  | |- keeps _ _ (try_catch _ _) => apply keeps_catch; [|intros ?]
  | |- keeps _ _ (ret _) => apply keeps_ret
  | |- keeps _ _ (throw _) => apply keeps_throw
  | |- keeps _ _ get => apply keeps_get
  | |- keeps _ _ (for_each _ _) => apply keeps_for_each; intros ?
  | |- keeps _ _ (match ?x with _ => _ end) => destruct x
  end.


(** ** The registry *)

Lemma mark_all_mined_spec (tids : list string) (m : Miner) (tid : string) :
  tid ∈ minedTranscriptIds (mark_all_mined tids m) <->
  tid ∈ tids \/ tid ∈ minedTranscriptIds m.
Proof.
  unfold mark_all_mined. revert m.
  induction tids as [|x tids IH]; intros m; simpl.
  - rewrite elem_of_nil. tauto.
  - rewrite IH. unfold mark_mined; simpl. rewrite elem_of_cons. set_solver.
Qed.

Lemma mark_all_mined_hooks (tids : list string) (m : Miner) :
  knownHooks (mark_all_mined tids m) = knownHooks m.
Proof.
  unfold mark_all_mined. revert m. induction tids as [|x tids IH]; intros m; simpl; [done|].
  by rewrite IH.
Qed.

Lemma load_idea_flag (loaded : list ContentIdea) (m : Miner) (flag : bool) :
  flag = true \/ (exists idea, idea ∈ loaded /\ i_sourceTranscriptIds idea = []) ->
  snd (foldl load_idea (m, flag) loaded) = true.
Proof.
  revert m flag. induction loaded as [|x loaded IH]; intros m flag [Hf|(idea & Hin & Hsrc)].
  - done.
  - by apply elem_of_nil in Hin.
  - simpl. subst flag. destruct (i_sourceTranscriptIds x); apply IH; by left.
  - simpl. apply elem_of_cons in Hin as [->|Hin].
    + rewrite Hsrc. apply IH. by left.
    + destruct (i_sourceTranscriptIds x); apply IH; right; eauto.
Qed.

Lemma load_idea_hooks (loaded : list ContentIdea) (m : Miner) (flag : bool) (h : string) :
  h ∈ knownHooks m \/ (exists idea, idea ∈ loaded /\ normalizeHook (i_hook idea) = h) ->
  h ∈ knownHooks (fst (foldl load_idea (m, flag) loaded)).
Proof.
  revert m flag. induction loaded as [|x loaded IH]; intros m flag [Hk|(idea & Hin & Hh)].
  - done.
  - by apply elem_of_nil in Hin.
  - simpl. destruct (i_sourceTranscriptIds x); apply IH; left;
      rewrite ?mark_all_mined_hooks; simpl; set_solver.
  - simpl. apply elem_of_cons in Hin as [->|Hin].
    + destruct (i_sourceTranscriptIds x); apply IH; left;
        rewrite ?mark_all_mined_hooks; simpl; set_solver.
    + destruct (i_sourceTranscriptIds x); apply IH; right; eauto.
Qed.

Lemma load_ideas_hooks loaded all (m : Miner) (idea : ContentIdea) :
  idea ∈ loaded -> normalizeHook (i_hook idea) ∈ knownHooks (load_ideas loaded all m).
Proof.
  intros Hin. unfold load_ideas.
  pose proof (load_idea_hooks loaded m false (normalizeHook (i_hook idea))) as H.
  destruct (foldl load_idea (m, false) loaded) as [m' flag]. simpl in H.
  assert (normalizeHook (i_hook idea) ∈ knownHooks m') as Hm' by (apply H; right; eauto).
  destruct flag, all; rewrite ?mark_all_mined_hooks; done.
Qed.

Lemma isDuplicate_true (m : Miner) (hook : string) :
  isDuplicate m hook = true <-> normalizeHook hook ∈ knownHooks m.
Proof. unfold isDuplicate. apply bool_decide_eq_true. Qed.

(** Saving an idea to the record store writes to [ideas] only. *)
Lemma save_idea_keeps (o : oracle) (I : list event -> Miner -> Prop) idea :
  (forall tr s, I tr s -> I (tr ++ [ECall (NotionSaveIdea idea)]) s) ->
  (forall tr s x, I tr s -> I tr (set_ideas x s)) ->
  triple o I (save_idea idea) (fun _ => I) (fun _ _ _ => False).
Proof.
  intros Hs Hi. unfold save_idea.
  eapply triple_catch with (R := fun _ => I).
  - eapply triple_bind with (R := fun _ => I).
    + apply triple_await. intros tr s HI.
      destruct (answer o _ tr (NotionSaveIdea idea)); by apply Hs.
    + intros page. eapply triple_bind with (R := fun _ => I).
      * apply triple_modify. intros tr s HI. by apply Hi.
      * intros u. by apply triple_ret.
  - intros e. by apply triple_ret.
Qed.

(** After the loop over a batch, the hook of every idea of the batch is
    known, whether the idea was recorded or skipped as a duplicate; the loop
    does not throw. *)
Lemma record_ideas_hooks (o : oracle) (K : gset string) found allIdeas :
  triple o (fun _ s => K ⊆ knownHooks s)
    (record_ideas found allIdeas)
    (fun _ _ s => K ⊆ knownHooks s /\
       forall idea, idea ∈ found -> normalizeHook (i_hook idea) ∈ knownHooks s)
    (fun _ _ _ => False).
Proof.
  revert K allIdeas. induction found as [|idea rest IH]; intros K allIdeas; simpl.
  - apply triple_ret. intros tr s HK. split; [done|]. intros idea Hin.
    by apply elem_of_nil in Hin.
  - set (h := normalizeHook (i_hook idea)).
    eapply triple_bind with (R := fun m tr s => m = s /\ K ⊆ knownHooks s).
    { apply triple_get. auto. }
    intros m. destruct (isDuplicate m (i_hook idea)) eqn:Hdup.
    + eapply triple_weaken; [apply (IH ({[h]} ∪ K))| | |]; simpl.
      * intros tr s [-> HK]. apply isDuplicate_true in Hdup. fold h in Hdup. set_solver.
      * intros a tr s [HK Hrest]. split; [set_solver|].
        intros x Hx. apply elem_of_cons in Hx as [->|Hx]; [fold h; set_solver|auto].
      * done.
    + eapply triple_bind with (R := fun _ _ s => ({[h]} ∪ K) ⊆ knownHooks s).
      { apply triple_modify. intros tr s [-> HK]. simpl. fold h. set_solver. }
      intros u. eapply triple_bind with (R := fun _ _ s => ({[h]} ∪ K) ⊆ knownHooks s).
      { apply save_idea_keeps; [by intros tr s|by intros tr s x]. }
      intros idea'. eapply triple_weaken; [apply (IH ({[h]} ∪ K))| | |]; simpl.
      * done.
      * intros a tr s [HK Hrest]. split; [set_solver|].
        intros x Hx. apply elem_of_cons in Hx as [->|Hx]; [fold h; set_solver|auto].
      * done.
Qed.

(** C9. For hooks [H1] and [H2] with the same normal form, once an idea with
    hook [H1] has been recorded (its normalized hook added to the known-hook
    set), [isDuplicate H2] answers [true]. This holds of the recording step
    itself, of the loop of [mineFromTranscripts] over a batch that holds the
    idea, and of the start-up load. *)
Theorem recorded_hook_is_duplicate (H1 H2 : string) :
  normalizeHook H1 = normalizeHook H2 ->
  (forall m, isDuplicate (add_hook H1 m) H2 = true) /\
  (forall o tr m found allIdeas idea,
     idea ∈ found -> i_hook idea = H1 ->
     isDuplicate (final_state (run o tr (record_ideas found allIdeas m))) H2 = true) /\
  (forall loaded all m idea,
     idea ∈ loaded -> i_hook idea = H1 ->
     isDuplicate (load_ideas loaded all m) H2 = true).
Proof.
  intros Hn. split; [|split].
  - intros m. apply isDuplicate_true. rewrite <- Hn. simpl. set_solver.
  - intros o tr m found allIdeas idea Hin Hh.
    apply isDuplicate_true. rewrite <- Hn, <- Hh.
    pose proof (record_ideas_hooks o ∅ found allIdeas tr m) as H.
    unfold final_state.
    destruct (run o tr (record_ideas found allIdeas m)) as [tr' [a s'|e s']]; simpl.
    + apply H; [set_solver|done].
    + exfalso. apply H. set_solver.
  - intros loaded all m idea Hin Hh. apply isDuplicate_true.
    rewrite <- Hn, <- Hh. by apply load_ideas_hooks.
Qed.

Lemma recorded_hook_is_duplicate_witness :
  normalizeHook "Hello, World!" = normalizeHook "hello   world" /\
  isDuplicate (add_hook "Hello, World!" ContentMiner.init) "hello   world" = true.
Proof.
  split; [reflexivity|].
  apply (recorded_hook_is_duplicate "Hello, World!" "hello   world"). reflexivity.
Defined.

(** C8. When the start-up load answers a snapshot in which some idea has no
    source-transcript identifiers, and the list of all transcript identifiers
    is supplied, every identifier of that list is marked mined. *)
Theorem legacy_idea_marks_all_mined (o : oracle) (tr : list event) (m : Miner)
    (loaded : list ContentIdea) (allTranscriptIds : list string) :
  answer o _ tr NotionLoadIdeas = Ok loaded ->
  (exists idea, idea ∈ loaded /\ i_sourceTranscriptIds idea = []) ->
  forall tid, tid ∈ allTranscriptIds ->
    tid ∈ minedTranscriptIds
            (final_state (run o tr (loadFromNotion (Some allTranscriptIds) m))).
Proof.
  intros Hans Hlegacy tid Hin.
  unfold loadFromNotion, final_state. simpl. rewrite Hans. simpl.
  unfold load_ideas.
  pose proof (load_idea_flag loaded m false (or_intror Hlegacy)) as Hflag.
  destruct (foldl load_idea (m, false) loaded) as [m' flag]. simpl in Hflag.
  subst flag. apply mark_all_mined_spec. by left.
Qed.

(** C10. For an identifier that the registry does not hold,
    [updateIdeaStatus] is over at once: it answers normally, leaves the
    registry as it is, and asks nothing of the record store. *)
Theorem updateIdeaStatus_unknown_is_noop (m : Miner) (id : string) (status : IdeaStatus) :
  JsMap.get (ideas m) id = None ->
  updateIdeaStatus id status m = Ret tt m /\
  forall o tr, run o tr (updateIdeaStatus id status m) = (tr, Done tt m).
Proof.
  intros Hnone.
  assert (updateIdeaStatus id status m = Ret tt m) as Heq.
  { unfold updateIdeaStatus, Async.bind, get. simpl. by rewrite Hnone. }
  split; [exact Heq|]. intros o tr. by rewrite Heq.
Qed.

Lemma legacy_idea_marks_all_mined_witness :
  let o := sample_world [] [sample_idea "page-7" "Old idea" []] "no" in
  let all := ["t-1"; "t-2"; "t-3"; "t-4"; "t-5"] in
  answer o _ [] NotionLoadIdeas = Ok [sample_idea "page-7" "Old idea" []] /\
  (exists idea, idea ∈ [sample_idea "page-7" "Old idea" []] /\
                i_sourceTranscriptIds idea = []) /\
  forall tid, tid ∈ all ->
    tid ∈ minedTranscriptIds
            (final_state (run o [] (loadFromNotion (Some all) ContentMiner.init))).
Proof.
  intros o all.
  assert (exists idea, idea ∈ [sample_idea "page-7" "Old idea" []] /\
                       i_sourceTranscriptIds idea = []) as Hlegacy.
  { exists (sample_idea "page-7" "Old idea" []). split; [by left|reflexivity]. }
  split; [reflexivity|]. split; [exact Hlegacy|].
  exact (legacy_idea_marks_all_mined o [] ContentMiner.init
           [sample_idea "page-7" "Old idea" []] all eq_refl Hlegacy).
Defined.

Lemma updateIdeaStatus_unknown_is_noop_witness :
  JsMap.get (ideas sample_registry) "idea-404" = None /\
  updateIdeaStatus "idea-404" draft_ready sample_registry = Ret tt sample_registry.
Proof.
  split; [reflexivity|].
  exact (proj1 (updateIdeaStatus_unknown_is_noop sample_registry "idea-404"
                  draft_ready eq_refl)).
Defined.

(** ** Tables *)

Lemma JsMap_get_set {V} (m : JsMap.t V) k v k' :
  JsMap.get (JsMap.set m k v) k' =
  if String.eqb k k' then Some v else JsMap.get m k'.
Proof.
  induction m as [|[k0 v0] m IH]; simpl.
  - by destruct (String.eqb k k').
  - destruct (String.eqb_spec k0 k) as [->|Hne]; simpl.
    + by destruct (String.eqb k k').
    + destruct (String.eqb_spec k0 k') as [->|Hne'].
      * destruct (String.eqb_spec k k') as [->|]; [done|reflexivity].
      * apply IH.
Qed.

Lemma JsMap_get_update {V} (m : JsMap.t V) k f k' :
  JsMap.get (JsMap.update m k f) k' =
  if String.eqb k k' then f <$> JsMap.get m k' else JsMap.get m k'.
Proof.
  induction m as [|[k0 v0] m IH]; simpl.
  - by destruct (String.eqb k k').
  - destruct (String.eqb_spec k0 k) as [->|Hne]; simpl.
    + by destruct (String.eqb k k').
    + destruct (String.eqb_spec k0 k') as [->|Hne'].
      * destruct (String.eqb_spec k k') as [->|]; [done|reflexivity].
      * apply IH.
Qed.

Lemma stable_app {St} (I : list event -> St -> Prop) tr new s :
  stable I -> I tr s -> I (tr ++ new) s.
Proof.
  intros Hs. revert tr. induction new as [|e new IH]; intros tr HI.
  - by rewrite app_nil_r.
  - replace (tr ++ e :: new) with ((tr ++ [e]) ++ new) by (by rewrite <- app_assoc).
    apply IH. by apply Hs.
Qed.

(** ** The registry inside the bot *)

Lemma run_zoomP {T St A} (o : oracle) (proj : St -> T) (inj : T -> St -> St)
    (p : prog T A) outer tr :
  (forall t s, proj (inj t s) = t) ->
  (forall t t' s, inj t (inj t' s) = inj t s) ->
  run o tr (zoomP proj inj p outer) =
  match run o tr p with
  | (tr', Done a t) => (tr', Done a (inj t outer))
  | (tr', Failed e t) => (tr', Failed e (inj t outer))
  end.
Proof.
  intros Hpi Hii. revert outer tr.
  induction p as [a t|e t|X q k IH|X t c k IH]; intros outer tr; simpl; auto.
  rewrite Hpi, IH.
  destruct (run o (tr ++ [ECall c]) (k (answer o X tr c) t)) as [tr' [a t'|e t']];
    by rewrite Hii.
Qed.

Lemma run_in_miner {A} (o : oracle) (m : M Miner A) b tr :
  run o tr (in_miner m b) =
  match run o tr (m (miner b)) with
  | (tr', Done a t) => (tr', Done a (set_miner t b))
  | (tr', Failed e t) => (tr', Failed e (set_miner t b))
  end.
Proof. unfold in_miner, zoom. by apply run_zoomP. Qed.

(** Whatever the registry does keeps what does not look at the registry. *)
Lemma keeps_in_miner {A} (o : oracle) (I : list event -> Bot -> Prop) (m : M Miner A) :
  stable I ->
  (forall tr s x, I tr s -> I tr (set_miner x s)) ->
  keeps o I (in_miner m).
Proof.
  intros Hs Hb tr s HI. rewrite run_in_miner.
  pose proof (run_emitted o (m (miner s)) tr) as Htr.
  destruct (run o tr (m (miner s))) as [tr' [a t|e t]]; simpl in Htr; subst tr';
    apply Hb; by apply stable_app.
Qed.

Lemma updateIdeaStatus_returns (o : oracle) id status :
  triple o (fun _ _ => True) (updateIdeaStatus id status)
    (fun _ _ _ => True) (fun _ _ _ => False).
Proof.
  unfold updateIdeaStatus.
  eapply triple_bind with (R := fun _ _ _ => True); [by apply triple_get|].
  intros m. destruct (JsMap.get (ideas m) id) as [idea|]; [|by apply triple_ret].
  eapply triple_bind with (R := fun _ _ _ => True); [by apply triple_modify|].
  intros u. destruct (truthy (i_notionPageId idea)) as [page|]; [|by apply triple_ret].
  eapply triple_catch with (R := fun _ _ _ => True).
  - apply triple_await. intros tr s _. by destruct (answer o _ tr _).
  - intros e. by apply triple_ret.
Qed.

(** A status update through the bot keeps what does not look at the registry,
    and does not throw. *)
Lemma status_update_spec (o : oracle) (I : list event -> Bot -> Prop) id status :
  stable I ->
  (forall tr s x, I tr s -> I tr (set_miner x s)) ->
  triple o I (in_miner (updateIdeaStatus id status)) (fun _ => I) (fun _ _ _ => False).
Proof.
  intros Hs Hb tr s HI.
  pose proof (keeps_in_miner o I (updateIdeaStatus id status) Hs Hb tr s HI) as Hk.
  rewrite run_in_miner in *.
  pose proof (updateIdeaStatus_returns o id status tr (miner s) Logic.I) as Hr.
  destruct (run o tr (updateIdeaStatus id status (miner s))) as [tr' [a t|e t]]; done.
Qed.

(** ** Posting to the chat *)

Lemma post_spec (o : oracle) (I : list event -> Bot -> Prop) p :
  stable I ->
  triple o I (await (SlackPostMessage p)) (fun _ => I)
    (fun _ tr s => I tr s /\ ~ slack_up o).
Proof.
  intros Hs. apply triple_await. intros tr s HI.
  destruct (answer o _ tr (SlackPostMessage p)) as [ts|e] eqn:Hans.
  - by apply Hs.
  - split; [by apply Hs|]. intros Hup. destruct (Hup tr p) as [ts Hts]. congruence.
Qed.

Lemma say_spec (o : oracle) (I : list event -> Bot -> Prop) channel text thread :
  stable I ->
  triple o I (say channel text thread) (fun _ => I)
    (fun _ tr s => I tr s /\ ~ slack_up o).
Proof.
  intros Hs. unfold say. eapply triple_bind; [by apply post_spec|].
  intros ts. by apply triple_ret.
Qed.

Lemma tell_owner_spec (o : oracle) (I : list event -> Bot -> Prop) text :
  stable I ->
  triple o I (tell_owner text) (fun _ => I) (fun _ tr s => I tr s /\ ~ slack_up o).
Proof.
  intros Hs. unfold tell_owner.
  eapply triple_bind with (R := fun _ => I); [by apply triple_get|].
  intros b. eapply triple_bind; [by apply post_spec|].
  intros ts. by apply triple_ret.
Qed.

Lemma save_draft_spec (o : oracle) (I : list event -> Bot -> Prop) d :
  stable I ->
  triple o I (save_draft d)
    (fun d' tr s => I tr s /\ (d' = d \/ exists page, d' = draft_with_page page d))
    (fun _ _ _ => False).
Proof.
  intros Hs. unfold save_draft.
  eapply triple_catch with (R := fun _ => I).
  - eapply triple_bind with (R := fun _ => I).
    + apply triple_await. intros tr s HI. destruct (answer o _ tr _); by apply Hs.
    + intros page. apply triple_ret. intros tr s HI. split; [done|]. right. by exists page.
  - intros e. apply triple_ret. intros tr s HI. split; [done|]. by left.
Qed.

(** Delivering a draft caches it under its identifier once every message
    has been posted, and leaves the cache alone when a post fails. *)
Lemma sendDraftNotification_spec (o : oracle) (I : list event -> Bot -> Prop) d idea
    (D : JsMap.t ContentDraft) :
  stable I ->
  (forall tr s x, I tr s -> I tr (set_pendingDrafts x s)) ->
  triple o (fun tr s => I tr s /\ pendingDrafts s = D)
    (sendDraftNotification d idea)
    (fun _ tr s => I tr s /\ pendingDrafts s = JsMap.set D (d_id d) d)
    (fun _ tr s => (I tr s /\ pendingDrafts s = D) /\ ~ slack_up o).
Proof.
  intros Hs Hd.
  set (J := fun tr s => I tr s /\ pendingDrafts s = D).
  assert (stable J) as HJ.
  { intros tr s e [HI HD]. split; [by apply Hs|done]. }
  unfold sendDraftNotification.
  eapply triple_bind with (R := fun _ => J); [by apply triple_get|].
  intros b. eapply triple_bind with (R := fun _ => J); [by apply post_spec|].
  intros threadTs. eapply triple_bind with (R := fun _ => J).
  { destruct (String.length (d_body d) <=? maxLen)%nat.
    - eapply triple_bind with (R := fun _ => J); [by apply post_spec|].
      intros ts. by apply triple_ret.
    - apply triple_for_each. intros chunk _.
      eapply triple_bind with (R := fun _ => J); [by apply post_spec|].
      intros ts. by apply triple_ret. }
  intros u. eapply triple_bind with (R := fun _ => J); [by apply post_spec|].
  intros ts. apply triple_modify. intros tr s [HI HD]. split.
  - by apply Hd.
  - simpl. by rewrite HD.
Qed.

(** ** Reworking a draft *)

Lemma reworkDraft_spec (o : oracle) (I : list event -> Bot -> Prop) body feedback f :
  stable I ->
  triple o I (AIBrain.reworkDraft body feedback f) (fun _ => I)
    (fun _ tr s => I tr s /\ ~ reworks_up o).
Proof.
  intros Hs. unfold AIBrain.reworkDraft.
  eapply triple_bind with (R := fun _ => I).
  - apply triple_await. intros tr s HI.
    destruct (answer o _ tr (LlmRework body feedback f)) as [r|e] eqn:Hans.
    + by apply Hs.
    + split; [by apply Hs|]. intros Hup.
      destruct (Hup tr body feedback f) as [r Hr]. congruence.
  - intros r. by apply triple_ret.
Qed.

(** A post moves the record on. *)
Lemma say_moves (o : oracle) (I I' : list event -> Bot -> Prop) channel text thread :
  (forall tr s e, I tr s -> I' (tr ++ [e]) s) ->
  triple o I (say channel text thread) (fun _ => I')
    (fun _ tr s => I' tr s /\ ~ slack_up o).
Proof.
  intros Hmove. unfold say. eapply triple_bind with (R := fun _ => I').
  - apply triple_await. intros tr s HI.
    destruct (answer o _ tr (SlackPostMessage (post channel thread text)))
      as [ts|e] eqn:Hans.
    + by apply Hmove.
    + split; [by apply Hmove|]. intros Hup.
      destruct (Hup tr (post channel thread text)) as [ts Hts]. congruence.
  - intros ts. by apply triple_ret.
Qed.

Lemma handleReworkFeedback_spec (o : oracle) feedback channel rw d D tr0 :
  JsMap.get D (pr_draftId rw) = Some d ->
  triple o (fun tr s => tr = tr0 /\ pendingDrafts s = D /\ pendingRework s = Some rw)
    (handleReworkFeedback feedback channel)
    (fun _ _ s => pendingRework s = None /\
                  (rework_added o tr0 D d s \/ rework_dropped o D s))
    (fun _ _ s => pendingRework s = None /\ rework_dropped o D s).
Proof.
  intros Hd. unfold handleReworkFeedback.
  set (J0 := fun (tr : list event) (s : Bot) =>
               tr = tr0 /\ pendingDrafts s = D /\ pendingRework s = None).
  set (G := fun (tr : list event) => exists ev, ev <> [] /\ tr = tr0 ++ ev).
  assert (forall tr e, G tr -> G (tr ++ [e])) as HG.
  { intros tr e (ev & Hev & ->). exists (ev ++ [e]).
    split; [by destruct ev|]. by rewrite app_assoc. }
  set (J := fun (tr : list event) (s : Bot) =>
              G tr /\ pendingDrafts s = D /\ pendingRework s = None).
  assert (stable J) as HJ.
  { intros tr s e [Htr HDs]. split; [by apply HG|done]. }
  eapply triple_bind with
    (R := fun b tr s => s = b /\ tr = tr0 /\ pendingDrafts s = D /\
                        pendingRework s = Some rw).
  { apply triple_get. auto. }
  intros b.
  apply triple_weaken with
    (P' := fun tr s => s = b /\ tr = tr0 /\ pendingDrafts b = D /\
                       pendingRework b = Some rw)
    (Q' := fun _ _ s => pendingRework s = None /\
                        (rework_added o tr0 D d s \/ rework_dropped o D s))
    (E' := fun _ _ s => pendingRework s = None /\ rework_dropped o D s);
    [|by intros tr s (-> & ? & ? & ?)|done|done].
  destruct (pendingRework b) as [rework|] eqn:Hrw.
  2:{ intros tr s (_ & _ & _ & Hno). discriminate. }
  eapply triple_bind with
    (R := fun _ tr s => J0 tr s /\ rework = rw /\ pendingDrafts b = D).
  { apply triple_modify. intros tr s (-> & Htr & HD & Heq). simpl.
    repeat split; [done|done|congruence|done]. }
  intros u.
  apply triple_weaken with
    (P' := fun tr s => J0 tr s /\ (rework = rw /\ pendingDrafts b = D))
    (Q' := fun _ _ s => pendingRework s = None /\
                        (rework_added o tr0 D d s \/ rework_dropped o D s))
    (E' := fun _ _ s => pendingRework s = None /\ rework_dropped o D s);
    [|done|done|done].
  destruct (JsMap.get (pendingDrafts b) (pr_draftId rework)) as [d'|] eqn:Hget.
  2:{ intros tr s (_ & -> & HD). rewrite HD, Hd in Hget. discriminate. }
  set (K := fun tr s => J tr s /\ d' = d).
  assert (stable K) as HK.
  { intros tr s e [HJs Hdd]. split; [by apply HJ|done]. }
  eapply triple_bind with (R := fun _ => K).
  { eapply triple_weaken;
      [apply (say_moves o (fun tr s => J0 tr s /\ d' = d) K)| | |].
    - intros tr s e [(-> & HD & Hno) Hdd]. split; [|done]. split; [|done].
      by exists [e].
    - intros tr s ((-> & HDs & Hno) & -> & HD). split; [done|].
      rewrite HD, Hd in Hget. congruence.
    - done.
    - intros e tr s [[(_ & HD & Hno) _] Hup]. split; [done|]. split; [done|tauto]. }
  intros u'.
  eapply triple_catch with
    (R := fun _ tr s => J tr s /\ ~ (slack_up o /\ reworks_up o)).
  - eapply triple_bind with (R := fun _ => K).
    { eapply triple_weaken; [apply (reworkDraft_spec o K); exact HK|done|done|].
      intros e tr s [[HJs _] Hup]. split; [done|tauto]. }
    intros body.
    set (read := fun (t : N) => exists ev, ev <> [] /\ t = tell o N (tr0 ++ ev) Now).
    eapply triple_bind with (R := fun t tr s => K tr s /\ read t).
    { apply triple_ask. intros tr s HKs. split; [by apply HK|].
      destruct HKs as [[(ev & Hev & ->) _] _]. by exists ev. }
    intros t_id. eapply triple_bind with (R := fun _ tr s => K tr s /\ read t_id).
    { apply triple_ask. intros tr s [HKs Ht]. split; [by apply HK|done]. }
    intros t_created.
    set (K2 := fun tr s => K tr s /\ read t_id).
    assert (stable K2) as HK2.
    { intros tr s e [HKs Ht]. split; [by apply HK|done]. }
    eapply triple_bind with
      (R := fun nd tr s => K2 tr s /\
              (nd = reworked d' t_id body t_created \/
               exists page, nd = draft_with_page page (reworked d' t_id body t_created))).
    { eapply triple_weaken; [apply (save_draft_spec o K2); exact HK2|done|done|done]. }
    intros nd.
    set (C := fun (tr : list event) (s : Bot) =>
                G tr /\ pendingRework s = None /\ d' = d /\ read t_id /\
                (nd = reworked d' t_id body t_created \/
                 exists page, nd = draft_with_page page (reworked d' t_id body t_created))).
    eapply triple_weaken;
      [apply (sendDraftNotification_spec o C nd _ D)| | |].
    + intros tr s e (Htr & Hrest). split; [by apply HG|done].
    + by intros tr s x.
    + intros tr s [[[[Htr [HD Hno]] Hdd] Ht] Hnd]. done.
    + intros _ tr s [(_ & Hno & -> & Ht & Hnd) HD]. split; [done|]. left.
      exists nd, t_id, body, t_created. done.
    + intros e tr s [[(Htr & Hno & _) HD] Hup]. split; [done|tauto].
  - intros e.
    eapply triple_weaken;
      [apply (say_spec o (fun tr s => J tr s /\ ~ (slack_up o /\ reworks_up o)))| | |].
    + intros tr s e' [HJs Hup]. split; [by apply HJ|done].
    + done.
    + intros _ tr s [[_ [HD Hno]] Hup]. split; [done|]. by right.
    + intros e' tr s [[[_ [HD Hno]] Hup] _]. split; [done|]. done.
Qed.

Lemma draft_id_inj (t t' : N) : AIBrain.draft_id t = AIBrain.draft_id t' -> t = t'.
Proof.
  unfold AIBrain.draft_id. intros H.
  apply (inj (String.app "draft-")) in H. by apply (inj pretty) in H.
Qed.

Lemma generateDraft_version (o : oracle) {St} idea msgs f :
  triple (St := St) o (fun _ _ => True) (AIBrain.generateDraft idea msgs f)
    (fun d _ _ => d_version d = 1%N /\ d_ideaId d = i_id idea /\ d_format d = f)
    (fun _ _ _ => True).
Proof.
  unfold AIBrain.generateDraft.
  eapply triple_bind with (R := fun _ _ _ => True).
  { apply triple_await. intros tr s _. by destruct (answer o _ tr _). }
  intros r. eapply triple_bind with (R := fun _ _ _ => True); [by apply triple_ask|].
  intros t. eapply triple_bind with (R := fun _ _ _ => True); [by apply triple_ask|].
  intros t'. by apply triple_ret.
Qed.

(** What the rework handler makes of [d]. *)
Lemma reworked_fields d nd t_id body t_created :
  (nd = reworked d t_id body t_created \/
   exists page, nd = draft_with_page page (reworked d t_id body t_created)) ->
  d_id nd = AIBrain.draft_id t_id /\ d_version nd = (d_version d + 1)%N /\
  d_format nd = d_format d /\ d_ideaId nd = d_ideaId d.
Proof. by intros [->|[page ->]]. Qed.

Lemma handleReworkFeedback_outcome (o : oracle) tr b feedback channel rw d :
  pendingRework b = Some rw ->
  JsMap.get (pendingDrafts b) (pr_draftId rw) = Some d ->
  let b' := final_state (run o tr (handleReworkFeedback feedback channel b)) in
  rework_added o tr (pendingDrafts b) d b' \/ rework_dropped o (pendingDrafts b) b'.
Proof.
  intros Hrw Hget b'.
  pose proof (handleReworkFeedback_spec o feedback channel rw d (pendingDrafts b) tr
                Hget tr b (conj eq_refl (conj eq_refl Hrw))) as H.
  subst b'. unfold final_state.
  destruct (run o tr (handleReworkFeedback feedback channel b)) as [tr' [a s'|e s']];
    simpl; tauto.
Qed.

Lemma rework_step_version (o : oracle) d nd :
  rework_step o d nd ->
  d_version nd = (d_version d + 1)%N /\ d_format nd = d_format d /\
  d_ideaId nd = d_ideaId d.
Proof.
  intros (tr & b & feedback & channel & rw & Hrw & Hget & Hnew & Hmade).
  destruct (handleReworkFeedback_outcome o tr b feedback channel rw d Hrw Hget)
    as [(nd' & t_id & body & t_created & _ & Hnd & Hset)|[Hsame _]].
  - rewrite Hset, JsMap_get_set in Hmade.
    destruct (String.eqb_spec (d_id nd') (d_id nd)) as [_|_]; [|congruence].
    assert (nd' = nd) as -> by congruence.
    by destruct (reworked_fields d nd t_id body t_created Hnd) as (_ & ? & ? & ?).
  - rewrite Hsame in Hmade. congruence.
Qed.

Lemma lineage_versions (o : oracle) (l : list ContentDraft) :
  lineage o l -> map d_version l = map N.of_nat (seq 1 (length l)).
Proof.
  induction 1 as [idea msgs f tr s tr' d s' Hrun|l d nd Hl IH Hstep].
  - pose proof (generateDraft_version o idea msgs f tr s Logic.I) as H.
    rewrite Hrun in H. simpl. by destruct H as [-> _].
  - change (l ++ [d; nd]) with (l ++ [d] ++ [nd]). rewrite app_assoc.
    destruct (rework_step_version o d nd Hstep) as [Hv _].
    assert (d_version d = N.of_nat (length l + 1)) as Hd.
    { rewrite length_app, seq_app, !map_app in IH. simpl in IH.
      apply app_inj_tail in IH as [_ Hd]. rewrite Hd. f_equal. lia. }
    rewrite (length_app (l ++ [d])), seq_app, (map_app N.of_nat), <- IH.
    rewrite (map_app d_version (l ++ [d])). f_equal.
    simpl. rewrite Hv, Hd, length_app. simpl. f_equal. lia.
Qed.


(** ** Interviews *)

Lemma generateDraft_spec (o : oracle) (I : list event -> Bot -> Prop) idea msgs f :
  stable I ->
  triple o I (AIBrain.generateDraft idea msgs f)
    (fun d tr s => I tr s /\ ECall (LlmDraft idea msgs f) ∈ tr /\
                   d_version d = 1%N /\ d_ideaId d = i_id idea)
    (fun _ tr s => I tr s /\ ~ drafts_up o).
Proof.
  intros Hs. unfold AIBrain.generateDraft.
  set (J := fun tr s => I tr s /\ ECall (LlmDraft idea msgs f) ∈ tr).
  assert (stable J) as HJ.
  { intros tr s e [HI Hin]. split; [by apply Hs|]. apply elem_of_app. by left. }
  eapply triple_bind with (R := fun _ => J).
  { apply triple_await. intros tr s HI.
    destruct (answer o _ tr (LlmDraft idea msgs f)) as [r|e] eqn:Hans.
    - split; [by apply Hs|]. apply elem_of_app. right. by left.
    - split; [by apply Hs|]. intros Hup. destruct (Hup tr idea msgs f) as [r Hr].
      congruence. }
  intros r. eapply triple_bind with (R := fun _ => J).
  { apply triple_ask. intros tr s HJs. by apply HJ. }
  intros t. eapply triple_bind with (R := fun _ => J).
  { apply triple_ask. intros tr s HJs. by apply HJ. }
  intros t'. apply triple_ret. intros tr s [HI Hin]. done.
Qed.

Lemma hasEnoughMaterial_short {St} (msgs : list InterviewMessage) (s : St) :
  (length msgs < 4)%nat -> AIBrain.hasEnoughMaterial msgs s = Ret false s.
Proof.
  intros H. unfold AIBrain.hasEnoughMaterial.
  destruct (Nat.ltb_spec (length msgs) 4) as [_|Hge]; [done|lia].
Qed.

Lemma hasEnoughMaterial_capped {St} (msgs : list InterviewMessage) (s : St) :
  (10 <= length msgs)%nat -> AIBrain.hasEnoughMaterial msgs s = Ret true s.
Proof.
  intros H. unfold AIBrain.hasEnoughMaterial.
  destruct (Nat.ltb_spec (length msgs) 4) as [Hlt|_]; [lia|].
  destruct (Nat.leb_spec 10 (length msgs)) as [_|Hlt]; [done|lia].
Qed.

Lemma session_at_upd key held f b session :
  JsMap.get (activeSessions b) key = Some session ->
  session_at key held (upd_session key f b) = f session.
Proof.
  intros Hget. unfold session_at, upd_session. simpl.
  by rewrite JsMap_get_update, String.eqb_refl, Hget.
Qed.

Lemma upd_session_bound key f b (Q : InterviewSession -> Prop) :
  (exists session, JsMap.get (activeSessions b) key = Some session /\ Q (f session)) ->
  exists session, JsMap.get (activeSessions (upd_session key f b)) key = Some session /\
                  Q session.
Proof.
  intros (session & Hget & HQ). exists (f session). split; [|done].
  unfold upd_session. simpl. by rewrite JsMap_get_update, String.eqb_refl, Hget.
Qed.

Lemma handleInterviewReply_capped (o : oracle) key held userMessage threadTs channel
    (b0 : Bot) session idea :
  JsMap.get (activeSessions b0) key = Some session ->
  (9 <= length (s_messages session))%nat ->
  getIdea (miner b0) (s_ideaId session) = Some idea ->
  triple o (fun _ s => s = b0)
    (handleInterviewReply key held userMessage threadTs channel)
    (fun _ tr s => draft_produced key idea tr s)
    (fun _ tr s => draft_produced key idea tr s \/ ~ (slack_up o /\ drafts_up o)).
Proof.
  intros Hget Hlen Hidea. unfold handleInterviewReply.
  eapply triple_bind with (R := fun _ _ s => s = b0); [by apply triple_ask|].
  intros t.
  set (m := {| m_role := user; m_content := userMessage; m_timestamp := t |}).
  set (b1 := upd_session key (session_push m) b0).
  eapply triple_bind with (R := fun _ _ s => s = b1).
  { apply triple_modify. by intros tr s ->. }
  intros u. apply triple_get_known with (s0 := b1); [done|].
  assert (session_at key held b1 = session_push m session) as Hat
    by (by apply session_at_upd).
  rewrite Hat. simpl s_ideaId. simpl s_messages.
  replace (getIdea (miner b1) (s_ideaId session)) with (Some idea) by done.
  set (msgs := s_messages session ++ [m]).
  assert (10 <= length msgs)%nat as Hmsgs.
  { unfold msgs. rewrite length_app. simpl. lia. }
  (* the sessions from here on: bound to [key], with the whole history *)
  set (K0 := fun (_ : list event) (s : Bot) =>
    exists session', JsMap.get (activeSessions s) key = Some session' /\
                     s_messages session' = msgs).
  set (K1 := fun (_ : list event) (s : Bot) =>
    exists session', JsMap.get (activeSessions s) key = Some session' /\
                     s_messages session' = msgs /\ s_status session' = completed).
  assert (stable K0) as HK0 by (by intros tr s e).
  assert (stable K1) as HK1 by (by intros tr s e).
  eapply triple_bind with (R := fun hasEnough tr s => hasEnough = true /\ K0 tr s).
  { intros tr s ->. rewrite hasEnoughMaterial_capped by done. simpl.
    split; [done|]. exists (session_push m session). split; [|done].
    unfold b1, upd_session. simpl.
    by rewrite JsMap_get_update, String.eqb_refl, Hget. }
  intros hasEnough.
  apply triple_weaken with
    (P' := fun tr s => K0 tr s /\ hasEnough = true)
    (Q' := fun _ tr s => draft_produced key idea tr s)
    (E' := fun _ tr s => draft_produced key idea tr s \/ ~ (slack_up o /\ drafts_up o));
    [|tauto|done|done].
  destruct hasEnough; [|by intros tr s [_ ?]].
  eapply triple_bind with (R := fun _ => K0).
  { eapply triple_weaken; [apply (say_spec o K0); exact HK0|tauto|done|].
    intros e tr s [_ Hup]. right. tauto. }
  intros u1. eapply triple_bind with (R := fun _ => K1).
  { apply triple_modify. intros tr s (session' & Hs' & Hm').
    apply upd_session_bound. exists session'. done. }
  intros u2. eapply triple_bind with (R := fun _ => K1).
  { apply triple_ask. intros tr s HK. by apply HK1. }
  intros t2. eapply triple_bind with (R := fun _ => K1).
  { apply triple_modify. intros tr s (session' & Hs' & Hm' & Hst).
    apply upd_session_bound. exists session'. done. }
  intros u3.
  (* the history handed to [generateDraft] is the one of the session *)
  eapply triple_bind with
    (R := fun b tr s => K1 tr s /\ s_messages (session_at key held b) = msgs).
  { apply triple_get. intros tr s HK. split; [done|].
    destruct HK as (session' & Hs' & Hm' & _). unfold session_at. by rewrite Hs'. }
  intros b2.
  apply triple_assume. intros ->.
  set (K2 := fun tr s =>
    K1 tr s /\ ECall (LlmDraft idea msgs (i_suggestedFormat idea)) ∈ tr).
  assert (stable K2) as HK2.
  { intros tr s e [HK Hin]. split; [done|]. apply elem_of_app. by left. }
  eapply triple_bind with
    (R := fun d tr s => K2 tr s /\ d_version d = 1%N /\ d_ideaId d = i_id idea).
  { eapply triple_weaken; [apply (generateDraft_spec o K1); exact HK1|tauto| |].
    - intros d tr s (HK & Hin & Hv & Hi). done.
    - intros e tr s [_ Hup]. right. tauto. }
  intros d.
  eapply triple_bind with
    (R := fun d' tr s => K2 tr s /\ d_version d' = 1%N /\ d_ideaId d' = i_id idea).
  { apply triple_weaken with
      (P' := fun tr s => K2 tr s /\ (d_version d = 1%N /\ d_ideaId d = i_id idea))
      (Q' := fun d' tr s =>
               (K2 tr s /\ (d_version d = 1%N /\ d_ideaId d = i_id idea)) /\
               (d' = d \/ exists page, d' = draft_with_page page d))
      (E' := fun _ _ _ => False); [|done| |done].
    - apply save_draft_spec. by intros tr s e [HK ?]; split; [apply HK2|].
    - intros d' tr s [[HK [Hv Hi]] [->|[page ->]]]; done. }
  intros d'.
  set (K3 := fun tr s => K2 tr s /\ d_version d' = 1%N /\ d_ideaId d' = i_id idea).
  assert (stable K3) as HK3.
  { intros tr s e [HK ?]. split; [by apply HK2|done]. }
  eapply triple_bind with (R := fun _ => K3).
  { eapply triple_weaken;
      [apply (status_update_spec o K3); [exact HK3|by intros tr s x]|done|done|done]. }
  intros u4.
  set (G := fun tr s => K3 tr s /\ JsMap.get (pendingDrafts s) (d_id d') = Some d').
  assert (stable G) as HG.
  { intros tr s e [HK ?]. split; [by apply HK3|done]. }
  assert (forall tr s, G tr s -> draft_produced key idea tr s) as Hdone.
  { intros tr s [[[(session' & Hs' & _ & Hst) Hin] [Hv Hi]] Hd].
    split; [by exists session'|]. split; [by exists msgs|]. by exists d'. }
  eapply triple_bind with (R := fun _ => G).
  { intros tr s HK.
    pose proof (sendDraftNotification_spec o K3 d' idea (pendingDrafts s) HK3
                  (fun tr s x H => H) tr s (conj HK eq_refl)) as H.
    destruct (run o tr (sendDraftNotification d' idea s)) as [tr' [a s'|e s']].
    - destruct H as [HK' Hset]. split; [done|].
      by rewrite Hset, JsMap_get_set, String.eqb_refl.
    - right. tauto. }
  intros u5. destruct (bool_decide (i_suggestedFormat idea = linkedin_post)).
  - eapply triple_bind with (R := fun _ => G).
    + unfold AIBrain.syndicateToXThread.
      eapply triple_bind with (R := fun _ => G).
      * apply triple_await. intros tr s HGs.
        destruct (answer o _ tr _); [by apply HG|left; apply Hdone; by apply HG].
      * intros r. by apply triple_ret.
    + intros x. eapply triple_weaken; [apply (tell_owner_spec o G); exact HG|done| |].
      * intros a tr s HGs. by apply Hdone.
      * intros e tr s [HGs _]. left. by apply Hdone.
  - apply triple_ret. intros tr s HGs. by apply Hdone.
Qed.

(** C4. [hasEnoughMaterial] answers [false] below four messages and [true]
    from ten messages on, in both cases at once and without asking the
    drafting service, so whatever its judgment would be. An interview reply
    that brings the history to ten messages is therefore taken as enough: with
    the chat and the drafting service answering, the session ends completed
    and a first draft of the idea is made and cached. *)
Theorem enough_material_is_bounded :
  (forall (msgs : list InterviewMessage) (s : Bot),
     (length msgs < 4)%nat -> AIBrain.hasEnoughMaterial msgs s = Ret false s) /\
  (forall (msgs : list InterviewMessage) (s : Bot),
     (10 <= length msgs)%nat -> AIBrain.hasEnoughMaterial msgs s = Ret true s) /\
  (forall (o : oracle) tr b key held userMessage threadTs channel session idea,
     JsMap.get (activeSessions b) key = Some session ->
     (9 <= length (s_messages session))%nat ->
     getIdea (miner b) (s_ideaId session) = Some idea ->
     slack_up o -> drafts_up o ->
     let r := run o tr (handleInterviewReply key held userMessage threadTs channel b) in
     draft_produced key idea (fst r) (final_state r)).
Proof.
  split; [|split].
  - intros msgs s. apply hasEnoughMaterial_short.
  - intros msgs s. apply hasEnoughMaterial_capped.
  - intros o tr b key held userMessage threadTs channel session idea
      Hget Hlen Hidea Hslack Hllm r.
    pose proof (handleInterviewReply_capped o key held userMessage threadTs channel
                  b session idea Hget Hlen Hidea tr b eq_refl) as H.
    subst r. unfold final_state.
    destruct (run o tr (handleInterviewReply key held userMessage threadTs channel b))
      as [tr' [a s'|e s']]; simpl; tauto.
Qed.

Lemma sample_world_slack_up found loaded enough :
  slack_up (sample_world found loaded enough).
Proof. intros tr p. eexists. reflexivity. Qed.

Lemma sample_world_drafts_up found loaded enough :
  drafts_up (sample_world found loaded enough).
Proof. intros tr idea msgs f. eexists. reflexivity. Qed.

Lemma sample_world_reworks_up found loaded enough :
  reworks_up (sample_world found loaded enough).
Proof. intros tr body feedback f. eexists. reflexivity. Qed.

Lemma enough_material_is_bounded_witness :
  let o := sample_world [] [] "no" in
  let r := run o [] (handleInterviewReply "ts-1" sample_session "a5" "ts-1" "D1"
                       sample_bot) in
  JsMap.get (activeSessions sample_bot) "ts-1" = Some sample_session /\
  (9 <= length (s_messages sample_session))%nat /\
  getIdea (miner sample_bot) (s_ideaId sample_session)
    = Some (sample_idea "idea-1" "Charge more" ["t-1"]) /\
  slack_up o /\ drafts_up o /\
  draft_produced "ts-1" (sample_idea "idea-1" "Charge more" ["t-1"])
    (fst r) (final_state r).
Proof.
  intros o r.
  split; [reflexivity|]. split; [simpl; lia|]. split; [reflexivity|].
  split; [apply sample_world_slack_up|]. split; [apply sample_world_drafts_up|].
  apply (proj2 (proj2 enough_material_is_bounded) o [] sample_bot "ts-1"
           sample_session "a5" "ts-1" "D1" sample_session
           (sample_idea "idea-1" "Charge more" ["t-1"])).
  - reflexivity.
  - simpl; lia.
  - reflexivity.
  - apply sample_world_slack_up.
  - apply sample_world_drafts_up.
Defined.



(** ** Handlers that let go of the state *)

Section Released.
Context {St : Type} (I : St -> Prop).

Lemma released_bindP {A B} (p : prog St A) (f : A -> M St B) :
  released I p -> (forall a, releasedM I (f a)) -> released I (bindP p f).
Proof.
  intros Hp Hf. induction p as [a s|e s|X q k IH|X s c k IH]; simpl in *.
  - by apply Hf.
  - done.
  - intros x. by apply IH.
  - destruct Hp as [Hs Hk]. split; [done|]. intros r s' Hs'. apply IH. by apply Hk.
Qed.

Lemma released_catchP {A} (p : prog St A) (h : string -> M St A) :
  released I p -> (forall e, releasedM I (h e)) -> released I (catchP p h).
Proof.
  intros Hp Hh. induction p as [a s|e s|X q k IH|X s c k IH]; simpl in *.
  - done.
  - by apply Hh.
  - intros x. by apply IH.
  - destruct Hp as [Hs Hk]. split; [done|]. intros r s' Hs'. apply IH. by apply Hk.
Qed.

Lemma releasedM_bind {A B} (m : M St A) (f : A -> M St B) :
  releasedM I m -> (forall a, releasedM I (f a)) -> releasedM I (bind m f).
Proof. intros Hm Hf s Hs. apply released_bindP; [by apply Hm|done]. Qed.

Lemma releasedM_catch {A} (m : M St A) (h : string -> M St A) :
  releasedM I m -> (forall e, releasedM I (h e)) -> releasedM I (try_catch m h).
Proof. intros Hm Hh s Hs. apply released_catchP; [by apply Hm|done]. Qed.

Lemma releasedM_ret {A} (a : A) : releasedM I (ret a).
Proof. by intros s Hs. Qed.

Lemma releasedM_get : releasedM I get.
Proof. by intros s Hs. Qed.

Lemma releasedM_modify (f : St -> St) :
  (forall s, I s -> I (f s)) -> releasedM I (modify f).
Proof. intros Hf s Hs. by apply Hf. Qed.

Lemma releasedM_await {X} (c : call X) : releasedM I (await c).
Proof. intros s Hs. simpl. split; [done|]. intros [x|e] s' Hs'; done. Qed.

Lemma releasedM_ask {X} (q : query X) : releasedM I (ask q).
Proof. by intros s Hs x. Qed.

Lemma releasedM_for_each {X} (xs : list X) (body : X -> M St unit) :
  (forall x, releasedM I (body x)) -> releasedM I (for_each xs body).
Proof.
  intros Hb. induction xs as [|x xs IH]; simpl.
  - apply releasedM_ret.
  - apply releasedM_bind; [apply Hb|]. intros u. apply IH.
Qed.

End Released.

Lemma released_zoomP {T St A} (I : St -> Prop) (proj : St -> T) (inj : T -> St -> St)
    (p : prog T A) outer :
  (forall t s, I s -> I (inj t s)) -> I outer ->
  released I (zoomP proj inj p outer).
Proof.
  intros Hinj. revert outer.
  induction p as [a t|e t|X q k IH|X t c k IH]; intros outer Ho; simpl.
  - by apply Hinj.
  - by apply Hinj.
  - intros x. by apply IH.
  - split; [by apply Hinj|]. intros r s' Hs'. by apply IH.
Qed.

(** Whatever the registry does lets go of the bot as it found it, as far as
    [I] does not look at the registry. *)
Lemma releasedM_in_miner {A} (I : Bot -> Prop) (m : M Miner A) :
  (forall t s, I s -> I (set_miner t s)) -> releasedM I (in_miner m).
Proof. intros Hb s Hs. unfold in_miner, zoom. by apply released_zoomP. Qed.

(** One step of a proof that a handler lets go of the state in [I]. *)
Ltac released_step :=
  lazymatch goal with
  | |- releasedM _ (Async.bind _ _) => apply releasedM_bind; [|intros ?]
  | |- releasedM _ (try_catch _ _) => apply releasedM_catch; [|intros ?]
  | |- releasedM _ (ret _) => apply releasedM_ret
  | |- releasedM _ get => apply releasedM_get
  | |- releasedM _ (await _) => apply releasedM_await
  | |- releasedM _ (ask _) => apply releasedM_ask
  | |- releasedM _ (for_each _ _) => apply releasedM_for_each; intros ?
  | |- releasedM _ (in_miner _) => apply releasedM_in_miner; by intros ? ?
  | |- releasedM _ (modify _) => apply releasedM_modify; by intros ?
  | |- releasedM _ (match ?x with _ => _ end) => destruct x
  | |- releasedM _ (if ?x then _ else _) => destruct x
  end.

Section ReworkFlag.
Local Abbreviation clear := no_rework.

Lemma say_released channel text thread : releasedM clear (say channel text thread).
Proof. unfold say. repeat released_step. Qed.

Lemma tell_owner_released text : releasedM clear (tell_owner text).
Proof. unfold tell_owner. repeat released_step. Qed.

Lemma save_draft_released d : releasedM clear (save_draft d).
Proof. unfold save_draft. repeat released_step. Qed.

Lemma sendDraftNotification_released d idea :
  releasedM clear (sendDraftNotification d idea).
Proof. unfold sendDraftNotification. repeat released_step. Qed.

Lemma sendContentPing_released idea : releasedM clear (sendContentPing idea).
Proof.
  unfold sendContentPing, AIBrain.generateInterviewOpener. repeat released_step.
Qed.

Lemma handleInterviewReply_released key held userMessage threadTs channel :
  releasedM clear (handleInterviewReply key held userMessage threadTs channel).
Proof.
  unfold handleInterviewReply, AIBrain.hasEnoughMaterial, AIBrain.generateDraft,
    AIBrain.generateFollowUp, AIBrain.syndicateToXThread.
  repeat first [apply say_released | apply tell_owner_released
               | apply save_draft_released | apply sendDraftNotification_released
               | released_step].
Qed.

Lemma handleCommand_released text channel : releasedM clear (handleCommand text channel).
Proof.
  unfold handleCommand, handleStatusCommand, handleIdeasCommand, handleMineCommand,
    handleDraftCommand, handleHelpCommand.
  repeat first [apply say_released | apply sendContentPing_released | released_step].
Qed.

(** The rework handler past its first line. *)
Lemma rework_rest_released feedback channel (rw : PendingRework) (d : ContentDraft)
    (idea : option ContentIdea) :
  releasedM clear
    (say channel TxtReworking None;;
     try_catch
       (let* reworkedBody :=
          AIBrain.reworkDraft (d_body d) feedback (d_format d) in
        let* t_id := ask Now in
        let* t_created := ask Now in
        let* newDraft := save_draft (reworked d t_id reworkedBody t_created) in
        sendDraftNotification newDraft (default (stand_in_idea rw d) idea))
       (fun e => say channel (TxtReworkFailed e) None)).
Proof.
  unfold AIBrain.reworkDraft.
  repeat first [apply say_released | apply save_draft_released
               | apply sendDraftNotification_released | released_step].
Qed.

End ReworkFlag.

Section ReworkRouting.
Local Abbreviation clear := no_rework.

Lemma handleReworkFeedback_released feedback channel :
  releasedM clear (handleReworkFeedback feedback channel).
Proof.
  unfold handleReworkFeedback, AIBrain.reworkDraft.
  repeat first [apply say_released | apply save_draft_released
               | apply sendDraftNotification_released | released_step].
Qed.

Lemma on_message_released msg : releasedM clear (on_message msg).
Proof.
  unfold on_message, dispatch.
  repeat first [apply say_released | apply handleInterviewReply_released
               | apply handleReworkFeedback_released | apply handleCommand_released
               | released_step].
Qed.

Lemma route_feedback_pending b msg :
  route b msg = ReworkFeedback -> exists rw, pendingRework b = Some rw.
Proof.
  unfold route, route_unthreaded, route_rework.
  destruct (pendingRework b) as [rw|]; [eauto|].
  intros H.
  repeat match type of H with
  | context [match ?x with _ => _ end] => destruct x
  end; discriminate.
Qed.

Lemma route_without_rework s msg : no_rework s -> reply_or_command (route s msg).
Proof.
  unfold no_rework, route, route_unthreaded, route_rework. intros ->.
  repeat match goal with
  | |- context [match ?x with _ => _ end] => destruct x
  end; exact Logic.I.
Qed.

End ReworkRouting.

(** C3. A message taken as rework feedback clears the pending rework before
    the handler asks anything of the outside world: the first thing the
    handler does is an [await], and the state it lets go of there has the
    flag cleared. From then on the handler never sets the flag again, neither
    while the rework is in flight nor when it fails or ends, so a message that
    comes in meanwhile finds no pending rework: it is taken as a reply to an
    interview or as a command, never as feedback. Handling it does not set
    the flag either, nor does any other event but a click on a button. *)
Theorem rework_flag_cleared_before_any_call (b : Bot) (msg : Incoming) :
  route b msg = ReworkFeedback ->
  (exists X (c : call X) k,
     on_message msg b = Await (set_pendingRework None b) c k) /\
  released no_rework (on_message msg b) /\
  (forall s msg2, no_rework s -> reply_or_command (route s msg2)) /\
  (forall e, (forall payload, e <> Interactive payload) ->
             releasedM no_rework (handle e)).
Proof.
  intros Hroute. destruct (route_feedback_pending b msg Hroute) as [rw Hrw].
  split; [|split; [|split]].
  - unfold on_message. unfold try_catch at 1.
    unfold Async.bind at 1. cbn [get bindP]. rewrite Hroute. cbn [dispatch].
    unfold handleReworkFeedback. unfold Async.bind at 1. cbn [get bindP].
    rewrite Hrw. unfold Async.bind at 1. cbn [modify bindP].
    destruct (JsMap.get (pendingDrafts b) (pr_draftId rw)) as [d|];
      do 3 eexists; reflexivity.
  - unfold on_message. unfold try_catch at 1. apply released_catchP.
    2:{ intros e. repeat first [apply say_released | released_step]. }
    unfold Async.bind at 1. cbn [get bindP]. rewrite Hroute. cbn [dispatch].
    unfold handleReworkFeedback. unfold Async.bind at 1. cbn [get bindP].
    rewrite Hrw. unfold Async.bind at 1. cbn [modify bindP].
    destruct (JsMap.get (pendingDrafts b) (pr_draftId rw)) as [d|].
    + by apply rework_rest_released.
    + by apply say_released.
  - intros s msg2. apply route_without_rework.
  - intros [msg2|payload|idea|registry] Hnot; simpl.
    + apply on_message_released.
    + by destruct (Hnot payload).
    + apply releasedM_catch; [apply sendContentPing_released|].
      intros e. apply releasedM_ret.
    + apply releasedM_modify. by intros s.
Qed.

Lemma rework_flag_cleared_before_any_call_witness :
  let msg := sample_message "Make it shorter, please" in
  route sample_bot_idle msg = ReworkFeedback /\
  released no_rework (on_message msg sample_bot_idle).
Proof.
  intros msg. split; [reflexivity|].
  exact (proj1 (proj2
    (rework_flag_cleared_before_any_call sample_bot_idle msg eq_refl))).
Defined.

(** ** Mining on demand *)

Lemma mine_calls_app tr tr' : mine_calls (tr ++ tr') = mine_calls tr ++ mine_calls tr'.
Proof. unfold mine_calls. apply omap_app. Qed.

Lemma mine_calls_quiet tr e : mine_call e = None -> mine_calls (tr ++ [e]) = mine_calls tr.
Proof. intros H. rewrite mine_calls_app. simpl. rewrite H. apply app_nil_r. Qed.

Section Mining.
Context (o : oracle).

Lemma stamp_ideas_quiet C X sources i raw :
  triple o (mining C X) (AIBrain.stamp_ideas sources i raw)
    (fun _ => mining C X) (fun _ _ _ => False).
Proof.
  revert i. induction raw as [|r raw IH]; intros i; simpl.
  - by apply triple_ret.
  - eapply triple_bind with (R := fun _ => mining C X).
    { apply triple_ask. intros tr s [HC HX]. split; [|done]. by rewrite mine_calls_quiet. }
    intros t. eapply triple_bind with (R := fun _ => mining C X).
    { apply triple_ask. intros tr s [HC HX]. split; [|done]. by rewrite mine_calls_quiet. }
    intros t'. eapply triple_bind with (R := fun _ => mining C X); [apply IH|].
    intros rest. by apply triple_ret.
Qed.

(** A batch is one request, answered or not. *)
Lemma mineContentIdeas_spec C X batch :
  triple o (mining C X) (AIBrain.mineContentIdeas batch)
    (fun _ => mining (C ++ request_for batch) X)
    (fun _ => mining (C ++ request_for batch) X).
Proof.
  unfold AIBrain.mineContentIdeas. destruct batch as [|t batch].
  - apply triple_ret. intros tr s H. simpl. by rewrite app_nil_r.
  - set (b := t :: batch).
    eapply triple_bind with (R := fun _ => mining (C ++ [b]) X).
    + apply triple_await. intros tr s [HC HX].
      assert (mining (C ++ [b]) X (tr ++ [ECall (LlmMine b)]) s) as Hm.
      { split; [|done]. rewrite mine_calls_app, HC. done. }
      by destruct (answer o _ tr (LlmMine b)).
    + intros raw. eapply triple_weaken; [apply stamp_ideas_quiet|done|done|done].
Qed.

Lemma record_ideas_quiet C X found allIdeas :
  triple o (mining C X) (record_ideas found allIdeas)
    (fun _ => mining C X) (fun _ _ _ => False).
Proof.
  revert allIdeas. induction found as [|idea rest IH]; intros allIdeas; simpl.
  - by apply triple_ret.
  - eapply triple_bind with (R := fun _ => mining C X); [by apply triple_get|].
    intros m. destruct (isDuplicate m (i_hook idea)); [apply IH|].
    eapply triple_bind with (R := fun _ => mining C X).
    { apply triple_modify. by intros tr s. }
    intros u. eapply triple_bind with (R := fun _ => mining C X).
    { apply save_idea_keeps.
      - intros tr s [HC HX]. split; [|done]. by rewrite mine_calls_quiet.
      - by intros tr s x. }
    intros idea'. apply IH.
Qed.

(** The loop over the batches asks for exactly the batches of the list, in
    order, whatever the answers; it does not throw. *)
Lemma mine_batches_spec C X fuel i withContent allIdeas :
  triple o (mining C X) (mine_batches fuel i withContent allIdeas)
    (fun _ => mining (C ++ batches_from fuel i withContent) X)
    (fun _ _ _ => False).
Proof.
  revert C i allIdeas. induction fuel as [|fuel IH]; intros C i allIdeas; simpl.
  - apply triple_ret. intros tr s H. by rewrite app_nil_r.
  - destruct (i <? length withContent)%nat.
    2:{ apply triple_ret. intros tr s H. by rewrite app_nil_r. }
    set (batch := slice i (i + batchSize) withContent).
    eapply triple_bind with (R := fun _ => mining (C ++ request_for batch) X).
    + eapply triple_catch with (R := fun _ => mining (C ++ request_for batch) X).
      * eapply triple_bind; [apply mineContentIdeas_spec|].
        intros found. eapply triple_weaken; [apply record_ideas_quiet|done|done|done].
      * intros e. by apply triple_ret.
    + intros all'. eapply triple_weaken; [apply IH|done| |done].
      intros a tr s H. by rewrite app_assoc.
Qed.

(** Loading the contents asks nothing of the drafting service, marks every
    transcript it goes through, and keeps their identifiers. *)
Lemma load_contents_spec C X (keep : string -> Prop) unmined withContent :
  Forall (fun t => keep (t_id t)) unmined ->
  Forall (fun t => keep (t_id t)) withContent ->
  triple o (mining C X) (load_contents unmined withContent)
    (fun wc tr s => mining C (X ∪ list_to_set (map t_id unmined)) tr s /\
                    Forall (fun t => keep (t_id t)) wc)
    (fun _ _ _ => False).
Proof.
  revert X withContent. induction unmined as [|t rest IH];
    intros X withContent Hun Hwc; simpl.
  - apply triple_ret. intros tr s [HC HX]. split; [|done]. split; [done|set_solver].
  - apply Forall_cons in Hun as [Ht Hrest].
    assert (Forall (fun t0 => keep (t_id t0)) (withContent ++ [t])) as Hwc1.
    { apply Forall_app. split; [done|]. by apply Forall_singleton. }
    eapply triple_bind with
      (R := fun wc tr s => mining C X tr s /\ Forall (fun t0 => keep (t_id t0)) wc).
    { destruct (has_content (t_content t)); [by apply triple_ret|].
      destruct (truthy (t_notionPageId t)) as [page|]; [|by apply triple_ret].
      eapply triple_catch with (R := fun _ => mining C X).
      - eapply triple_bind with (R := fun _ => mining C X).
        + apply triple_await. intros tr s [HC HX].
          assert (mining C X (tr ++ [ECall (NotionLoadTranscriptContent page)]) s)
            by (split; [by rewrite mine_calls_quiet|done]).
          by destruct (answer o _ tr _).
        + intros c. destruct (has_content c); apply triple_ret; intros tr s H;
            (split; [done|]); [|done].
          apply Forall_app. split; [done|]. by apply Forall_singleton.
      - intros e. by apply triple_ret. }
    intros wc. apply triple_weaken with
      (P' := fun tr s => mining C X tr s /\ Forall (fun t0 => keep (t_id t0)) wc)
      (Q' := fun wc' tr s =>
               mining C (X ∪ list_to_set (map t_id (t :: rest))) tr s /\
               Forall (fun t0 => keep (t_id t0)) wc')
      (E' := fun _ _ _ => False); [|done|done|done].
    apply triple_assume. intros Hwc'.
    eapply triple_bind with (R := fun _ => mining C (X ∪ {[t_id t]})).
    { apply triple_modify. intros tr s [HC HX]. split; [done|]. simpl. set_solver. }
    intros u. eapply triple_weaken; [apply (IH (X ∪ {[t_id t]}) wc); done|done| |done].
    intros wc' tr s [[HC HX] Hk]. split; [|done]. split; [done|].
    simpl. set_solver.
Qed.

End Mining.

Lemma elem_of_map_1 {A B} (f : A -> B) (l : list A) (x : A) :
  x ∈ l -> f x ∈ map f l.
Proof.
  induction l as [|y l IH]; intros Hin; [by apply elem_of_nil in Hin|].
  simpl. apply elem_of_cons in Hin as [->|Hin]; [by left|right; auto].
Qed.

Lemma Forall_map_truncate (keep : string -> Prop) (l : list Transcript) :
  Forall (fun t => keep (t_id t)) l ->
  Forall (fun t => keep (t_id t)) (map truncate l).
Proof.
  induction 1 as [|t l Ht Hl IH]; simpl; constructor; [|done].
  unfold truncate. by destruct (_ <? _)%nat.
Qed.

(** Every batch is cut out of the list. *)
Lemma batches_from_within (P : Transcript -> Prop) fuel i withContent :
  Forall P withContent ->
  Forall (Forall P) (batches_from fuel i withContent).
Proof.
  intros HP. revert i. induction fuel as [|fuel IH]; intros i; simpl; [constructor|].
  destruct (i <? length withContent)%nat; [|constructor].
  apply Forall_app. split; [|apply IH].
  assert (Forall P (slice i (i + batchSize) withContent)) as Hs.
  { unfold slice. apply Forall_forall. intros t Ht.
    apply subseteq_take, subseteq_drop in Ht.
    by apply (proj1 (Forall_forall _ _) HP). }
  unfold request_for. destruct (slice i (i + batchSize) withContent); [constructor|].
  by apply Forall_singleton.
Qed.

Lemma mineFromTranscripts_spec (o : oracle) C (M0 : gset string) transcripts :
  triple o (fun tr s => mine_calls tr = C /\ minedTranscriptIds s = M0)
    (mineFromTranscripts transcripts)
    (fun _ tr s =>
       (exists L, mine_calls tr = C ++ L /\
                  Forall (Forall (fun t => t_id t ∉ M0)) L) /\
       M0 ⊆ minedTranscriptIds s /\
       (forall t, t ∈ transcripts -> t_id t ∈ minedTranscriptIds s))
    (fun _ _ _ => False).
Proof.
  unfold mineFromTranscripts. destruct transcripts as [|t0 ts0].
  { apply triple_ret. intros tr s [HC HM]. split; [|split].
    - exists []. by rewrite app_nil_r.
    - by rewrite HM.
    - intros t Ht. by apply elem_of_nil in Ht. }
  set (transcripts := t0 :: ts0).
  eapply triple_bind with
    (R := fun m tr s => mining C M0 tr s /\ minedTranscriptIds m = M0).
  { apply triple_get. intros tr s [HC HM]. split; [|done]. split; [done|by rewrite HM]. }
  intros m. apply triple_assume. intros HM0. rewrite HM0. clear m HM0.
  set (unmined := filter (fun t => t_id t ∉ M0) transcripts).
  assert (Forall (fun t => t_id t ∉ M0) unmined) as Hun.
  { apply Forall_forall. intros t Ht. by apply list_elem_of_filter in Ht as [? _]. }
  assert (forall (s : Miner) (t : Transcript),
            M0 ∪ list_to_set (map t_id unmined) ⊆ minedTranscriptIds s ->
            t ∈ transcripts -> t_id t ∈ minedTranscriptIds s) as Hall.
  { intros s t Hs Ht. apply Hs.
    destruct (decide (t_id t ∈ M0)) as [Hin|Hnot]; [set_solver|].
    apply elem_of_union. right. apply elem_of_list_to_set.
    apply (elem_of_map_1 t_id). apply list_elem_of_filter. done. }
  destruct unmined as [|u0 us0] eqn:Hunmined.
  { apply triple_ret. intros tr s [HC HM]. split; [|split].
    - exists []. by rewrite app_nil_r.
    - done.
    - intros t Ht. apply Hall; [|done]. simpl. set_solver. }
  rewrite <- Hunmined in *. clear Hunmined.
  eapply triple_bind;
    [apply (load_contents_spec o C M0 (fun id => id ∉ M0) unmined []);
     [exact Hun|constructor]|].
  intros wc. apply triple_weaken with
    (P' := fun tr s => mining C (M0 ∪ list_to_set (map t_id unmined)) tr s /\
                       Forall (fun t => t_id t ∉ M0) wc)
    (Q' := fun _ tr s =>
             (exists L, mine_calls tr = C ++ L /\
                        Forall (Forall (fun t => t_id t ∉ M0)) L) /\
             M0 ⊆ minedTranscriptIds s /\
             (forall t, t ∈ transcripts -> t_id t ∈ minedTranscriptIds s))
    (E' := fun _ _ _ => False); [|done|done|done].
  apply triple_assume. intros Hwc.
  destruct wc as [|w0 ws0] eqn:Hwceq.
  { apply triple_ret. intros tr s [HC HM]. split; [|split].
    - exists []. by rewrite app_nil_r.
    - set_solver.
    - intros t Ht. by apply Hall. }
  rewrite <- Hwceq in *. clear Hwceq.
  eapply triple_weaken; [apply mine_batches_spec|done| |done].
  intros ideas tr s [HC HM]. split; [|split].
  - eexists. split; [exact HC|].
    apply batches_from_within. by apply (Forall_map_truncate (fun id => id ∉ M0)).
  - set_solver.
  - intros t Ht. by apply Hall.
Qed.

Lemma mine_calls_emitted {St A} (o : oracle) (p : prog St A) tr L :
  mine_calls (fst (run o tr p)) = mine_calls tr ++ L ->
  mine_calls (emitted o tr p) = L.
Proof.
  rewrite (run_emitted o p tr) at 1. rewrite mine_calls_app.
  by intros H%app_inv_head.
Qed.

(** One call, and calls that follow one another. [mineFromTranscripts]
    never submits a transcript whose identifier is marked mined when the call
    begins, it only adds to the set of mined identifiers, and when it ends
    every transcript it was given is marked mined, also those skipped for
    want of content. So no call that begins after it has ended submits a
    transcript that it was given. *)
Theorem mined_transcripts_stay_out (o : oracle) (tr : list event) (m : Miner)
    (transcripts : list Transcript) :
  let r := run o tr (mineFromTranscripts transcripts m) in
  (forall batch t,
     batch ∈ mine_calls (emitted o tr (mineFromTranscripts transcripts m)) ->
     t ∈ batch -> t_id t ∉ minedTranscriptIds m) /\
  (exists found, snd r = Done found (final_state r)) /\
  (forall t, t ∈ transcripts -> t_id t ∈ minedTranscriptIds (final_state r)) /\
  minedTranscriptIds m ⊆ minedTranscriptIds (final_state r) /\
  (forall tr2 m2 later batch t,
     minedTranscriptIds (final_state r) ⊆ minedTranscriptIds m2 ->
     batch ∈ mine_calls (emitted o tr2 (mineFromTranscripts later m2)) ->
     t ∈ batch ->
     (t_id t ∉ minedTranscriptIds m) /\
     (forall t1, t1 ∈ transcripts -> t_id t <> t_id t1)).
Proof.
  intros r.
  assert (forall tr1 m1 ts1 batch t,
            batch ∈ mine_calls (emitted o tr1 (mineFromTranscripts ts1 m1)) ->
            t ∈ batch -> t_id t ∉ minedTranscriptIds m1) as Hout.
  { intros tr1 m1 ts1 batch t Hb Ht.
    pose proof (mineFromTranscripts_spec o (mine_calls tr1) (minedTranscriptIds m1)
                  ts1 tr1 m1 (conj eq_refl eq_refl)) as H.
    pose proof (mine_calls_emitted o (mineFromTranscripts ts1 m1) tr1) as Hem.
    destruct (run o tr1 (mineFromTranscripts ts1 m1)) as [tr' [a s'|e s']]; [|done].
    destruct H as [(L & HL & HF) _]. rewrite (Hem L HL) in Hb.
    pose proof (proj1 (Forall_forall _ _) HF batch Hb) as Hbatch.
    exact (proj1 (Forall_forall _ _) Hbatch t Ht). }
  pose proof (mineFromTranscripts_spec o (mine_calls tr) (minedTranscriptIds m)
                transcripts tr m (conj eq_refl eq_refl)) as H.
  subst r. unfold final_state.
  destruct (run o tr (mineFromTranscripts transcripts m)) as [tr' [a s'|e s']] eqn:Hrun;
    [|done].
  simpl. destruct H as (_ & Hmono & Hall).
  split; [apply Hout|]. split; [by exists a|]. split; [exact Hall|].
  split; [exact Hmono|].
  intros tr2 m2 later batch t Hsub Hb Ht.
  pose proof (Hout tr2 m2 later batch t Hb Ht) as Hnot.
  split; [set_solver|].
  intros t1 Ht1 Heq. apply Hnot, Hsub. rewrite Heq. by apply Hall.
Qed.

(** Transcripts that all have content are taken as they are, and nothing is
    asked of the record store. *)
Lemma load_contents_ready (o : oracle) C X unmined withContent :
  Forall (fun t => has_content (t_content t) = true) unmined ->
  triple o (mining C X) (load_contents unmined withContent)
    (fun wc tr s => wc = withContent ++ unmined /\ mine_calls tr = C)
    (fun _ _ _ => False).
Proof.
  revert X withContent. induction unmined as [|t rest IH]; intros X withContent Hall; simpl.
  - apply triple_ret. intros tr s [HC _]. by rewrite app_nil_r.
  - apply Forall_cons in Hall as [Ht Hrest]. rewrite Ht.
    eapply triple_bind with (R := fun wc tr s => mining C X tr s /\ wc = withContent ++ [t]).
    { by apply triple_ret. }
    intros wc. apply triple_assume. intros ->.
    eapply triple_bind with (R := fun _ => mining C X).
    { apply triple_modify. intros tr s [HC HX]. split; [done|]. simpl. set_solver. }
    intros u. eapply triple_weaken; [apply (IH X); exact Hrest|done| |done].
    intros wc tr s [-> HC]. by rewrite <- app_assoc.
Qed.

Lemma filter_all {A} (P : A -> Prop) `{!forall x, Decision (P x)} (l : list A) :
  Forall P l -> filter P l = l.
Proof.
  induction 1 as [|x l Hx Hl IH]; [done|].
  rewrite filter_cons. destruct (decide (P x)); [by rewrite IH|done].
Qed.

Lemma twelve_batches (wc : list Transcript) :
  length wc = 12%nat ->
  batches_from (length wc) 0 wc = [take 10 wc; drop 10 wc].
Proof.
  intros Hlen. do 13 (destruct wc as [|? wc]; try discriminate). reflexivity.
Qed.

(** The bound on the loop is enough: together the batches are the list. *)
Lemma batches_cover_from fuel i (withContent : list Transcript) :
  (length withContent - i <= fuel)%nat ->
  concat (batches_from fuel i withContent) = drop i withContent.
Proof.
  revert i. induction fuel as [|fuel IH]; intros i Hfuel; simpl.
  - symmetry. apply drop_ge. lia.
  - destruct (Nat.ltb_spec i (length withContent)) as [Hlt|Hge].
    + rewrite concat_app, IH by (unfold batchSize; lia).
      replace (concat (request_for (slice i (i + batchSize) withContent)))
        with (slice i (i + batchSize) withContent).
      2:{ unfold request_for. destruct (slice _ _ _); simpl; [done|].
          by rewrite app_nil_r. }
      unfold slice. replace (i + batchSize - i)%nat with batchSize by lia.
      rewrite <- drop_drop. apply take_drop.
    + symmetry. apply drop_ge. lia.
Qed.

Lemma batches_cover_all (withContent : list Transcript) :
  concat (batches_from (length withContent) 0 withContent) = withContent.
Proof. rewrite batches_cover_from by lia. apply drop_0. Qed.



(** ** The live queue *)

Lemma mineContentIdeas_keeps (o : oracle) (I : list event -> Miner -> Prop) batch :
  stable I -> keeps o I (AIBrain.mineContentIdeas batch).
Proof.
  intros Hs. unfold AIBrain.mineContentIdeas. destruct batch as [|t batch].
  { apply keeps_ret. }
  apply keeps_bind; [by apply keeps_await|]. intros raw.
  generalize 0%nat. induction raw as [|r raw IH]; intros i; simpl.
  - apply keeps_ret.
  - apply keeps_bind; [by apply keeps_ask|]. intros t_id.
    apply keeps_bind; [by apply keeps_ask|]. intros t_created.
    apply keeps_bind; [apply IH|]. intros rest. apply keeps_ret.
Qed.

(** The bound on the recursion of [processQueue] is enough: with as much
    fuel as transcripts are pending, the drain ends with an empty queue,
    whatever the outside world answers. *)
Lemma processQueue_drains (o : oracle) fuel (pending : list Transcript) :
  (length pending <= fuel)%nat ->
  triple o (fun _ s => pendingTranscripts s = pending /\ processing s = false)
    (processQueue fuel)
    (fun ok _ s => ok = true /\ pendingTranscripts s = [] /\ processing s = false)
    (fun _ _ _ => False).
Proof.
  revert pending. induction fuel as [|fuel IH]; intros pending Hfuel.
  - destruct pending; [|simpl in Hfuel; lia]. simpl.
    eapply triple_bind with
      (R := fun m _ s => (pendingTranscripts s = [] /\ processing s = false) /\
                         (pendingTranscripts m = [] /\ processing m = false)).
    { by apply triple_get. }
    intros m. apply triple_assume. intros [HP Hpr]. rewrite HP, Hpr. simpl.
    by apply triple_ret.
  - simpl.
    eapply triple_bind with
      (R := fun m _ s => (pendingTranscripts s = pending /\ processing s = false) /\
                         (pendingTranscripts m = pending /\ processing m = false)).
    { by apply triple_get. }
    intros m. apply triple_assume. intros [HP Hpr]. rewrite HP, Hpr. clear m HP Hpr.
    destruct pending as [|t rest]; simpl orb; simpl Nat.eqb; cbv iota.
    { apply triple_ret. by intros tr s [? ?]. }
    set (left := drop 5 (t :: rest)).
    set (I := fun (_ : list event) (s : Miner) =>
                pendingTranscripts s = left /\ processing s = true).
    assert (stable I) as HI by (by intros tr s e).
    eapply triple_bind with
      (R := fun _ _ s => pendingTranscripts s = t :: rest /\ processing s = true).
    { apply triple_modify. by intros tr s [? ?]. }
    intros u. eapply triple_bind with (R := fun _ => I).
    { eapply triple_catch with (R := fun _ => I).
      - eapply triple_bind with
          (R := fun m0 _ s => (pendingTranscripts s = t :: rest /\ processing s = true)
                              /\ pendingTranscripts m0 = t :: rest).
        { apply triple_get. by intros tr s [? ?]. }
        intros m0. apply triple_assume. intros HP0. rewrite HP0. fold left.
        eapply triple_bind with (R := fun _ => I).
        { apply triple_modify. by intros tr s [? ?]. }
        intros u0. eapply triple_bind with (R := fun _ => I).
        { by apply mineContentIdeas_keeps. }
        intros found. apply triple_for_each. intros idea _.
        eapply triple_bind with (R := fun _ => I).
        { apply triple_modify. by intros tr s [? ?]. }
        intros u1. eapply triple_bind with (R := fun _ => I).
        { eapply triple_weaken;
            [apply (save_idea_keeps o I); [by intros tr s|by intros tr s x]
            |done|done|done]. }
        intros saved. by apply triple_ret.
      - intros e. by apply triple_ret. }
    intros u2. eapply triple_bind with
      (R := fun _ _ s => pendingTranscripts s = left /\ processing s = false).
    { apply triple_modify. by intros tr s [? ?]. }
    intros u3. eapply triple_bind with
      (R := fun m1 _ s => (pendingTranscripts s = left /\ processing s = false) /\
                          pendingTranscripts m1 = left).
    { apply triple_get. by intros tr s [? ?]. }
    intros m1. apply triple_assume. intros HP1. rewrite HP1.
    destruct (Nat.ltb_spec 0 (length left)) as [Hmore|Hnone].
    + apply IH. unfold left. rewrite length_drop. simpl in Hfuel. simpl. lia.
    + apply triple_ret. intros tr s [Hleft Hproc]. split; [done|]. split; [|done].
      rewrite Hleft. destruct left; [done|simpl in Hnone; lia].
Qed.

(** C1, on the code as it is. The drafting service answers one batch with two
    ideas whose hooks have the same normal form. The drain of the live queue
    records and persists both and leaves the known-hook set empty, where
    [mineFromTranscripts], given the same transcript and the same answer,
    records one. *)
Theorem drain_records_duplicate_hooks :
  let found := [sample_raw "Ship it"; sample_raw "ship it!"] in
  let o := sample_world found [] "no" in
  let t := transcript_with_content long_text (sample_transcript "t-1") in
  let drained := run o [] (queueTranscript 1 t ContentMiner.init) in
  let mined := run o [] (mineFromTranscripts [t] ContentMiner.init) in
  map (fun r => normalizeHook (r_hook r)) found = ["ship it"; "ship it"] /\
  snd drained = Done true (final_state drained) /\
  map i_hook (JsMap.values (ideas (final_state drained))) = ["Ship it"; "ship it!"] /\
  map i_hook (omap save_call (fst drained)) = ["Ship it"; "ship it!"] /\
  isDuplicate (final_state drained) "ship it!" = false /\
  map i_hook (JsMap.values (ideas (final_state mined))) = ["Ship it"] /\
  map i_hook (omap save_call (fst mined)) = ["Ship it"].
Proof. vm_compute. repeat split; reflexivity. Qed.

(** ** The session table *)

Lemma JsMap_keys_update {V} (m : JsMap.t V) k f :
  JsMap.keys (JsMap.update m k f) = JsMap.keys m.
Proof.
  unfold JsMap.keys. induction m as [|[k0 v0] m IH]; simpl; [done|].
  destruct (String.eqb k0 k); simpl; [done|by rewrite IH].
Qed.

Lemma JsMap_keys_set_in {V} (m : JsMap.t V) k v k' :
  k' ∈ JsMap.keys (JsMap.set m k v) -> k' = k \/ k' ∈ JsMap.keys m.
Proof.
  unfold JsMap.keys. induction m as [|[k0 v0] m IH]; simpl; intros Hk'.
  - apply elem_of_cons in Hk' as [->|Hk']; [by left|by right].
  - destruct (String.eqb_spec k0 k) as [->|Hne]; simpl in *.
    + by right.
    + apply elem_of_cons in Hk' as [->|Hk']; [right; by left|].
      destruct (IH Hk') as [->|?]; [by left|right; by right].
Qed.

Lemma JsMap_keys_set {V} (m : JsMap.t V) k v :
  NoDup (JsMap.keys m) -> NoDup (JsMap.keys (JsMap.set m k v)).
Proof.
  induction m as [|[k0 v0] m IH]; intros Hnd.
  - apply NoDup_singleton.
  - change (NoDup (k0 :: JsMap.keys m)) in Hnd.
    apply NoDup_cons in Hnd as [Hk0 Hnd]. simpl.
    destruct (String.eqb_spec k0 k) as [->|Hne].
    + change (NoDup (k :: JsMap.keys m)). by apply NoDup_cons.
    + change (NoDup (k0 :: JsMap.keys (JsMap.set m k v))).
      apply NoDup_cons. split; [|by apply IH].
      intros Hk. by destruct (JsMap_keys_set_in m k v k0 Hk) as [->|?].
Qed.

Section Counting.
Context (p : InterviewSession -> bool).

Lemma count_update m k f :
  (forall s, p (f s) = true -> p s = true) ->
  (count_in p (JsMap.update m k f) <= count_in p m)%nat.
Proof.
  intros Hf. unfold count_in, JsMap.values.
  induction m as [|[k0 v0] m IH]; simpl; [done|].
  destruct (String.eqb k0 k); simpl.
  - destruct (p (f v0)) eqn:Hpf; [rewrite (Hf _ Hpf); simpl; lia|].
    destruct (p v0); simpl; lia.
  - destruct (p v0); simpl; lia.
Qed.

Lemma count_set m k v :
  (count_in p (JsMap.set m k v) <= count_in p m + (if p v then 1 else 0))%nat.
Proof.
  unfold count_in, JsMap.values.
  induction m as [|[k0 v0] m IH]; simpl.
  - destruct (p v); simpl; lia.
  - destruct (String.eqb k0 k); simpl.
    + destruct (p v), (p v0); simpl; lia.
    + destruct (p v0); simpl; lia.
Qed.

End Counting.

Lemma pings_taken_app id D D' :
  pings_taken id (D ++ D') = (pings_taken id D + pings_taken id D')%nat.
Proof. unfold pings_taken. by rewrite filter_app, length_app. Qed.

Lemma sessions_bounded_more D D' b :
  sessions_bounded D b -> sessions_bounded (D ++ D') b.
Proof.
  intros [Hnd Hle]. split; [done|]. intros id. specialize (Hle id).
  rewrite pings_taken_app. lia.
Qed.

Lemma sessions_bounded_same D b b' :
  activeSessions b' = activeSessions b ->
  sessions_bounded D b -> sessions_bounded D b'.
Proof.
  intros Heq [Hnd Hle]. unfold sessions_bounded, active_sessions_for.
  rewrite Heq. done.
Qed.

(** A change to a session that does not make it active for an idea keeps the
    bound. *)
Lemma sessions_bounded_upd D b key f :
  (forall s id, is_active_for id (f s) = true -> is_active_for id s = true) ->
  sessions_bounded D b -> sessions_bounded D (upd_session key f b).
Proof.
  intros Hf [Hnd Hle]. split.
  - unfold upd_session. simpl. by rewrite JsMap_keys_update.
  - intros id. specialize (Hle id). unfold active_sessions_for, upd_session in *.
    simpl. pose proof (count_update (is_active_for id) (activeSessions b) key f
                         (fun s => Hf s id)). lia.
Qed.

Lemma push_not_more_active m s id :
  is_active_for id (session_push m s) = true -> is_active_for id s = true.
Proof. done. Qed.

Lemma completedAt_not_more_active n s id :
  is_active_for id (session_with_completedAt n s) = true -> is_active_for id s = true.
Proof. done. Qed.

Lemma ended_not_more_active st s id :
  st <> active ->
  is_active_for id (session_with_status st s) = true -> is_active_for id s = true.
Proof.
  intros Hst. unfold is_active_for. simpl.
  rewrite (bool_decide_eq_false_2 (st = active)) by done.
  by rewrite andb_false_r.
Qed.

(** The content ping that the chat took pays for the session that is
    entered. *)
Lemma sessions_bounded_enter pinged D b ts session :
  s_ideaId session = pinged ->
  sessions_bounded D b ->
  sessions_bounded (D ++ [pinged])
    (set_activeSessions (JsMap.set (activeSessions b) ts session) b).
Proof.
  intros Hid [Hnd Hle]. split.
  - simpl. by apply JsMap_keys_set.
  - intros id. specialize (Hle id). unfold active_sessions_for in *. simpl.
    pose proof (count_set (is_active_for id) (activeSessions b) ts session) as Hc.
    rewrite pings_taken_app. unfold pings_taken at 2.
    rewrite filter_cons, filter_nil.
    assert ((if is_active_for id session then 1 else 0)
            <= length (if decide (pinged = id) then [pinged] else []))%nat as Hone.
    { unfold is_active_for. rewrite Hid.
      case_decide; repeat case_bool_decide; simpl; first [lia|congruence]. }
    lia.
Qed.

(** C2, as the claim has it, fails: with one idea in the registry, the owner
    sends [1] twice. Each message starts an interview for the first idea, and
    both sessions are active afterwards. *)
Lemma two_active_sessions_for_one_idea :
  let o := sample_world [] [] "no" in
  let es := [Message (sample_message_at "100.1" "1");
             Message (sample_message_at "100.2" "1")] in
  let st := run_events o ([], SlackBot.init "U1" sample_registry) es in
  map (fun s => (s_ideaId s, s_status s)) (JsMap.values (activeSessions (snd st)))
    = [("idea-1", active); ("idea-1", active)] /\
  active_sessions_for "idea-1" (snd st) = 2%nat /\
  ~ (forall id, (active_sessions_for id (snd st) <= 1)%nat).
Proof.
  intros o es st.
  assert (active_sessions_for "idea-1" (snd st) = 2%nat) as Htwo
    by (vm_compute; reflexivity).
  split; [vm_compute; reflexivity|]. split; [exact Htwo|].
  intros Hone. specialize (Hone "idea-1"). rewrite Htwo in Hone. lia.
Qed.

(** ** The session table when handlers interleave *)

Lemma safe_bindP {A B} (p : prog Bot A) (f : A -> M Bot B) D :
  safe D p -> (forall a, safeM (f a)) -> safe D (bindP p f).
Proof.
  intros Hp Hf. revert D Hp.
  induction p as [a s|e s|X q k IH|X s c k IH]; intros D Hp; simpl in *.
  - by apply Hf.
  - done.
  - intros x. by apply IH.
  - destruct Hp as [Hb Hk]. split; [done|].
    intros r D' b' Hb'. apply IH. by apply Hk.
Qed.

Lemma safe_catchP {A} (p : prog Bot A) (h : string -> M Bot A) D :
  safe D p -> (forall e, safeM (h e)) -> safe D (catchP p h).
Proof.
  intros Hp Hh. revert D Hp.
  induction p as [a s|e s|X q k IH|X s c k IH]; intros D Hp; simpl in *.
  - done.
  - by apply Hh.
  - intros x. by apply IH.
  - destruct Hp as [Hb Hk]. split; [done|].
    intros r D' b' Hb'. apply IH. by apply Hk.
Qed.

Lemma safeM_bind {A B} (m : M Bot A) (f : A -> M Bot B) :
  safeM m -> (forall a, safeM (f a)) -> safeM (bind m f).
Proof. intros Hm Hf D b Hb. apply safe_bindP; [by apply Hm|done]. Qed.

Lemma safeM_catch {A} (m : M Bot A) (h : string -> M Bot A) :
  safeM m -> (forall e, safeM (h e)) -> safeM (try_catch m h).
Proof. intros Hm Hh D b Hb. apply safe_catchP; [by apply Hm|exact Hh]. Qed.

Lemma safeM_ret {A} (a : A) : safeM (ret a).
Proof. by intros D b Hb. Qed.

Lemma safeM_get : safeM get.
Proof. by intros D b Hb. Qed.

Lemma safeM_ask {X} (q : query X) : safeM (ask q).
Proof. by intros D b Hb x. Qed.

(** Whatever the request and its answer: the pings taken only grow. *)
Lemma safeM_await {X} (c : call X) : safeM (await c).
Proof.
  intros D b Hb. simpl. split; [done|].
  intros [x|e] D' b' Hb'; simpl; by apply sessions_bounded_more.
Qed.

Lemma safeM_modify (f : Bot -> Bot) :
  (forall D b, sessions_bounded D b -> sessions_bounded D (f b)) ->
  safeM (modify f).
Proof. intros Hf D b Hb. simpl. by apply Hf. Qed.

Lemma safeM_for_each {X} (xs : list X) (body : X -> M Bot unit) :
  (forall x, safeM (body x)) -> safeM (for_each xs body).
Proof.
  intros Hb. induction xs as [|x xs IH]; simpl.
  - apply safeM_ret.
  - apply safeM_bind; [apply Hb|]. intros u. apply IH.
Qed.

Lemma safe_zoom_miner {A} (p : prog Miner A) outer D :
  sessions_bounded D outer ->
  safe D (zoomP miner set_miner p outer).
Proof.
  revert outer D.
  induction p as [a t|e t|X q k IH|X t c k IH]; intros outer D Hb; simpl.
  - by eapply sessions_bounded_same.
  - by eapply sessions_bounded_same.
  - intros x. by apply IH.
  - split.
    + by eapply sessions_bounded_same.
    + intros r D' b' Hb'. apply IH. by apply sessions_bounded_more.
Qed.

Lemma safeM_in_miner {A} (m : M Miner A) : safeM (in_miner m).
Proof. intros D b Hb. unfold in_miner, zoom. by apply safe_zoom_miner. Qed.

(** One step of a proof that a handler keeps the bound wherever it lets go
    of the state. *)
Ltac safe_step :=
  first
    [ lazymatch goal with
      | |- safeM (Async.bind _ _) => apply safeM_bind; [|intros ?]
      | |- safeM (try_catch _ _) => apply safeM_catch; [|intros ?]
      | |- safeM (ret _) => apply safeM_ret
      | |- safeM get => apply safeM_get
      | |- safeM (await _) => apply safeM_await
      | |- safeM (ask _) => apply safeM_ask
      | |- safeM (for_each _ _) => apply safeM_for_each; intros ?
      | |- safeM (in_miner _) => apply safeM_in_miner
      | |- safeM (match ?x with _ => _ end) => destruct x
      | |- safeM (if ?x then _ else _) => destruct x
      end
    | apply safeM_modify; intros ? ? ?;
        first [ by eapply sessions_bounded_same
              | apply sessions_bounded_upd; [|done]; intros ? ?;
                first [ apply push_not_more_active
                      | apply completedAt_not_more_active
                      | by apply ended_not_more_active ] ] ].

Lemma say_safe channel text thread : safeM (say channel text thread).
Proof. unfold say. repeat safe_step. Qed.

Lemma tell_owner_safe text : safeM (tell_owner text).
Proof. unfold tell_owner. repeat safe_step. Qed.

Lemma save_draft_safe d : safeM (save_draft d).
Proof. unfold save_draft. repeat safe_step. Qed.

Lemma sendDraftNotification_safe d idea : safeM (sendDraftNotification d idea).
Proof. unfold sendDraftNotification. repeat safe_step. Qed.

(** A content ping enters its session in the turn in which the chat's answer
    comes in, and only when the answer carries a thread anchor: the ping is
    taken in the same turn. *)
Lemma sendContentPing_safe idea : safeM (sendContentPing idea).
Proof.
  unfold sendContentPing, AIBrain.generateInterviewOpener.
  apply safeM_bind; [repeat safe_step|]. intros opener.
  intros D b Hb. unfold Async.bind, get, await. cbn [bindP].
  split; [done|]. intros r D' b' Hb'.
  destruct r as [ts|e]; cbn [bindP ping_taken option_list].
  2:{ simpl. by apply sessions_bounded_more. }
  destruct (truthy ts) as [ts'|]; cbn [option_list p_ideaId].
  2:{ simpl. by apply sessions_bounded_more. }
  unfold ask, modify. cbn [bindP]. intros t1 t2 t3.
  apply safeM_in_miner. by apply sessions_bounded_enter.
Qed.

Lemma handleInterviewReply_safe key held userMessage threadTs channel :
  safeM (handleInterviewReply key held userMessage threadTs channel).
Proof.
  unfold handleInterviewReply, AIBrain.hasEnoughMaterial, AIBrain.generateDraft,
    AIBrain.generateFollowUp, AIBrain.syndicateToXThread.
  repeat first [apply say_safe | apply tell_owner_safe | apply save_draft_safe
               | apply sendDraftNotification_safe | safe_step].
Qed.

Lemma handleReworkFeedback_safe feedback channel :
  safeM (handleReworkFeedback feedback channel).
Proof.
  unfold handleReworkFeedback, AIBrain.reworkDraft.
  repeat first [apply say_safe | apply save_draft_safe
               | apply sendDraftNotification_safe | safe_step].
Qed.

Lemma handleCommand_safe text channel : safeM (handleCommand text channel).
Proof.
  unfold handleCommand, handleStatusCommand, handleIdeasCommand, handleMineCommand,
    handleDraftCommand, handleHelpCommand.
  repeat first [apply say_safe | apply sendContentPing_safe | safe_step].
Qed.

Lemma on_message_safe msg : safeM (on_message msg).
Proof.
  unfold on_message, dispatch.
  repeat first [apply say_safe | apply handleInterviewReply_safe
               | apply handleReworkFeedback_safe | apply handleCommand_safe
               | safe_step].
Qed.

Lemma on_interactive_safe payload : safeM (on_interactive payload).
Proof.
  unfold on_interactive, on_action, AIBrain.syndicateToXThread.
  repeat first [apply tell_owner_safe | safe_step].
Qed.

Lemma handle_safe e : safeM (handle e).
Proof.
  destruct e as [msg|payload|idea|registry]; simpl.
  - apply on_message_safe.
  - apply on_interactive_safe.
  - apply safeM_catch; [apply sendContentPing_safe|]. intros e. apply safeM_ret.
  - apply safeM_modify. intros D b Hb. by eapply sessions_bounded_same.
Qed.

(** A handler that is safe runs to its next [await] keeping the bound, and
    what waits there is safe. *)
Lemma segment_safe p tr tr' b' next D :
  segment p tr tr' b' next ->
  safe D p ->
  sessions_bounded D b' /\
  match next with
  | None => True
  | Some t => task_safe t
  end.
Proof.
  induction 1 as [u b tr|e b tr|X q k x tr tr' b' next Hseg IH|X c k b tr];
    intros Hsafe; simpl in Hsafe.
  - done.
  - done.
  - apply IH, Hsafe.
  - destruct Hsafe as [Hb Hk]. split; [done|].
    intros r D' b' Hb'. simpl. by apply Hk.
Qed.

Lemma pool_step_ok w w' : pool_ok w -> pool_step w w' -> pool_ok w'.
Proof.
  intros [Htasks Hb] Hstep.
  destruct Hstep as [w e tr' b' next Hseg|w before t after r tr' b' next Hw Hseg].
  - destruct (segment_safe _ _ _ _ _ (taken w) Hseg) as [Hb' Hnext].
    { by apply handle_safe. }
    split; [|done]. simpl. apply Forall_app. split; [done|].
    destruct next as [t|]; simpl; [by constructor|constructor].
  - rewrite Hw in Htasks.
    apply Forall_app in Htasks as [Hbefore Hrest].
    apply Forall_cons in Hrest as [Ht Hafter].
    destruct (segment_safe _ _ _ _ _
                (taken w ++ option_list (ping_taken (sus_call t) r)) Hseg)
      as [Hb' Hnext].
    { by apply Ht. }
    split; [|done]. simpl. apply Forall_app. split; [done|].
    apply Forall_app. split; [|done].
    destruct next as [t'|]; simpl; [by constructor|constructor].
Qed.

Lemma pool_reachable_ok owner registry w :
  pool_reachable owner registry w -> pool_ok w.
Proof.
  induction 1 as [|w w' Hreach IH Hstep].
  - split; [constructor|]. split.
    + simpl. apply NoDup_nil_2.
    + intros id. unfold active_sessions_for, count_in, pings_taken. simpl. lia.
  - by eapply pool_step_ok.
Qed.

(** *** Pools that are computed *)

Lemma advance_segment (o : oracle) (p : prog Bot unit) (tr : list event) :
  segment p tr (advance o p tr).1.1 (advance o p tr).1.2 (advance o p tr).2.
Proof.
  revert tr. induction p as [a s|e s|X q k IH|X s c k IH]; intros tr; simpl.
  - constructor.
  - constructor.
  - eapply segment_ask. apply IH.
  - constructor.
Qed.

Lemma deliver_step (o : oracle) (e : Event) (w : Pool) : pool_step w (deliver o e w).
Proof.
  unfold deliver. pose proof (advance_segment o (handle e (shared w)) (happened w)) as H.
  destruct (advance o (handle e (shared w)) (happened w)) as [[tr' b'] next].
  exact (pool_event w e tr' b' next H).
Qed.

Lemma resume_step (o : oracle) (i : nat) (w : Pool) :
  (i < length (waiting w))%nat -> pool_step w (resume o i w).
Proof.
  intros Hi. unfold resume.
  destruct (lookup_lt_is_Some_2 _ _ Hi) as [t Ht]. rewrite Ht.
  pose proof (advance_segment o
    (sus_resume t (answer o (sus_type t) (happened w) (sus_call t)) (shared w))
    (happened w)) as H.
  destruct (advance o _ (happened w)) as [[tr' b'] next].
  refine (pool_answer w (take i (waiting w)) t (drop (S i) (waiting w)) _ tr' b' next _ H).
  symmetry. by apply take_drop_middle.
Qed.

Lemma deliver_reachable (o : oracle) owner registry (e : Event) (w : Pool) :
  pool_reachable owner registry w -> pool_reachable owner registry (deliver o e w).
Proof. intros Hw. eapply reachable_step; [exact Hw|apply deliver_step]. Qed.

Lemma resume_reachable (o : oracle) owner registry (i : nat) (w : Pool) :
  pool_reachable owner registry w -> pool_reachable owner registry (resume o i w).
Proof.
  intros Hw. destruct (decide (i < length (waiting w))%nat) as [Hi|Hi].
  - eapply reachable_step; [exact Hw|by apply resume_step].
  - unfold resume. rewrite lookup_ge_None_2 by lia. done.
Qed.

(** C2, as the code has it, with handlers that interleave: however chat
    messages, button clicks, content pings of the scheduler, work on the
    registry and the answers of the outside world follow one another, the
    session table holds one session per thread anchor, and for every idea no
    more active sessions than content pings for it were taken by the chat (a
    ping whose post is rejected, or answered without an anchor, opens no
    session). Nothing looks for a session of the same idea when one is
    entered, so the number of active sessions of an idea is not bounded by
    one. *)
Theorem active_sessions_bounded_by_pings_interleaved (owner : string)
    (registry : Miner) (w : Pool) :
  pool_reachable owner registry w ->
  NoDup (JsMap.keys (activeSessions (shared w))) /\
  forall id, (active_sessions_for id (shared w) <= pings_taken id (taken w))%nat.
Proof.
  intros Hreach. by destruct (pool_reachable_ok owner registry w Hreach) as [_ Hb].
Qed.

(** The owner sends [1] twice, the second message before the first ping is
    posted; both pings are taken, and both sessions are active. *)
Lemma active_sessions_bounded_by_pings_interleaved_witness :
  let o := sample_world [] [] "no" in
  let w := resume o 0 (resume o 0 (resume o 0 (resume o 0
             (deliver o (Message (sample_message_at "100.2" "1"))
                (deliver o (Message (sample_message_at "100.1" "1"))
                   (start "U1" sample_registry)))))) in
  pool_reachable "U1" sample_registry w /\
  waiting w = [] /\
  taken w = ["idea-1"; "idea-1"] /\
  active_sessions_for "idea-1" (shared w) = 2%nat /\
  forall id, (active_sessions_for id (shared w) <= pings_taken id (taken w))%nat.
Proof.
  intros o w.
  assert (pool_reachable "U1" sample_registry w) as Hreach.
  { repeat apply resume_reachable. repeat apply deliver_reachable.
    apply reachable_start. }
  split; [exact Hreach|].
  split; [vm_compute; reflexivity|].
  split; [vm_compute; reflexivity|].
  split; [vm_compute; reflexivity|].
  exact (proj2 (active_sessions_bounded_by_pings_interleaved "U1" sample_registry w
                  Hreach)).
Defined.

(** ** Mining commands that overlap *)

(** C5, on the code as it is. After a restart the cache holds a transcript
    without content. The owner sends [mine] twice, the second message while
    the first handler waits. Both calls of [mineFromTranscripts] pass the
    filter before either has marked the transcript, since the mark is set
    after the content has come in; the first call then marks it and submits
    it, and the second call submits it again, when it is already marked. *)
Theorem overlapping_mine_commands_submit_twice :
  let o := restart_world in
  let t := transcript_with_content long_text (loaded_transcript "t-1" "page-1") in
  let w4 := resume o 1 (deliver o (Message (sample_message_at "100.2" "mine"))
              (resume o 0 (deliver o (Message (sample_message_at "100.1" "mine"))
                 (start "U1" ContentMiner.init)))) in
  let w5 := resume o 0 w4 in
  let w6 := resume o 1 w5 in
  pool_reachable "U1" ContentMiner.init w5 /\
  pool_step w5 w6 /\
  mine_calls (happened w4) = [] /\
  mine_calls (happened w5) = [[t]] /\
  "t-1" ∈ minedTranscriptIds (miner (shared w5)) /\
  mine_calls (happened w6) = [[t]; [t]].
Proof.
  intros o t w4 w5 w6.
  split. { repeat first [apply resume_reachable | apply deliver_reachable].
           apply reachable_start. }
  split. { apply resume_step. vm_compute. lia. }
  split; [vm_compute; reflexivity|].
  split; [vm_compute; reflexivity|].
  split; [apply (bool_decide_unpack _); vm_compute; exact Logic.I|].
  vm_compute; reflexivity.
Qed.
(** * Further properties of the pipeline *)

(** ** The key of the duplicate check *)

Section Normalize.
Import JsString.

Lemma kept_char_lower (c : ascii) :
  is_lower c || is_digit c || is_space c = true -> to_lower_char c = c.
Proof.
  destruct c as [[] [] [] [] [] [] [] []]; vm_compute; congruence.
Qed.

Lemma letter_no_space (c : ascii) :
  is_lower c || is_digit c = true -> is_space c = false.
Proof.
  destruct c as [[] [] [] [] [] [] [] []]; vm_compute; congruence.
Qed.

Lemma tidy_weaken (s : string) : tidy true s = true -> tidy false s = true.
Proof.
  destruct s as [|c s]; simpl; [done|].
  destruct (is_space c); [|done].
  rewrite andb_false_r. simpl. done.
Qed.

Lemma collapse_tidy (b : bool) (s : string) :
  tidy b (collapse_from b (strip_other s)) = true.
Proof.
  revert b. induction s as [|c s IH]; intros b; simpl; [done|].
  destruct (is_lower c || is_digit c || is_space c) eqn:Hk; [|apply IH].
  simpl. destruct (is_space c) eqn:Hs.
  - destruct b; [apply IH|]. simpl. apply IH.
  - simpl. rewrite Hs. rewrite orb_false_r in Hk. rewrite Hk. simpl. apply IH.
Qed.

Lemma trimStart_tidy (s : string) :
  tidy false s = true -> tidy true (trimStart s) = true.
Proof.
  destruct s as [|c s]; simpl; [done|].
  destruct (is_space c) eqn:Hs; [|simpl; by rewrite Hs].
  intros H. apply andb_prop in H as [_ H].
  destruct s as [|c' s]; [done|].
  simpl in H. simpl. destruct (is_space c') eqn:Hs'.
  - by rewrite andb_false_r in H.
  - simpl. by rewrite Hs'.
Qed.

Lemma trimEnd_tidy (b : bool) (s : string) :
  tidy b s = true -> tidy b (trimEnd s) = true.
Proof.
  revert b. induction s as [|c s IH]; intros b; simpl; [done|].
  destruct (is_space c) eqn:Hs.
  - intros H. apply andb_prop in H as [H1 H2]. specialize (IH true H2).
    destruct (trimEnd s) as [|c' r]; [done|].
    change (tidy b (String c (String c' r)) = true).
    simpl. simpl in IH. rewrite Hs, H1. exact IH.
  - intros H. apply andb_prop in H as [H1 H2]. specialize (IH false H2).
    destruct (trimEnd s) as [|c' r].
    + simpl. by rewrite Hs, H1.
    + change (tidy b (String c (String c' r)) = true).
      simpl. simpl in IH. rewrite Hs, H1. exact IH.
Qed.

Lemma trimEnd_idem (s : string) : trimEnd (trimEnd s) = trimEnd s.
Proof.
  induction s as [|c s IH]; simpl; [done|].
  destruct (trimEnd s) as [|c' r] eqn:Hr.
  - destruct (is_space c) eqn:Hs; simpl; [done|by rewrite Hs].
  - simpl in IH. simpl.
    destruct (trimEnd r) as [|c'' r'] eqn:Hr'.
    + destruct (is_space c') eqn:Hs'; [done|]. by rewrite <- IH.
    + by rewrite IH.
Qed.

Lemma tidy_toLowerCase (b : bool) (s : string) :
  tidy b s = true -> toLowerCase s = s.
Proof.
  revert b. induction s as [|c s IH]; intros b; simpl; [done|].
  destruct (is_space c) eqn:Hs; intros H; apply andb_prop in H as [H1 H2].
  - rewrite kept_char_lower by (rewrite Hs; apply orb_true_r).
    f_equal. by apply (IH true).
  - rewrite kept_char_lower by (rewrite H1; done).
    f_equal. by apply (IH false).
Qed.

Lemma tidy_strip_other (b : bool) (s : string) :
  tidy b s = true -> strip_other s = s.
Proof.
  revert b. induction s as [|c s IH]; intros b; simpl; [done|].
  destruct (is_space c) eqn:Hs; intros H; apply andb_prop in H as [H1 H2].
  - rewrite orb_true_r. f_equal. by apply (IH true).
  - rewrite H1. simpl. f_equal. by apply (IH false).
Qed.

Lemma tidy_collapse (b : bool) (s : string) :
  tidy b s = true -> collapse_from b s = s.
Proof.
  revert b. induction s as [|c s IH]; intros b; simpl; [done|].
  destruct (is_space c) eqn:Hs; intros H; apply andb_prop in H as [H1 H2].
  - apply andb_prop in H1 as [Hc Hb]. destruct b; [done|].
    apply Ascii.eqb_eq in Hc. subst c. f_equal. by apply IH.
  - f_equal. by apply IH.
Qed.

Lemma tidy_trimStart (s : string) : tidy true s = true -> trimStart s = s.
Proof.
  destruct s as [|c s]; simpl; [done|].
  destruct (is_space c); [|done]. by rewrite andb_false_r.
Qed.

Lemma normalize_tidy (s : string) :
  tidy true (normalize s) = true /\ trimEnd (normalize s) = normalize s.
Proof.
  unfold normalize, trim, collapse_spaces. split.
  - apply trimEnd_tidy, trimStart_tidy, collapse_tidy.
  - apply trimEnd_idem.
Qed.

Lemma tidy_normalize (s : string) :
  tidy true s = true -> trimEnd s = s -> normalize s = s.
Proof.
  intros Ht He. unfold normalize, trim, collapse_spaces.
  rewrite (tidy_toLowerCase true) by done.
  rewrite (tidy_strip_other true) by done.
  rewrite (tidy_collapse false) by (by apply tidy_weaken).
  by rewrite tidy_trimStart.
Qed.

End Normalize.

(** X1. The key that [normalizeHook] makes of a hook is in normal form:
    normalizing it again changes nothing, so a hook and its key are
    duplicates of each other, whatever the registry holds. *)
Theorem normalizeHook_is_canonical (m : ContentMiner.Miner) (hook : string) :
  normalizeHook (normalizeHook hook) = normalizeHook hook /\
  isDuplicate m (normalizeHook hook) = isDuplicate m hook.
Proof.
  assert (normalizeHook (normalizeHook hook) = normalizeHook hook) as H.
  { unfold normalizeHook. destruct (normalize_tidy hook) as [Ht He].
    by apply tidy_normalize. }
  split; [exact H|]. unfold isDuplicate. by rewrite H.
Qed.

(** ** The registry of ideas *)

Lemma insert_newest_first_perm (x : ContentIdea) (l : list ContentIdea) :
  insert_newest_first x l ≡ₚ x :: l.
Proof.
  induction l as [|y l IH]; simpl; [done|].
  destruct (i_createdAt y <=? i_createdAt x)%N; [done|].
  rewrite IH. apply perm_swap.
Qed.

Lemma insert_newest_first_sorted (x : ContentIdea) (l : list ContentIdea) :
  newest_first_rec l -> newest_first_rec (insert_newest_first x l).
Proof.
  induction l as [|y l IH]; simpl; [by intros _; split; [constructor|]|].
  intros [Hy Hl]. destruct (i_createdAt y <=? i_createdAt x)%N eqn:Hle.
  - apply N.leb_le in Hle. simpl. split; [|done].
    constructor; [done|]. eapply Forall_impl; [exact Hy|]. simpl. intros z Hz. lia.
  - apply N.leb_gt in Hle. simpl. split; [|by apply IH].
    rewrite insert_newest_first_perm. constructor; [lia|done].
Qed.

Lemma insert_newest_first_created_at (t : N) (x : ContentIdea) (l : list ContentIdea) :
  created_at t (insert_newest_first x l) = created_at t (x :: l).
Proof.
  unfold created_at. induction l as [|y l IH]; [done|].
  cbn [insert_newest_first].
  destruct (i_createdAt y <=? i_createdAt x)%N eqn:Hle; [done|].
  apply N.leb_gt in Hle.
  rewrite (filter_cons _ y (insert_newest_first x l)), IH.
  rewrite !filter_cons.
  destruct (decide (i_createdAt x = t)), (decide (i_createdAt y = t)); try done.
  lia.
Qed.

Lemma newest_first_rec_lookup (l : list ContentIdea) :
  newest_first_rec l -> newest_first l.
Proof.
  induction l as [|x l IH]; intros Hs i j a b Hij Hi Hj.
  - by rewrite lookup_nil in Hi.
  - destruct Hs as [Hx Hl]. destruct j as [|j]; [lia|]. simpl in Hj.
    destruct i as [|i]; simpl in Hi.
    + injection Hi as <-.
      apply (proj1 (Forall_forall _ _) Hx). by eapply list_elem_of_lookup_2.
    + apply (IH Hl i j a b); [lia|done|done].
Qed.

(** X2. [getAllIdeas] answers every idea of the registry exactly once, the
    newest first, and ideas created at the same moment in the order in which
    the registry holds them. *)
Theorem getAllIdeas_newest_first (m : Miner) :
  getAllIdeas m ≡ₚ JsMap.values (ideas m) /\
  newest_first (getAllIdeas m) /\
  forall t, created_at t (getAllIdeas m) = created_at t (JsMap.values (ideas m)).
Proof.
  unfold getAllIdeas. generalize (JsMap.values (ideas m)) as l.
  intros l. split; [|split].
  - induction l as [|x l IH]; simpl; [done|].
    by rewrite insert_newest_first_perm, IH.
  - apply newest_first_rec_lookup.
    induction l as [|x l IH]; simpl; [done|]. by apply insert_newest_first_sorted.
  - intros t. induction l as [|x l IH]; simpl; [done|].
    rewrite insert_newest_first_created_at. unfold created_at in *.
    by rewrite !(filter_cons _ x), IH.
Qed.

(** X3. For an identifier that the registry holds, [updateIdeaStatus] sets
    the status of that idea and of no other, asks the record store once when
    the idea has a page, and answers normally even when the record store
    rejects the update: the status in the registry is set all the same. *)
Theorem updateIdeaStatus_sets_status (o : oracle) (tr : list event) (m : Miner)
    (id : string) (idea : ContentIdea) (status : IdeaStatus) :
  getIdea m id = Some idea ->
  exists m',
    run o tr (updateIdeaStatus id status m)
      = (tr ++ status_request idea status, Done tt m') /\
    getIdea m' id = Some (idea_with_status status idea) /\
    (forall id', id' <> id -> getIdea m' id' = getIdea m id') /\
    minedTranscriptIds m' = minedTranscriptIds m /\
    knownHooks m' = knownHooks m.
Proof.
  intros Hget. unfold getIdea in Hget.
  exists (set_ideas (JsMap.update (ideas m) id (idea_with_status status)) m).
  split; [|split; [|split; [|done]]].
  - unfold updateIdeaStatus, Async.bind, get, status_request. simpl.
    rewrite Hget. simpl.
    destruct (truthy (i_notionPageId idea)) as [page|]; simpl.
    + by destruct (answer o _ tr _) as [[]|e].
    + by rewrite app_nil_r.
  - unfold getIdea. simpl. rewrite JsMap_get_update, String.eqb_refl.
    by rewrite Hget.
  - intros id' Hne. unfold getIdea. simpl. rewrite JsMap_get_update.
    destruct (String.eqb_spec id id'); [congruence|done].
Qed.

Lemma updateIdeaStatus_sets_status_witness :
  getIdea sample_registry "idea-1" = Some (sample_idea "idea-1" "Charge more" ["t-1"]) /\
  exists m',
    run (sample_world [] [] "no") [] (updateIdeaStatus "idea-1" interviewing sample_registry)
      = ([] ++ status_request (sample_idea "idea-1" "Charge more" ["t-1"]) interviewing,
         Done tt m') /\
    getIdea m' "idea-1"
      = Some (idea_with_status interviewing (sample_idea "idea-1" "Charge more" ["t-1"])).
Proof.
  split; [reflexivity|].
  destruct (updateIdeaStatus_sets_status (sample_world [] [] "no") [] sample_registry
              "idea-1" (sample_idea "idea-1" "Charge more" ["t-1"]) interviewing eq_refl)
    as (m' & Hrun & Hget & _).
  exists m'. split; [exact Hrun|exact Hget].
Defined.

Lemma mark_all_mined_frame (tids : list string) (m : Miner) :
  ideas (mark_all_mined tids m) = ideas m /\
  pendingTranscripts (mark_all_mined tids m) = pendingTranscripts m /\
  processing (mark_all_mined tids m) = processing m.
Proof.
  unfold mark_all_mined. revert m.
  induction tids as [|x tids IH]; intros m; simpl; [done|].
  destruct (IH (mark_mined x m)) as (-> & -> & ->). done.
Qed.

Lemma load_idea_step (m m' : Miner) (flag flag' : bool) (x : ContentIdea) :
  load_idea (m, flag) x = (m', flag') ->
  ideas m' = JsMap.set (ideas m) (i_id x) x /\
  (forall tid, tid ∈ minedTranscriptIds m' <->
     tid ∈ minedTranscriptIds m \/ tid ∈ i_sourceTranscriptIds x).
Proof.
  unfold load_idea. set (m1 := add_hook (i_hook x) (put_idea x m)).
  destruct (i_sourceTranscriptIds x) as [|t0 ts] eqn:Hsrc.
  - intros [= <- <-]. split; [done|]. intros tid. simpl.
    rewrite elem_of_nil. tauto.
  - intros [= <- <-]. split.
    + by destruct (mark_all_mined_frame ts (mark_mined t0 m1)) as (-> & _).
    + intros tid. rewrite mark_all_mined_spec, elem_of_cons. simpl. set_solver.
Qed.

(** The table that the loop of [loadFromNotion] builds. *)
Lemma load_idea_fold (loaded : list ContentIdea) (m m' : Miner) (flag flag' : bool) :
  foldl load_idea (m, flag) loaded = (m', flag') ->
  ideas m' = foldl (fun acc idea => JsMap.set acc (i_id idea) idea) (ideas m) loaded /\
  (forall tid, tid ∈ minedTranscriptIds m' <->
     tid ∈ minedTranscriptIds m \/
     exists idea, idea ∈ loaded /\ tid ∈ i_sourceTranscriptIds idea).
Proof.
  revert m flag. induction loaded as [|x loaded IH]; intros m flag.
  - intros [= <- <-]. split; [done|]. intros tid. split; [by left|].
    intros [H|(idea & Hin & _)]; [done|]. by apply elem_of_nil in Hin.
  - change (foldl load_idea (m, flag) (x :: loaded))
      with (foldl load_idea (load_idea (m, flag) x) loaded).
    destruct (load_idea (m, flag) x) as [m2 flag2] eqn:Hstep.
    apply load_idea_step in Hstep as [Hi2 Hm2].
    intros Hf. destruct (IH _ _ Hf) as [Hi Hm]. split.
    + rewrite Hi, Hi2. done.
    + intros tid. rewrite Hm, Hm2. split.
      * intros [[H|H]|(idea & Hin & Ht)].
        -- by left.
        -- right. exists x. split; [by left|done].
        -- right. exists idea. split; [by right|done].
      * intros [H|(idea & Hin & Ht)]; [left; by left|].
        apply elem_of_cons in Hin as [->|Hin].
        -- left. by right.
        -- right. eauto.
Qed.

Lemma JsMap_get_fold_set {V} (key : V -> string) (l : list V) (M : JsMap.t V) (x : V) :
  x ∈ l ->
  exists x', last_under key l (key x) x' /\
    JsMap.get (foldl (fun acc v => JsMap.set acc (key v) v) M l) (key x) = Some x'.
Proof.
  induction l as [|y l IH] using rev_ind; intros Hin.
  - by apply elem_of_nil in Hin.
  - rewrite foldl_snoc, JsMap_get_set.
    destruct (String.eqb_spec (key y) (key x)) as [Heq|Hne].
    + exists y. split; [|done]. exists l, []. by repeat split.
    + apply elem_of_app in Hin as [Hin|Hin].
      * destruct (IH Hin) as (x' & (before & after & -> & Hk & Hafter) & Hget).
        exists x'. split; [|done]. exists before, (after ++ [y]).
        split; [by rewrite <- app_assoc|]. split; [done|].
        apply Forall_app. split; [done|]. by constructor.
      * apply list_elem_of_singleton in Hin. by subst.
Qed.

Lemma JsMap_get_fold_other {V} (key : V -> string) (l : list V) (M : JsMap.t V)
    (k : string) :
  (forall x, x ∈ l -> key x <> k) ->
  JsMap.get (foldl (fun acc v => JsMap.set acc (key v) v) M l) k = JsMap.get M k.
Proof.
  induction l as [|y l IH] using rev_ind; intros Hno; [done|].
  rewrite foldl_snoc, JsMap_get_set.
  destruct (String.eqb_spec (key y) k) as [Heq|Hne].
  - destruct (Hno y); [apply elem_of_app; right; by left|done].
  - apply IH. intros x Hin. apply Hno, elem_of_app. by left.
Qed.

(** X4. [loadFromNotion] never throws. When the record store rejects the
    load, the registry is left as it was. When it answers, every idea of the
    answer can be got by its identifier (the last one loaded under that
    identifier), every source transcript of every loaded idea is marked
    mined, and what was registered under other identifiers, marked mined or
    known as a hook before stays so. *)
Theorem loadFromNotion_restores_registry (o : oracle) (tr : list event) (m : Miner)
    (allTranscriptIds : option (list string)) :
  exists m',
    run o tr (loadFromNotion allTranscriptIds m)
      = (tr ++ [ECall NotionLoadIdeas], Done tt m') /\
    (forall e, answer o _ tr NotionLoadIdeas = Err e -> m' = m) /\
    (forall loaded, answer o _ tr NotionLoadIdeas = Ok loaded ->
       (forall idea, idea ∈ loaded ->
          (exists idea', last_under i_id loaded (i_id idea) idea' /\
                         getIdea m' (i_id idea) = Some idea') /\
          (forall tid, tid ∈ i_sourceTranscriptIds idea ->
                       tid ∈ minedTranscriptIds m')) /\
       (forall id, (forall idea, idea ∈ loaded -> i_id idea <> id) ->
                   getIdea m' id = getIdea m id) /\
       minedTranscriptIds m ⊆ minedTranscriptIds m' /\
       knownHooks m ⊆ knownHooks m').
Proof.
  unfold loadFromNotion, try_catch, Async.bind, await, modify. simpl.
  destruct (answer o _ tr NotionLoadIdeas) as [loaded|e] eqn:Hans; simpl.
  - exists (load_ideas loaded allTranscriptIds m). split; [done|].
    split; [by intros e|]. intros loaded' [= <-].
    unfold load_ideas.
    pose proof (fun h => load_idea_hooks loaded m false h) as Hhooks.
    destruct (foldl load_idea (m, false) loaded) as [m1 flag] eqn:Hfold.
    destruct (load_idea_fold loaded m m1 false flag Hfold) as [Hideas Hmined].
    simpl in Hhooks.
    set (m2 := match flag with
               | true => match allTranscriptIds with
                         | Some tids => mark_all_mined tids m1
                         | None => m1
                         end
               | false => m1
               end).
    assert (ideas m2 = ideas m1) as Hi2.
    { unfold m2. destruct flag, allTranscriptIds as [tids|]; try done.
      by destruct (mark_all_mined_frame tids m1) as (-> & _). }
    assert (knownHooks m2 = knownHooks m1) as Hk2.
    { unfold m2. destruct flag, allTranscriptIds as [tids|]; try done.
      apply mark_all_mined_hooks. }
    assert (minedTranscriptIds m1 ⊆ minedTranscriptIds m2) as Hm2.
    { unfold m2. destruct flag, allTranscriptIds as [tids|]; try done.
      intros tid Htid. apply mark_all_mined_spec. by right. }
    split; [|split; [|split]].
    + intros idea Hin. split.
      * unfold getIdea. rewrite Hi2, Hideas. by apply (JsMap_get_fold_set i_id).
      * intros tid Htid. apply Hm2, Hmined. right. eauto.
    + intros id Hno. unfold getIdea. rewrite Hi2, Hideas.
      by apply (JsMap_get_fold_other i_id).
    + intros tid Htid. apply Hm2, Hmined. by left.
    + intros h Hh. rewrite Hk2. apply Hhooks. by left.
  - exists m. split; [done|]. split; [done|]. by intros loaded.
Qed.

(** ** Mining on demand *)

Lemma filter_none {A} (P : A -> Prop) `{!forall x, Decision (P x)} (l : list A) :
  (forall x, x ∈ l -> ~ P x) -> filter P l = [].
Proof.
  induction l as [|x l IH]; intros Hno; [done|].
  rewrite filter_cons_False by (apply Hno; by left).
  apply IH. intros y Hy. apply Hno. by right.
Qed.

Lemma mineFromTranscripts_nothing_new (m : Miner) (transcripts : list Transcript) :
  (forall t, t ∈ transcripts -> t_id t ∈ minedTranscriptIds m) ->
  mineFromTranscripts transcripts m = Ret [] m.
Proof.
  intros Hmined. destruct transcripts as [|t ts]; [done|].
  unfold mineFromTranscripts, Async.bind, get. cbn [bindP].
  rewrite filter_none; [done|]. intros x Hx Hnot. by apply Hnot, Hmined.
Qed.

(** X5. When every transcript handed to [mineFromTranscripts] is already
    marked mined (or none is handed over), the call is over at once: it
    answers no idea, asks nothing of any service and leaves the registry as it
    is. *)
Theorem mineFromTranscripts_skips_mined (m : Miner) (transcripts : list Transcript) :
  (forall t, t ∈ transcripts -> t_id t ∈ minedTranscriptIds m) ->
  mineFromTranscripts transcripts m = Ret [] m /\
  forall o tr, run o tr (mineFromTranscripts transcripts m) = (tr, Done [] m).
Proof.
  intros Hmined. pose proof (mineFromTranscripts_nothing_new m transcripts Hmined) as Heq.
  split; [exact Heq|]. intros o tr. by rewrite Heq.
Qed.

Lemma mineFromTranscripts_skips_mined_witness :
  let m := mark_mined "t-1" ContentMiner.init in
  (forall t, t ∈ [sample_transcript "t-1"] -> t_id t ∈ minedTranscriptIds m) /\
  mineFromTranscripts [sample_transcript "t-1"] m = Ret [] m.
Proof.
  intros m.
  assert (forall t, t ∈ [sample_transcript "t-1"] -> t_id t ∈ minedTranscriptIds m)
    as Hmined.
  { intros t Ht. apply list_elem_of_singleton in Ht. subst t. simpl. set_solver. }
  split; [exact Hmined|].
  exact (proj1 (mineFromTranscripts_skips_mined m [sample_transcript "t-1"] Hmined)).
Defined.

Section FreshHooks.
Context (o : oracle).

(** Saving an idea answers the idea, with its page when the record store
    gave one, and touches the registry only at fields of ideas it holds. *)
Lemma save_idea_answer (I : Miner -> Prop) (idea : ContentIdea) :
  (forall s k f, I s -> I (set_ideas (JsMap.update (ideas s) k f) s)) ->
  triple o (fun _ s => I s) (save_idea idea)
    (fun idea' _ s => I s /\ hook_key idea' = hook_key idea /\ i_id idea' = i_id idea)
    (fun _ _ _ => False).
Proof.
  intros Hupd. unfold save_idea.
  eapply triple_catch with (R := fun _ _ s => I s).
  - eapply triple_bind with (R := fun _ _ s => I s).
    + apply triple_await. intros tr s HI. by destruct (answer o _ tr _).
    + intros page. eapply triple_bind with (R := fun _ _ s => I s).
      * apply triple_modify. intros tr s HI. by apply Hupd.
      * intros u. by apply triple_ret.
  - intros e. by apply triple_ret.
Qed.

Lemma is_Some_get_update {V} (M : JsMap.t V) k f k' :
  is_Some (JsMap.get M k') -> is_Some (JsMap.get (JsMap.update M k f) k').
Proof.
  intros [v Hv]. rewrite JsMap_get_update, Hv. destruct (String.eqb k k'); by eexists.
Qed.

Lemma is_Some_get_set {V} (M : JsMap.t V) k v k' :
  is_Some (JsMap.get M k') -> is_Some (JsMap.get (JsMap.set M k v) k').
Proof.
  intros [v' Hv]. rewrite JsMap_get_set, Hv. destruct (String.eqb k k'); by eexists.
Qed.

Lemma record_ideas_fresh (K0 : gset string) found allIdeas :
  triple o (fun _ s => fresh_hooks K0 allIdeas s)
    (record_ideas found allIdeas)
    (fun res _ s => fresh_hooks K0 res s)
    (fun _ _ _ => False).
Proof.
  revert allIdeas. induction found as [|idea rest IH]; intros allIdeas; simpl.
  - by apply triple_ret.
  - eapply triple_bind with (R := fun m _ s => m = s /\ fresh_hooks K0 allIdeas s).
    { apply triple_get. auto. }
    intros m. destruct (isDuplicate m (i_hook idea)) eqn:Hdup.
    { eapply triple_weaken; [apply IH| | |]; simpl; [|done|done]. by intros tr s [_ H]. }
    set (I1 := fun s : Miner =>
      knownHooks s = K0 ∪ list_to_set (map hook_key (allIdeas ++ [idea])) /\
      NoDup (map hook_key (allIdeas ++ [idea])) /\
      (forall i, i ∈ allIdeas ++ [idea] -> hook_key i ∉ K0) /\
      (forall i, i ∈ allIdeas ++ [idea] -> is_Some (getIdea s (i_id i)))).
    eapply triple_bind with (R := fun _ _ s => I1 s).
    { apply triple_modify. intros tr s [-> (HK & Hnd & Hnew & Hreg)].
      assert (hook_key idea ∉ knownHooks s) as Hfresh.
      { intros Hin. apply isDuplicate_true in Hin. congruence. }
      rewrite HK in Hfresh. unfold I1. rewrite map_app. simpl.
      split; [|split; [|split]].
      - rewrite HK, list_to_set_app_L. simpl. fold (hook_key idea). set_solver.
      - apply NoDup_app. split; [done|]. split; [|apply NoDup_singleton].
        intros h Hh Hh'. apply list_elem_of_singleton in Hh'. subst h.
        apply Hfresh. apply elem_of_union. right. by apply elem_of_list_to_set.
      - intros i Hi. apply elem_of_app in Hi as [Hi|Hi]; [by apply Hnew|].
        apply list_elem_of_singleton in Hi. subst i. set_solver.
      - intros i Hi. unfold getIdea. simpl. apply elem_of_app in Hi as [Hi|Hi].
        + apply is_Some_get_set. by apply Hreg.
        + apply list_elem_of_singleton in Hi. subst i.
          rewrite JsMap_get_set, String.eqb_refl. by eexists. }
    intros u. eapply triple_bind.
    { apply (save_idea_answer I1). intros s k f (HK & Hnd & Hnew & Hreg).
      split; [done|]. split; [done|]. split; [done|].
      intros i Hi. unfold getIdea. simpl. apply is_Some_get_update. by apply Hreg. }
    intros idea'. simpl.
    apply triple_weaken with
      (P' := fun tr s => fresh_hooks K0 (allIdeas ++ [idea']) s /\
                         (hook_key idea' = hook_key idea /\ i_id idea' = i_id idea))
      (Q' := fun res _ s => fresh_hooks K0 res s)
      (E' := fun _ _ _ => False); [|
        |done|done].
    + apply triple_assume. intros _. apply IH.
    + intros tr s ((HK & Hnd & Hnew & Hreg) & Hkey & Hid). split; [|done].
      unfold fresh_hooks. rewrite !map_app in *. simpl in *. rewrite Hkey.
      split; [done|]. split; [done|]. split.
      * intros i Hi. apply elem_of_app in Hi as [Hi|Hi].
        -- apply Hnew, elem_of_app. by left.
        -- apply list_elem_of_singleton in Hi. subst i. unfold hook_key in Hkey |- *.
           rewrite Hkey. apply (Hnew idea). apply elem_of_app. right. by left.
      * intros i Hi. apply elem_of_app in Hi as [Hi|Hi].
        -- apply Hreg, elem_of_app. by left.
        -- apply list_elem_of_singleton in Hi. subst i. rewrite Hid.
           apply (Hreg idea). apply elem_of_app. right. by left.
Qed.

Lemma mine_batches_fresh (K0 : gset string) fuel i withContent allIdeas :
  triple o (fun _ s => fresh_hooks K0 allIdeas s)
    (mine_batches fuel i withContent allIdeas)
    (fun res _ s => fresh_hooks K0 res s)
    (fun _ _ _ => False).
Proof.
  revert i allIdeas. induction fuel as [|fuel IH]; intros i allIdeas; simpl.
  - by apply triple_ret.
  - destruct (i <? length withContent)%nat; [|by apply triple_ret].
    eapply triple_bind with (R := fun res _ s => fresh_hooks K0 res s); [|intros; apply IH].
    eapply triple_catch with (R := fun _ _ s => fresh_hooks K0 allIdeas s).
    + eapply triple_bind with (R := fun _ _ s => fresh_hooks K0 allIdeas s).
      * apply (mineContentIdeas_keeps o (fun _ s => fresh_hooks K0 allIdeas s)).
        by intros tr s e.
      * intros found.
        eapply triple_weaken; [apply (record_ideas_fresh K0)|done|done|done].
    + intros e. by apply triple_ret.
Qed.

(** Loading the contents writes to the set of mined transcripts only. *)
Lemma load_contents_frame (I : Miner -> Prop) unmined withContent :
  (forall s tid, I s -> I (mark_mined tid s)) ->
  triple o (fun _ s => I s) (load_contents unmined withContent)
    (fun _ _ s => I s) (fun _ _ _ => False).
Proof.
  intros Hmark. revert withContent.
  induction unmined as [|t rest IH]; intros withContent; simpl.
  - by apply triple_ret.
  - eapply triple_bind with (R := fun _ _ s => I s).
    { destruct (has_content (t_content t)); [by apply triple_ret|].
      destruct (truthy (t_notionPageId t)) as [page|]; [|by apply triple_ret].
      eapply triple_catch with (R := fun _ _ s => I s).
      - eapply triple_bind with (R := fun _ _ s => I s).
        + apply triple_await. intros tr s HI. by destruct (answer o _ tr _).
        + intros c. destruct (has_content c); by apply triple_ret.
      - intros e. by apply triple_ret. }
    intros wc. eapply triple_bind with (R := fun _ _ s => I s); [|intros; apply IH].
    apply triple_modify. intros tr s HI. by apply Hmark.
Qed.

Lemma mineFromTranscripts_fresh (K0 : gset string) transcripts :
  triple o (fun _ s => knownHooks s = K0)
    (mineFromTranscripts transcripts)
    (fun res _ s => fresh_hooks K0 res s)
    (fun _ _ _ => False).
Proof.
  assert (forall s : Miner, knownHooks s = K0 -> fresh_hooks K0 [] s) as Hstart.
  { intros s HK. split; [simpl; set_solver|]. split; [constructor|].
    split; intros i Hi; by apply elem_of_nil in Hi. }
  unfold mineFromTranscripts. destruct transcripts as [|t0 ts0].
  { apply triple_ret. intros tr s. apply Hstart. }
  eapply triple_bind with (R := fun _ _ s => fresh_hooks K0 [] s).
  { apply triple_get. intros tr s. apply Hstart. }
  intros m. destruct (filter _ (t0 :: ts0)) as [|u0 us0]; [by apply triple_ret|].
  eapply triple_bind with (R := fun _ _ s => fresh_hooks K0 [] s).
  { apply (load_contents_frame (fresh_hooks K0 [])). by intros s tid. }
  intros wc. destruct wc as [|w0 ws0]; [by apply triple_ret|].
  apply mine_batches_fresh.
Qed.

End FreshHooks.

(** X6. Whatever the services answer, the ideas that [mineFromTranscripts]
    hands back have hooks that are pairwise different under [normalizeHook];
    none of them was a duplicate when the call began; the set of known hooks
    has grown by exactly their keys; and each of them is registered under its
    identifier. *)
Theorem mineFromTranscripts_answers_new_hooks (o : oracle) (tr : list event)
    (m : Miner) (transcripts : list Transcript) :
  exists tr' found m',
    run o tr (mineFromTranscripts transcripts m) = (tr', Done found m') /\
    NoDup (map hook_key found) /\
    (forall idea, idea ∈ found -> isDuplicate m (i_hook idea) = false) /\
    knownHooks m' = knownHooks m ∪ list_to_set (map hook_key found) /\
    (forall idea, idea ∈ found -> is_Some (getIdea m' (i_id idea))).
Proof.
  pose proof (mineFromTranscripts_fresh o (knownHooks m) transcripts tr m eq_refl) as H.
  destruct (run o tr (mineFromTranscripts transcripts m)) as [tr' [found m'|e m']];
    [|done].
  exists tr', found, m'. destruct H as (HK & Hnd & Hnew & Hreg).
  split; [done|]. split; [done|]. split; [|done].
  intros idea Hin. destruct (isDuplicate m (i_hook idea)) eqn:Hdup; [|done].
  apply isDuplicate_true in Hdup. by destruct (Hnew idea Hin).
Qed.

(** ** What the drafting service is sent *)

Lemma string_length_app (a b : string) :
  String.length (a +:+ b) = (String.length a + String.length b)%nat.
Proof. induction a as [|c a IH]; simpl; [done|]. by rewrite IH. Qed.

Lemma string_length_substring (i n : nat) (s : string) :
  String.length (substring i n s) = (n `min` (String.length s - i))%nat.
Proof.
  revert i n. induction s as [|c s IH]; intros i n.
  - destruct i, n; simpl; lia.
  - destruct i as [|i].
    + destruct n as [|n]; [done|]. simpl. rewrite IH. lia.
    + simpl. apply IH.
Qed.

Lemma truncate_fit (t : Transcript) :
  has_content (t_content t) = true -> fit_to_mine (truncate t).
Proof.
  unfold has_content, fit_to_mine, truncate. intros Hc. apply Nat.ltb_lt in Hc.
  destruct (4000 <? String.length (t_content t))%nat eqn:Hlong.
  - apply Nat.ltb_lt in Hlong. cbn [t_content transcript_with_content].
    rewrite string_length_app. unfold JsString.slice0.
    rewrite string_length_substring.
    change (String.length truncation_note) with 43%nat. lia.
  - apply Nat.ltb_ge in Hlong. lia.
Qed.

Lemma batches_from_sizes fuel i (withContent : list Transcript) :
  Forall (fun batch => (0 < length batch <= batchSize)%nat)
    (batches_from fuel i withContent).
Proof.
  revert i. induction fuel as [|fuel IH]; intros i; simpl; [constructor|].
  destruct (i <? length withContent)%nat; [|constructor].
  apply Forall_app. split; [|apply IH].
  unfold request_for.
  destruct (slice i (i + batchSize) withContent) as [|t batch] eqn:Hs; [constructor|].
  apply Forall_singleton. rewrite <- Hs. split.
  - rewrite Hs. simpl. lia.
  - unfold slice. rewrite length_take. lia.
Qed.

Section Submitted.
Context (o : oracle).

Lemma load_contents_worth C unmined withContent :
  Forall (fun t => has_content (t_content t) = true) withContent ->
  triple o (fun tr _ => mine_calls tr = C) (load_contents unmined withContent)
    (fun wc tr _ => mine_calls tr = C /\
                    Forall (fun t => has_content (t_content t) = true) wc)
    (fun _ _ _ => False).
Proof.
  revert withContent. induction unmined as [|t rest IH]; intros withContent Hwc; simpl.
  - by apply triple_ret.
  - eapply triple_bind with
      (R := fun wc tr _ => mine_calls tr = C /\
                           Forall (fun t => has_content (t_content t) = true) wc).
    { destruct (has_content (t_content t)) eqn:Ht.
      { apply triple_ret. intros tr s HC. split; [done|].
        apply Forall_app. split; [done|]. by apply Forall_singleton. }
      destruct (truthy (t_notionPageId t)) as [page|]; [|by apply triple_ret].
      eapply triple_catch with (R := fun _ tr _ => mine_calls tr = C).
      - eapply triple_bind with (R := fun _ tr _ => mine_calls tr = C).
        + apply triple_await. intros tr s HC.
          assert (mine_calls (tr ++ [ECall (NotionLoadTranscriptContent page)]) = C)
            by (by rewrite mine_calls_quiet).
          by destruct (answer o _ tr _).
        + intros c. destruct (has_content c) eqn:Hc; apply triple_ret; intros tr s HC;
            (split; [done|]); [|done].
          apply Forall_app. split; [done|]. by apply Forall_singleton.
      - intros e. by apply triple_ret. }
    intros wc. apply triple_weaken with
      (P' := fun tr (_ : Miner) =>
               mine_calls tr = C /\ Forall (fun t => has_content (t_content t) = true) wc)
      (Q' := fun wc' tr (_ : Miner) =>
               mine_calls tr = C /\
               Forall (fun t => has_content (t_content t) = true) wc')
      (E' := fun _ _ _ => False); [|done|done|done].
    apply triple_assume. intros Hwc'.
    eapply triple_bind with (R := fun _ tr _ => mine_calls tr = C).
    { by apply triple_modify. }
    intros u. by apply IH.
Qed.

Lemma mineFromTranscripts_submits C transcripts :
  triple o (fun tr _ => mine_calls tr = C) (mineFromTranscripts transcripts)
    (fun _ tr _ =>
       exists L, mine_calls tr = C ++ L /\
         Forall (fun batch => (0 < length batch <= batchSize)%nat /\
                              Forall fit_to_mine batch) L)
    (fun _ _ _ => False).
Proof.
  assert (forall tr : list event, mine_calls tr = C ->
            exists L, mine_calls tr = C ++ L /\
              Forall (fun batch => (0 < length batch <= batchSize)%nat /\
                                   Forall fit_to_mine batch) L) as Hnone.
  { intros tr HC. exists []. by rewrite app_nil_r. }
  unfold mineFromTranscripts. destruct transcripts as [|t0 ts0].
  { apply triple_ret. intros tr s. apply Hnone. }
  eapply triple_bind with (R := fun _ tr _ => mine_calls tr = C).
  { by apply triple_get. }
  intros m. destruct (filter _ (t0 :: ts0)) as [|u0 us0].
  { apply triple_ret. intros tr s. apply Hnone. }
  eapply triple_bind; [apply (load_contents_worth C); constructor|].
  intros wc. apply triple_weaken with
    (P' := fun tr (_ : Miner) =>
             mine_calls tr = C /\ Forall (fun t => has_content (t_content t) = true) wc)
    (Q' := fun (_ : list ContentIdea) tr (_ : Miner) =>
             exists L, mine_calls tr = C ++ L /\
               Forall (fun batch => (0 < length batch <= batchSize)%nat /\
                                    Forall fit_to_mine batch) L)
    (E' := fun _ _ _ => False); [|done|done|done].
  apply triple_assume. intros Hwc.
  destruct wc as [|w0 ws0] eqn:Hwceq.
  { apply triple_ret. intros tr s. apply Hnone. }
  rewrite <- Hwceq in *. clear Hwceq.
  eapply triple_weaken; [apply (mine_batches_spec o C ∅)| | |done].
  - intros tr s HC. split; [done|set_solver].
  - intros found tr s [HC _]. eexists. split; [exact HC|].
    apply Forall_forall. intros batch Hb. split.
    + exact (proj1 (Forall_forall _ _) (batches_from_sizes _ _ _) batch Hb).
    + assert (Forall fit_to_mine (map truncate wc)) as Hfit.
      { apply Forall_forall. intros t Ht.
        apply list_elem_of_In, in_map_iff in Ht as (t1 & <- & Ht1).
        apply truncate_fit.
        apply (proj1 (Forall_forall _ _) Hwc). by apply list_elem_of_In. }
      exact (proj1 (Forall_forall _ _)
               (batches_from_within fit_to_mine _ _ _ Hfit) batch Hb).
Qed.

End Submitted.

(** X7. Every request for ideas that [mineFromTranscripts] makes carries
    between one and ten transcripts, each with a content of more than 50 and
    at most 4043 characters (4000 of the transcript and the note that it was
    cut), whatever the transcripts handed over and whatever the services
    answer. *)
Theorem mineFromTranscripts_batches_fit (o : oracle) (tr : list event) (m : Miner)
    (transcripts : list Transcript) :
  Forall (fun batch => (0 < length batch <= 10)%nat /\ Forall fit_to_mine batch)
    (mine_calls (emitted o tr (mineFromTranscripts transcripts m))).
Proof.
  pose proof (mineFromTranscripts_submits o (mine_calls tr) transcripts tr m eq_refl)
    as H.
  pose proof (mine_calls_emitted o (mineFromTranscripts transcripts m) tr) as Hem.
  destruct (run o tr (mineFromTranscripts transcripts m)) as [tr' [a s'|e s']]; [|done].
  destruct H as (L & HL & HF). by rewrite (Hem L HL).
Qed.

(** ** The live queue, request by request *)

Lemma drain_batches_nil fuel : drain_batches fuel [] = [].
Proof. by destruct fuel. Qed.

Lemma drain_batches_concat fuel (pending : list Transcript) :
  (length pending <= fuel)%nat -> concat (drain_batches fuel pending) = pending.
Proof.
  revert pending. induction fuel as [|fuel IH]; intros pending Hfuel.
  - destruct pending; [done|simpl in Hfuel; lia].
  - destruct pending as [|t rest]; [done|].
    change (drain_batches (S fuel) (t :: rest))
      with (take 5 (t :: rest) :: drain_batches fuel (drop 5 (t :: rest))).
    rewrite concat_cons, IH; [apply take_drop|].
    rewrite length_drop. simpl in *. lia.
Qed.

Lemma drain_batches_sizes fuel (pending : list Transcript) :
  Forall (fun batch => (0 < length batch <= 5)%nat) (drain_batches fuel pending).
Proof.
  revert pending. induction fuel as [|fuel IH]; intros pending; [constructor|].
  destruct pending as [|t rest]; [constructor|].
  change (drain_batches (S fuel) (t :: rest))
    with (take 5 (t :: rest) :: drain_batches fuel (drop 5 (t :: rest))).
  constructor; [|apply IH]. rewrite length_take. cbn [length]. lia.
Qed.

Section Drain.
Context (o : oracle) (M0 K0 : gset string).

Lemma stamp_ideas_draining pending busy C sources i raw :
  triple o (draining pending busy C M0 K0) (AIBrain.stamp_ideas sources i raw)
    (fun _ => draining pending busy C M0 K0) (fun _ _ _ => False).
Proof.
  revert i. induction raw as [|r raw IH]; intros i; simpl.
  - by apply triple_ret.
  - eapply triple_bind with (R := fun _ => draining pending busy C M0 K0).
    { apply triple_ask. intros tr s (? & ? & HC & ? & ?).
      repeat split; try done. by rewrite mine_calls_quiet. }
    intros t. eapply triple_bind with (R := fun _ => draining pending busy C M0 K0).
    { apply triple_ask. intros tr s (? & ? & HC & ? & ?).
      repeat split; try done. by rewrite mine_calls_quiet. }
    intros t'. eapply triple_bind with (R := fun _ => draining pending busy C M0 K0);
      [apply IH|].
    intros rest. by apply triple_ret.
Qed.

Lemma mineContentIdeas_draining pending busy C batch :
  triple o (draining pending busy C M0 K0) (AIBrain.mineContentIdeas batch)
    (fun _ => draining pending busy (C ++ request_for batch) M0 K0)
    (fun _ => draining pending busy (C ++ request_for batch) M0 K0).
Proof.
  unfold AIBrain.mineContentIdeas. destruct batch as [|t batch].
  - apply triple_ret. intros tr s H. simpl. by rewrite app_nil_r.
  - set (b := t :: batch).
    eapply triple_bind with (R := fun _ => draining pending busy (C ++ [b]) M0 K0).
    + apply triple_await. intros tr s (? & ? & HC & ? & ?).
      assert (draining pending busy (C ++ [b]) M0 K0 (tr ++ [ECall (LlmMine b)]) s) as Hm.
      { repeat split; try done. rewrite mine_calls_app, HC. done. }
      by destruct (answer o _ tr (LlmMine b)).
    + intros raw. eapply triple_weaken; [apply stamp_ideas_draining|done|done|done].
Qed.

(** With as much fuel as transcripts are pending, the drain asks for the
    batches of the queue, five transcripts at a time, and ends with an empty
    queue; it marks no transcript mined and learns no hook. *)
Lemma processQueue_submits fuel (pending : list Transcript) C :
  (length pending <= fuel)%nat ->
  triple o (draining pending false C M0 K0)
    (processQueue fuel)
    (fun ok tr s => ok = true /\
       draining [] false (C ++ drain_batches fuel pending) M0 K0 tr s)
    (fun _ _ _ => False).
Proof.
  revert pending C. induction fuel as [|fuel IH]; intros pending C Hfuel.
  - destruct pending; [|simpl in Hfuel; lia]. simpl.
    eapply triple_bind with
      (R := fun m _ s => draining [] false C M0 K0 _ s /\
                         (pendingTranscripts m = [] /\ processing m = false)).
    { apply triple_get. intros tr s H. split; [exact H|]. by destruct H as (? & ? & _). }
    intros m. apply triple_assume. intros [HP Hpr]. rewrite HP, Hpr. simpl.
    apply triple_ret. intros tr s H. by rewrite app_nil_r.
  - simpl.
    eapply triple_bind with
      (R := fun m tr s => draining pending false C M0 K0 tr s /\
                          (pendingTranscripts m = pending /\ processing m = false)).
    { apply triple_get. intros tr s H. split; [exact H|]. by destruct H as (? & ? & _). }
    intros m. apply triple_assume. intros [HP Hpr]. rewrite HP, Hpr. clear m HP Hpr.
    destruct pending as [|t rest]; simpl orb; simpl Nat.eqb; cbv iota.
    { apply triple_ret. intros tr s H. by rewrite app_nil_r. }
    set (left := drop 5 (t :: rest)).
    set (batch := take 5 (t :: rest)).
    assert (request_for batch = [batch]) as Hreq by done.
    set (I := draining left true (C ++ [batch]) M0 K0).
    eapply triple_bind with (R := fun _ => draining (t :: rest) true C M0 K0).
    { apply triple_modify. by intros tr s (? & ? & ? & ? & ?). }
    intros u. eapply triple_bind with (R := fun _ => I).
    { eapply triple_catch with (R := fun _ => I).
      - eapply triple_bind with
          (R := fun m0 tr s => draining (t :: rest) true C M0 K0 tr s
                               /\ pendingTranscripts m0 = t :: rest).
        { apply triple_get. intros tr s H. split; [exact H|]. by destruct H as (? & _). }
        intros m0. apply triple_assume. intros HP0. rewrite HP0. fold left. fold batch.
        eapply triple_bind with (R := fun _ => draining left true C M0 K0).
        { apply triple_modify. by intros tr s (? & ? & ? & ? & ?). }
        intros u0. eapply triple_bind with (R := fun _ => I).
        { unfold I. rewrite <- Hreq. apply mineContentIdeas_draining. }
        intros found. apply triple_for_each. intros idea _.
        eapply triple_bind with (R := fun _ => I).
        { apply triple_modify. by intros tr s (? & ? & ? & ? & ?). }
        intros u1. eapply triple_bind with (R := fun _ => I).
        { eapply triple_weaken; [apply (save_idea_keeps o I)|done|done|done].
          - intros tr s (? & ? & HC & ? & ?). repeat split; try done.
            by rewrite mine_calls_quiet.
          - by intros tr s x (? & ? & ? & ? & ?). }
        intros saved. by apply triple_ret.
      - intros e. by apply triple_ret. }
    intros u2. eapply triple_bind with
      (R := fun _ => draining left false (C ++ [batch]) M0 K0).
    { apply triple_modify. by intros tr s (? & ? & ? & ? & ?). }
    intros u3. eapply triple_bind with
      (R := fun m1 tr s => draining left false (C ++ [batch]) M0 K0 tr s /\
                           pendingTranscripts m1 = left).
    { apply triple_get. intros tr s H. split; [exact H|]. by destruct H as (? & _). }
    intros m1. apply triple_assume. intros HP1. rewrite HP1.
    change (drain_batches (S fuel) (t :: rest)) with (batch :: drain_batches fuel left).
    destruct (Nat.ltb_spec 0 (length left)) as [Hmore|Hnone].
    + eapply triple_weaken; [apply (IH left (C ++ [batch]))|done| |done].
      * unfold left. rewrite length_drop. simpl in Hfuel. simpl. lia.
      * intros ok tr s [Hok H]. split; [done|]. by rewrite <- app_assoc in H.
    + apply triple_ret. intros tr s H. split; [done|].
      assert (left = []) as Hl by (destruct left; [done|simpl in Hnone; lia]).
      rewrite Hl in *. by rewrite drain_batches_nil.
Qed.

End Drain.

(** X8. [queueTranscript] on a miner whose drain is under way only adds the
    transcript to the queue. On an idle miner it drains the queue: every
    pending transcript and the new one are handed to the drafting service
    exactly once and in their order, at most five in a request; the call ends
    normally with an empty queue and the miner idle again, whatever the
    services answer. The drain marks no transcript mined and adds no hook to
    the known ones. *)
Theorem queueTranscript_submits_each_once (o : oracle) (tr : list event) (m : Miner)
    (t : Transcript) (fuel : nat) :
  (processing m = true ->
     queueTranscript fuel t m
       = Ret true (set_pendingTranscripts (pendingTranscripts m ++ [t]) m)) /\
  (processing m = false -> (length (pendingTranscripts m) < fuel)%nat ->
     exists tr' m',
       run o tr (queueTranscript fuel t m) = (tr', Done true m') /\
       pendingTranscripts m' = [] /\ processing m' = false /\
       concat (mine_calls (emitted o tr (queueTranscript fuel t m)))
         = pendingTranscripts m ++ [t] /\
       Forall (fun batch => (0 < length batch <= 5)%nat)
         (mine_calls (emitted o tr (queueTranscript fuel t m))) /\
       minedTranscriptIds m' = minedTranscriptIds m /\
       knownHooks m' = knownHooks m).
Proof.
  split.
  - intros Hbusy. unfold queueTranscript, Async.bind, modify, get. simpl.
    by rewrite Hbusy.
  - intros Hidle Hfuel.
    set (pending := pendingTranscripts m ++ [t]).
    assert (length pending <= fuel)%nat as Hlen.
    { unfold pending. rewrite length_app. simpl. lia. }
    assert (draining pending false (mine_calls tr) (minedTranscriptIds m)
              (knownHooks m) tr (set_pendingTranscripts pending m)) as Hpre.
    { by repeat split. }
    pose proof (processQueue_submits o (minedTranscriptIds m) (knownHooks m) fuel
                  pending (mine_calls tr) Hlen tr
                  (set_pendingTranscripts pending m) Hpre) as H.
    pose proof (mine_calls_emitted o (queueTranscript fuel t m) tr) as Hem.
    assert (queueTranscript fuel t m
            = processQueue fuel (set_pendingTranscripts pending m)) as Heq.
    { unfold queueTranscript, Async.bind, modify, get. simpl. by rewrite Hidle. }
    rewrite Heq in *.
    destruct (run o tr (processQueue fuel (set_pendingTranscripts pending m)))
      as [tr' [ok m'|e m']].
    2:{ done. }
    destruct H as [-> (HP & Hpr & HC & HM & HK)].
    exists tr', m'. split; [done|]. split; [done|]. split; [done|].
    rewrite (Hem _ HC). split; [by apply drain_batches_concat|].
    split; [apply drain_batches_sizes|done].
Qed.

(** ** Identifiers of ideas *)

Lemma pretty_N_char_digit (x : N) : JsString.is_digit (pretty_N_char x) = true.
Proof. unfold pretty_N_char. by repeat case_match. Qed.

Lemma pretty_N_go_digits (x : N) (s : string) :
  all_digits s = true -> all_digits (pretty_N_go x s) = true.
Proof.
  revert s. induction (N.lt_wf_0 x) as [x _ IH]; intros s Hs.
  assert (x = 0 \/ 0 < x)%N as [->|Hpos] by lia.
  - by rewrite pretty_N_go_0.
  - rewrite pretty_N_go_step by done. apply IH.
    + by apply N.div_lt.
    + simpl. by rewrite pretty_N_char_digit.
Qed.

Lemma pretty_N_digits (x : N) : all_digits (pretty x) = true.
Proof.
  unfold pretty, pretty_N. case_decide; [done|]. by apply pretty_N_go_digits.
Qed.

Lemma digits_dash_inj (a b x y : string) :
  all_digits a = true -> all_digits b = true ->
  a +:+ "-" +:+ x = b +:+ "-" +:+ y -> a = b /\ x = y.
Proof.
  revert b. induction a as [|c a IH]; intros [|c' b] Ha Hb Heq; simpl in *.
  - by injection Heq.
  - injection Heq as <- _. done.
  - injection Heq as -> _. done.
  - injection Heq as <- Heq.
    apply andb_prop in Ha as [_ Ha]. apply andb_prop in Hb as [_ Hb].
    destruct (IH b Ha Hb Heq) as [-> ->]. done.
Qed.

Lemma idea_id_inj (t t' : N) (i j : nat) :
  AIBrain.idea_id t i = AIBrain.idea_id t' j -> t = t' /\ i = j.
Proof.
  unfold AIBrain.idea_id. intros H.
  apply (inj (String.app "idea-")) in H.
  apply digits_dash_inj in H as [Ht Hi]; [|apply pretty_N_digits..].
  split; [by apply (inj pretty) in Ht|by apply (inj pretty) in Hi].
Qed.

Lemma stamp_ideas_run {St} (o : oracle) (sources : list string) (raw : list RawIdea)
    (i : nat) (tr : list event) (s : St) :
  exists tr' found,
    run o tr (AIBrain.stamp_ideas sources i raw s) = (tr', Done found s) /\
    map i_hook found = map r_hook raw /\
    Forall (fun idea => i_sourceTranscriptIds idea = sources /\
                        i_status idea = extracted /\
                        i_notionPageId idea = None) found /\
    forall j id, map i_id found !! j = Some id ->
                 exists t, id = AIBrain.idea_id t (i + j).
Proof.
  revert i tr. induction raw as [|r raw IH]; intros i tr.
  - exists tr, []. split; [done|]. split; [done|]. split; [constructor|].
    intros j id Hj. by destruct j.
  - simpl. unfold Async.bind, ask. simpl. rewrite run_bindP.
    set (tr1 := (tr ++ [EAsk Now]) ++ [EAsk Now]).
    destruct (IH (S i) tr1) as (tr' & rest & Hrun & Hhooks & Hall & Hids).
    rewrite Hrun. simpl. eexists tr', (_ :: rest). split; [reflexivity|].
    split; [simpl; by rewrite Hhooks|]. split; [by constructor|].
    intros [|j] id Hj; simpl in Hj.
    + injection Hj as <-. rewrite Nat.add_0_r. by eexists.
    + destruct (Hids j id Hj) as [t ->]. exists t. f_equal. lia.
Qed.

(** X9. When the drafting service answers a batch, [mineContentIdeas] makes
    one idea of each idea of the answer, in order; the identifiers of these
    ideas are pairwise different, whatever the clock reads; each idea names
    every transcript of the batch as its source, has status [extracted] and
    no page yet. The state is not touched. *)
Theorem mineContentIdeas_stamps_ideas {St} (o : oracle) (tr : list event) (s : St)
    (batch : list Transcript) (raw : list RawIdea) :
  batch <> [] ->
  answer o _ tr (LlmMine batch) = Ok raw ->
  exists tr' found,
    run o tr (AIBrain.mineContentIdeas batch s) = (tr', Done found s) /\
    map i_hook found = map r_hook raw /\
    NoDup (map i_id found) /\
    Forall (stamped_from batch) found.
Proof.
  intros Hne Hans. unfold AIBrain.mineContentIdeas.
  destruct batch as [|t0 batch]; [done|].
  unfold Async.bind, await. simpl. rewrite Hans. simpl.
  destruct (stamp_ideas_run o (map t_id (t0 :: batch)) raw 0
              (tr ++ [ECall (LlmMine (t0 :: batch))]) s)
    as (tr' & found & Hrun & Hhooks & Hall & Hids).
  exists tr', found. split; [exact Hrun|]. split; [exact Hhooks|].
  split; [|exact Hall].
  apply NoDup_alt. intros j1 j2 id H1 H2.
  destruct (Hids j1 id H1) as [t1 E1]. destruct (Hids j2 id H2) as [t2 E2].
  rewrite E1 in E2. apply idea_id_inj in E2 as [_ E2]. lia.
Qed.

Lemma mineContentIdeas_stamps_ideas_witness :
  let raw := [sample_raw "Charge more"; sample_raw "Ship it"] in
  let batch := [sample_transcript "t-1"; sample_transcript "t-2"] in
  batch <> [] /\
  answer (sample_world raw [] "no") _ [] (LlmMine batch) = Ok raw /\
  exists tr' found,
    run (sample_world raw [] "no") [] (AIBrain.mineContentIdeas batch ContentMiner.init)
      = (tr', Done found ContentMiner.init) /\
    map i_hook found = map r_hook raw /\
    NoDup (map i_id found) /\
    Forall (stamped_from batch) found.
Proof.
  intros raw batch.
  assert (batch <> []) as Hne by done.
  split; [exact Hne|]. split; [reflexivity|].
  exact (mineContentIdeas_stamps_ideas (sample_world raw [] "no") [] ContentMiner.init
           batch raw Hne eq_refl).
Defined.

(** ** The session table and the commands *)

Lemma latest_step_spec (seen : list (string * InterviewSession))
    (r : option (string * InterviewSession)) (x : string * InterviewSession) :
  latest_of seen r -> latest_of (seen ++ [x]) (latest_step r x).
Proof.
  unfold latest_step. intros Hr. case_bool_decide as Hx.
  - destruct r as [e|]; simpl in Hr.
    + destruct Hr as (He & before & after & -> & Hb & Ha).
      destruct (N.ltb_spec (s_startedAt (snd e)) (s_startedAt (snd x))) as [Hlt|Hge].
      * split; [done|]. exists (before ++ e :: after), [].
        split; [done|]. split; [|by intros e' He'%elem_of_nil].
        intros e' He' Hact. apply elem_of_app in He' as [He'|He'].
        { specialize (Hb e' He' Hact). lia. }
        apply elem_of_cons in He' as [->|He']; [done|].
        specialize (Ha e' He' Hact). lia.
      * split; [done|]. exists before, (after ++ [x]).
        split; [by rewrite <- app_assoc|]. split; [done|].
        intros e' He' Hact. apply elem_of_app in He' as [He'|He']; [by apply Ha|].
        apply list_elem_of_singleton in He'. by subst e'.
    + split; [done|]. exists seen, []. split; [done|].
      split; [|by intros e' He'%elem_of_nil].
      intros e' He' Hact. by destruct (Hr e' He').
  - destruct r as [e|]; simpl in *.
    + destruct Hr as (He & before & after & -> & Hb & Ha).
      split; [done|]. exists before, (after ++ [x]).
      split; [by rewrite <- app_assoc|]. split; [done|].
      intros e' He' Hact. apply elem_of_app in He' as [He'|He']; [by apply Ha|].
      apply list_elem_of_singleton in He'. by subst e'.
    + intros e' He'. apply elem_of_app in He' as [He'|He']; [by apply Hr|].
      apply list_elem_of_singleton in He'. by subst e'.
Qed.

Lemma latest_fold_spec (l : list (string * InterviewSession)) :
  latest_of l (foldl latest_step None l).
Proof.
  induction l as [|x l IH] using rev_ind.
  - simpl. by intros e' He'%elem_of_nil.
  - rewrite foldl_snoc. by apply latest_step_spec.
Qed.

(** X10. [getLatestActiveSession] answers an active session than which no
    active session started later, the first such session of the table; it
    answers none exactly when no session of the table is active. *)
Theorem getLatestActiveSession_is_latest (b : Bot) :
  latest_of (activeSessions b) (getLatestActiveSession b).
Proof. unfold getLatestActiveSession. apply latest_fold_spec. Qed.

Lemma JsMap_get_elem {V} (m : JsMap.t V) k v :
  NoDup (JsMap.keys m) -> (k, v) ∈ m -> JsMap.get m k = Some v.
Proof.
  induction m as [|[k0 v0] m IH]; intros Hnd Hin; [by apply elem_of_nil in Hin|].
  simpl in *. apply NoDup_cons in Hnd as [Hk0 Hnd].
  apply elem_of_cons in Hin as [[= -> ->]|Hin].
  - by rewrite String.eqb_refl.
  - destruct (String.eqb_spec k0 k) as [->|Hne]; [|by apply IH].
    destruct Hk0. apply (elem_of_map_1 fst) in Hin. exact Hin.
Qed.

(** X11. On [stop] or [done], [handleCommand] ends the interview that
    [getLatestActiveSession] names and no other: that session becomes
    [abandoned], every other binding of the table stays, and the owner is told
    so. The session is abandoned before the message is posted, so it stays
    abandoned when the chat rejects the message. With no active session the
    bot is left as it is. *)
Theorem stop_abandons_latest_session (o : oracle) (tr : list event) (b : Bot)
    (text channel : string) :
  is_one_of ["stop"; "done"] (JsString.normalize text) = true ->
  NoDup (JsMap.keys (activeSessions b)) ->
  let r := run o tr (handleCommand text channel b) in
  match getLatestActiveSession b with
  | Some (key, session) =>
      fst r = tr ++ [ECall (SlackPostMessage (post channel None TxtStopped))] /\
      final_state r = upd_session key (session_with_status abandoned) b /\
      JsMap.get (activeSessions (final_state r)) key
        = Some (session_with_status abandoned session) /\
      forall key', key' <> key ->
        JsMap.get (activeSessions (final_state r)) key'
          = JsMap.get (activeSessions b) key'
  | None =>
      fst r = tr ++ [ECall (SlackPostMessage (post channel None TxtNothingToStop))] /\
      final_state r = b
  end.
Proof.
  intros Hcmd Hnd r. subst r. unfold handleCommand. rewrite Hcmd.
  unfold Async.bind, get. cbn [bindP].
  pose proof (latest_fold_spec (activeSessions b)) as Hlatest.
  fold (getLatestActiveSession b) in Hlatest.
  destruct (getLatestActiveSession b) as [[key session]|].
  - unfold modify, say, await, Async.bind, final_state. simpl.
    assert (JsMap.get (activeSessions b) key = Some session) as Hget.
    { destruct Hlatest as (_ & before & after & Heq & _).
      apply JsMap_get_elem; [done|]. rewrite Heq. apply elem_of_app. right. by left. }
    assert (forall s' : Bot,
              s' = upd_session key (session_with_status abandoned) b ->
              JsMap.get (activeSessions s') key
                = Some (session_with_status abandoned session) /\
              forall key', key' <> key ->
                JsMap.get (activeSessions s') key' = JsMap.get (activeSessions b) key')
      as Hupd.
    { intros s' ->. unfold upd_session. simpl. split.
      - by rewrite JsMap_get_update, String.eqb_refl, Hget.
      - intros key' Hne. rewrite JsMap_get_update.
        destruct (String.eqb_spec key key'); [congruence|done]. }
    destruct (answer o _ tr _) as [ts|e]; simpl;
      (split; [done|]); (split; [done|]); exact (Hupd _ eq_refl).
  - unfold say, await, Async.bind, final_state. simpl.
    by destruct (answer o _ tr _) as [ts|e].
Qed.

Lemma stop_abandons_latest_session_witness :
  let r := run (sample_world [] [] "no") [] (handleCommand "Stop!" "D1" sample_bot) in
  is_one_of ["stop"; "done"] (JsString.normalize "Stop!") = true /\
  NoDup (JsMap.keys (activeSessions sample_bot)) /\
  JsMap.get (activeSessions (final_state r)) "ts-1"
    = Some (session_with_status abandoned sample_session).
Proof.
  intros r.
  assert (NoDup (JsMap.keys (activeSessions sample_bot))) as Hnd.
  { simpl. apply NoDup_singleton. }
  split; [reflexivity|]. split; [exact Hnd|].
  exact (proj1 (proj2 (proj2
    (stop_abandons_latest_session (sample_world [] [] "no") [] sample_bot
       "Stop!" "D1" eq_refl Hnd)))).
Defined.

(** ** Errors stop at the handlers *)

Lemma triple_any {St A} (o : oracle) (m : M St A) :
  triple o (fun _ _ => True) m (fun _ _ _ => True) (fun _ _ _ => True).
Proof. intros tr s _. by destruct (run o tr (m s)) as [tr' [a s'|e s']]. Qed.

Lemma caught_returns {St} (o : oracle) (m : M St unit) (h : string -> M St unit)
    (tr : list event) (s : St) :
  (forall e, triple o (fun _ _ => True) (h e) (fun _ _ _ => True) (fun _ _ _ => False)) ->
  exists tr' s', run o tr (try_catch m h s) = (tr', Done tt s').
Proof.
  intros Hh.
  pose proof (triple_catch o _ m h _ _ _ (triple_any o m) Hh tr s Logic.I) as H.
  destruct (run o tr (try_catch m h s)) as [tr' [[] s'|e s']]; [eauto|done].
Qed.

Lemma on_message_returns (o : oracle) (tr : list event) (b : Bot) msg :
  exists tr' b', run o tr (on_message msg b) = (tr', Done tt b').
Proof.
  unfold on_message. apply caught_returns. intros e.
  eapply triple_catch; [apply triple_any|]. intros e'. by apply triple_ret.
Qed.

Lemma on_interactive_returns (o : oracle) (tr : list event) (b : Bot) payload :
  exists tr' b', run o tr (on_interactive payload b) = (tr', Done tt b').
Proof.
  unfold on_interactive. apply caught_returns. intros e.
  eapply triple_catch; [apply triple_any|]. intros e'. by apply triple_ret.
Qed.

(** X12. A listener of the socket rejects only when the acknowledgement of
    the event does, which stands before its [try]: then it rejects with that
    error and does nothing more. Once the event is acknowledged, whatever the
    message or the click sets off and whatever the services answer, also to
    the notice of failure itself, the listener ends normally. *)
Theorem socket_listeners_reject_only_with_ack (o : oracle) (tr : list event)
    (b : Bot) (ack : M Bot unit) (event : option Incoming)
    (payload : option (list Action)) :
  match run o tr (ack b) with
  | (tr1, Done _ b1) =>
      (exists tr' b',
         run o tr (Listeners.message_listener ack event b) = (tr', Done tt b')) /\
      (exists tr' b',
         run o tr (Listeners.interactive_listener ack payload b) = (tr', Done tt b'))
  | (tr1, Failed e b1) =>
      run o tr (Listeners.message_listener ack event b) = (tr1, Failed e b1) /\
      run o tr (Listeners.interactive_listener ack payload b) = (tr1, Failed e b1)
  end.
Proof.
  unfold Listeners.message_listener, Listeners.interactive_listener, Async.bind.
  rewrite !run_bindP.
  destruct (run o tr (ack b)) as [tr1 [[] b1|e b1]]; [|done].
  split.
  - destruct event as [msg|]; [apply on_message_returns|].
    by exists tr1, b1.
  - apply on_interactive_returns.
Qed.

(** What a triple says of the state a run ends in, normally or not. *)
Lemma triple_final {St A} (o : oracle) (P Q : list event -> St -> Prop) (m : M St A)
    tr s :
  triple o P m (fun _ => Q) (fun _ => Q) -> P tr s ->
  Q (fst (run o tr (m s))) (final_state (run o tr (m s))).
Proof.
  intros Hm HP. specialize (Hm tr s HP). unfold final_state.
  destruct (run o tr (m s)) as [tr' [a s'|e s']]; exact Hm.
Qed.

(** ** The buttons of a draft *)

Section Fixed.
Context (o : oracle) (b1 : Bot).

(** Programs that leave the state [b1] as it is. *)
Local Abbreviation fixed := (fun (_ : list event) (s : Bot) => s = b1).

Lemma fixed_stable : stable fixed.
Proof. by intros tr s e. Qed.

Lemma tell_owner_fixed text : keeps o fixed (tell_owner text).
Proof.
  eapply triple_weaken; [apply (tell_owner_spec o fixed), fixed_stable|done|done|].
  by intros e tr s [H _].
Qed.

Lemma say_fixed channel text thread : keeps o fixed (say channel text thread).
Proof.
  eapply triple_weaken; [apply (say_spec o fixed), fixed_stable|done|done|].
  by intros e tr s [H _].
Qed.

Lemma notice_fixed (m : M Bot unit) : keeps o fixed m ->
  keeps o fixed (try_catch m (fun _ => ret tt)).
Proof. intros Hm. apply keeps_catch; [done|]. intros e. apply keeps_ret. Qed.

End Fixed.

(** X13. A click on [Approve & Publish] for a draft that the cache holds
    sets the status of that draft to [approved] and leaves every other draft,
    the sessions and the registry as they are; the draft is approved in the
    cache before the record store is asked, and stays so when the record store
    or the chat fails. For a draft that the cache does not hold the bot is
    left as it is. *)
Theorem approve_click_marks_draft (o : oracle) (tr : list event) (b : Bot)
    (value : string) :
  value <> "" ->
  let r := run o tr (on_interactive (click "approve_draft" value) b) in
  match JsMap.get (pendingDrafts b) value with
  | Some d =>
      final_state r
        = set_pendingDrafts
            (JsMap.update (pendingDrafts b) value (draft_with_status approved)) b /\
      JsMap.get (pendingDrafts (final_state r)) value
        = Some (draft_with_status approved d) /\
      forall v', v' <> value ->
        JsMap.get (pendingDrafts (final_state r)) v' = JsMap.get (pendingDrafts b) v'
  | None => final_state r = b
  end.
Proof.
  intros Hvalue r.
  set (b1 := match JsMap.get (pendingDrafts b) value with
             | Some _ => set_pendingDrafts
                 (JsMap.update (pendingDrafts b) value (draft_with_status approved)) b
             | None => b
             end).
  assert (final_state r = b1) as Hfinal.
  { subst r.
    apply (triple_final o (fun _ s => s = b) (fun _ s => s = b1)); [|done].
    unfold on_interactive, click. cbn [for_each]. unfold on_action.
    cbn [action_id action_value].
    change (String.eqb "approve_draft" "approve_draft") with true. cbv iota.
    destruct value as [|c value]; [done|]. cbn [truthy].
    apply triple_catch with (R := fun _ _ s => s = b1).
    2:{ intros e. apply notice_fixed, tell_owner_fixed. }
    eapply triple_bind with (R := fun _ _ s => s = b1); [|intros; by apply triple_ret].
    apply triple_get_known with (s0 := b); [done|].
    subst b1. destruct (JsMap.get (pendingDrafts b) (String c value)) as [d|].
    - set (b2 := set_pendingDrafts
                   (JsMap.update (pendingDrafts b) (String c value)
                      (draft_with_status approved)) b).
      eapply triple_bind with (R := fun _ _ s => s = b2).
      { apply triple_modify. by intros tr0 s ->. }
      intros u. eapply triple_bind with (R := fun _ _ s => s = b2);
        [|intros; apply tell_owner_fixed].
      destruct (truthy (d_notionPageId d)) as [page|]; [|by apply triple_ret].
      apply keeps_await, fixed_stable.
    - apply tell_owner_fixed. }
  subst r. rewrite Hfinal. unfold b1. clear Hfinal b1.
  destruct (JsMap.get (pendingDrafts b) value) as [d|] eqn:Hget; [|done].
  split; [done|]. simpl. split.
  - by rewrite JsMap_get_update, String.eqb_refl, Hget.
  - intros v' Hne. rewrite JsMap_get_update.
    destruct (String.eqb_spec value v'); [congruence|done].
Qed.

Lemma approve_click_marks_draft_witness :
  let r := run (sample_world [] [] "no") []
             (on_interactive (click "approve_draft" (AIBrain.draft_id 5)) sample_bot) in
  AIBrain.draft_id 5 <> EmptyString /\
  JsMap.get (pendingDrafts (final_state r)) (AIBrain.draft_id 5)
    = Some (draft_with_status approved sample_draft).
Proof.
  intros r. assert (Hne : (AIBrain.draft_id 5 : string) <> EmptyString) by done.
  split; [exact Hne|].
  exact (proj1 (proj2
    (approve_click_marks_draft (sample_world [] [] "no") [] sample_bot
       (AIBrain.draft_id 5) Hne))).
Defined.

(** ** Opening an interview *)

(** [updateIdeaStatus] always ends normally; it changes the registry at the
    idea it names, if there is one. *)
Lemma updateIdeaStatus_run (o : oracle) (tr : list event) (m : Miner)
    (id : string) (status : IdeaStatus) :
  exists tr' m',
    run o tr (updateIdeaStatus id status m) = (tr', Done tt m') /\
    (forall id', JsMap.get (ideas m') id' =
       if String.eqb id id' then idea_with_status status <$> JsMap.get (ideas m) id'
       else JsMap.get (ideas m) id') /\
    pendingTranscripts m' = pendingTranscripts m /\
    processing m' = processing m /\
    minedTranscriptIds m' = minedTranscriptIds m /\
    knownHooks m' = knownHooks m.
Proof.
  unfold updateIdeaStatus, Async.bind, get. simpl.
  destruct (JsMap.get (ideas m) id) as [idea|] eqn:Hget; simpl.
  - assert (forall id', JsMap.get (JsMap.update (ideas m) id (idea_with_status status)) id'
             = if String.eqb id id'
               then idea_with_status status <$> JsMap.get (ideas m) id'
               else JsMap.get (ideas m) id') as Hids.
    { intros id'. apply JsMap_get_update. }
    destruct (truthy (i_notionPageId idea)) as [page|]; simpl.
    + destruct (answer o _ tr _) as [[]|e]; simpl; by eexists _, _.
    + by eexists _, _.
  - exists tr, m. split; [done|]. split; [|done].
    intros id'. destruct (String.eqb_spec id id') as [<-|]; [|done]. by rewrite Hget.
Qed.

(** X14. When the drafting service gives an opener and the chat answers the
    post with a thread timestamp, [sendContentPing] enters under that
    timestamp an active session for the idea whose only message is the
    opener, said by the agent; it sets the status of the idea in the registry
    to [interviewing]; every other session and idea, the drafts and a pending
    rework stay as they are. *)
Theorem sendContentPing_opens_session (o : oracle) (tr : list event) (b : Bot)
    (idea : ContentIdea) (r : option string) (ts : string) :
  answer o _ tr (LlmOpener idea) = Ok r ->
  answer o _ (tr ++ [ECall (LlmOpener idea)])
    (SlackPostMessage (ping_post (slackUserId b) (text_or "" r) idea)) = Ok (Some ts) ->
  ts <> EmptyString ->
  exists tr' b' t_id t_msg t_start,
    run o tr (sendContentPing idea b) = (tr', Done tt b') /\
    JsMap.get (activeSessions b') ts
      = Some (opened_session idea ts (text_or "" r) t_id t_msg t_start) /\
    (forall key, key <> ts ->
       JsMap.get (activeSessions b') key = JsMap.get (activeSessions b) key) /\
    getIdea (miner b') (i_id idea)
      = idea_with_status interviewing <$> getIdea (miner b) (i_id idea) /\
    (forall id, id <> i_id idea -> getIdea (miner b') id = getIdea (miner b) id) /\
    pendingDrafts b' = pendingDrafts b /\
    pendingRework b' = pendingRework b /\
    lastShownIdeas b' = lastShownIdeas b.
Proof.
  intros Hopener Hpost Hts.
  unfold sendContentPing, AIBrain.generateInterviewOpener, Async.bind, await, get.
  simpl. rewrite Hopener. simpl.
  unfold ping_post in Hpost. rewrite Hpost. simpl.
  destruct ts as [|c ts]; [done|]. simpl.
  set (key := String c ts).
  match goal with
  | |- context [run o ?tr1 (in_miner _ ?b1)] => set (tr2 := tr1); set (b2 := b1)
  end.
  rewrite run_in_miner.
  destruct (updateIdeaStatus_run o tr2 (miner b2) (i_id idea) interviewing)
    as (tr' & m' & Hrun & Hids & _).
  rewrite Hrun. eexists tr', (set_miner m' b2), _, _, _.
  split; [reflexivity|]. simpl. split; [|split; [|split; [|split]]].
  - rewrite JsMap_get_set, String.eqb_refl. reflexivity.
  - intros key' Hne. rewrite JsMap_get_set.
    destruct (String.eqb_spec key key'); [congruence|done].
  - unfold getIdea. rewrite Hids, String.eqb_refl. done.
  - intros id Hne. unfold getIdea. rewrite Hids.
    destruct (String.eqb_spec (i_id idea) id); [congruence|done].
  - done.
Qed.

Lemma sendContentPing_opens_session_witness :
  let o := sample_world [] [] "no" in
  let idea := sample_idea "idea-1" "Charge more" ["t-1"] in
  let b := SlackBot.init "U1" sample_registry in
  answer o _ [] (LlmOpener idea) = Ok (Some "What happened next?") /\
  answer o _ ([] ++ [ECall (LlmOpener idea)])
    (SlackPostMessage (ping_post (slackUserId b) "What happened next?" idea))
    = Ok (Some "ts-1") /\
  "ts-1" <> EmptyString /\
  exists tr' b' t_id t_msg t_start,
    run o [] (sendContentPing idea b) = (tr', Done tt b') /\
    JsMap.get (activeSessions b') "ts-1"
      = Some (opened_session idea "ts-1" "What happened next?" t_id t_msg t_start).
Proof.
  intros o idea b.
  assert (Hts : ("ts-1" : string) <> EmptyString) by done.
  split; [reflexivity|]. split; [reflexivity|]. split; [exact Hts|].
  destruct (sendContentPing_opens_session o [] b idea (Some "What happened next?")
              "ts-1" eq_refl eq_refl Hts)
    as (tr' & b' & t_id & t_msg & t_start & Hrun & Hget & _).
  exists tr', b', t_id, t_msg, t_start. split; [exact Hrun|exact Hget].
Defined.

(** ** Picking an idea by its number *)

Lemma numerals_are_commands (n : nat) :
  (1 <= n <= 99)%nat -> numeral_is_command n = true.
Proof.
  intros Hn.
  assert (forallb numeral_is_command (seq 1 99) = true) as Hall by (vm_compute; reflexivity).
  apply (proj1 (forallb_forall _ _) Hall). apply in_seq. lia.
Qed.

(** X15. A message that is the number [n], from 1 to 99, picks the [n]-th
    idea of the list that the owner was shown last (of all ideas, newest
    first, when nothing was shown yet) and opens the interview on it; when the
    list has no [n]-th idea the owner is told so and nothing else happens. *)
Theorem number_picks_shown_idea (b : Bot) (channel : string) (n : nat) :
  (1 <= n <= 99)%nat ->
  handleCommand (pretty n) channel b =
    match numbered_ideas b !! (n - 1)%nat with
    | Some idea => sendContentPing idea b
    | None => say channel (TxtNoIdeaAt (Z.of_nat n)) None b
    end.
Proof.
  intros Hn. pose proof (numerals_are_commands n Hn) as Hc.
  unfold numeral_is_command in Hc.
  repeat (apply andb_prop in Hc as [Hc ?]).
  apply String.eqb_eq in Hc.
  repeat match goal with H : negb _ = true |- _ => apply negb_true_iff in H end.
  match goal with H : bool_decide _ = true |- _ => apply bool_decide_eq_true in H end.
  unfold handleCommand. rewrite Hc.
  repeat match goal with H : _ = false |- _ => rewrite H; clear H end.
  match goal with H : (_ || _) = true |- _ => rewrite H; clear H end.
  unfold handleDraftCommand, Async.bind, get. cbn [bindP].
  match goal with H : JsString.parseInt _ = _ |- _ => rewrite H end.
  assert ((1 <=? Z.of_nat n)%Z && (Z.of_nat n <=? 99)%Z = true) as ->.
  { apply andb_true_intro. split; apply Z.leb_le; lia. }
  replace (Z.to_nat (Z.of_nat n - 1)) with (n - 1)%nat by lia.
  fold (numbered_ideas b). by destruct (numbered_ideas b !! (n - 1)%nat).
Qed.

Lemma number_picks_shown_idea_witness :
  let shown := [sample_idea "idea-1" "Charge more" ["t-1"];
                sample_idea "idea-2" "Ship it" ["t-1"]] in
  let b := set_lastShownIdeas shown sample_bot_idle in
  (1 <= 2 <= 99)%nat /\
  handleCommand "2" "D1" b = sendContentPing (sample_idea "idea-2" "Ship it" ["t-1"]) b.
Proof.
  intros shown b. assert (1 <= 2 <= 99)%nat as Hn by lia.
  split; [exact Hn|].
  exact (number_picks_shown_idea b "D1" 2 Hn).
Defined.

(** ** What is written to the record store and read back *)

(** X16. The label under which [saveContentIdea] and [saveContentDraft]
    write a format is read back by [parseFormat] as the same format. A label
    that names a member of [Object.prototype] is read as that member, which
    is no format. Every other label is read as [linkedin_post]. *)
Theorem parseFormat_reads_formatLabel :
  (forall format,
     NotionService.parseFormat (NotionService.formatLabel format)
       = NotionService.Format format) /\
  (forall label, label ∈ NotionService.object_prototype_keys ->
     NotionService.parseFormat label = NotionService.Inherited label) /\
  (forall label, (forall format, label <> NotionService.formatLabel format) ->
     label ∉ NotionService.object_prototype_keys ->
     NotionService.parseFormat label = NotionService.Format linkedin_post).
Proof.
  split; [by intros []|]. split.
  - intros label Hin. unfold NotionService.object_prototype_keys in Hin.
    repeat (apply elem_of_cons in Hin as [->|Hin]; [reflexivity|]).
    by apply elem_of_nil in Hin.
  - intros label Hother Hnot. unfold NotionService.parseFormat.
    destruct (String.eqb_spec label "LinkedIn Post") as [->|_]; [done|].
    destruct (String.eqb_spec label "YouTube Script") as [->|_].
    { by destruct (Hother youtube_script). }
    destruct (String.eqb_spec label "Newsletter") as [->|_].
    { by destruct (Hother newsletter). }
    destruct (String.eqb_spec label "X Thread") as [->|_].
    { by destruct (Hother x_thread). }
    destruct (existsb (String.eqb label) NotionService.object_prototype_keys)
      eqn:Hex; [|done].
    apply existsb_exists in Hex as (key & Hkey & Heq).
    apply String.eqb_eq in Heq as <-. destruct Hnot. by apply list_elem_of_In.
Qed.

Lemma string_app_cons (x : ascii) (a b : string) :
  String x a +:+ b = String x (a +:+ b).
Proof. reflexivity. Qed.

Lemma string_app_assoc (a b c : string) : (a +:+ b) +:+ c = a +:+ (b +:+ c).
Proof.
  induction a as [|x a IH]; [done|]. rewrite !string_app_cons. f_equal. exact IH.
Qed.

Lemma string_app_nil_r (a : string) : a +:+ EmptyString = a.
Proof.
  induction a as [|x a IH]; [done|]. rewrite string_app_cons. f_equal. exact IH.
Qed.

Lemma split_at_comma (cur s : string) :
  JsText.split_from "," 0 cur (String "," s)
    = cur :: JsText.split_from "," 0 EmptyString s.
Proof. by destruct s. Qed.

Lemma split_past_char (c : ascii) (cur s : string) :
  Ascii.eqb c "," = false ->
  JsText.split_from "," 0 cur (String c s)
    = JsText.split_from "," 0 (cur +:+ String c EmptyString) s.
Proof.
  intros Hc. cbn [JsText.split_from String.prefix].
  destruct (ascii_dec "," c) as [<-|Hne]; [done|reflexivity].
Qed.

(** Reading a piece that holds no comma, up to the comma after it or to the
    end of the text. *)
Lemma split_comma_piece (x cur : string) :
  has_char "," x = false ->
  JsText.split_from "," 0 cur x = [cur +:+ x] /\
  forall s, JsText.split_from "," 0 cur (x +:+ "," +:+ s)
            = (cur +:+ x) :: JsText.split_from "," 0 EmptyString s.
Proof.
  revert cur. induction x as [|c x IH]; intros cur Hx.
  - split; [by rewrite string_app_nil_r|]. intros s.
    change (EmptyString +:+ "," +:+ s) with (String "," s).
    by rewrite split_at_comma, string_app_nil_r.
  - cbn [has_char] in Hx. apply orb_false_elim in Hx as [Hc Hx].
    destruct (IH (cur +:+ String c EmptyString) Hx) as [IH1 IH2].
    assert ((cur +:+ String c EmptyString) +:+ x = cur +:+ String c x) as Happ.
    { by rewrite string_app_assoc. }
    split.
    + by rewrite split_past_char, IH1, Happ.
    + intros s. rewrite string_app_cons, split_past_char, IH2, Happ by done. done.
Qed.

Lemma split_join_comma (ids : list string) :
  ids <> [] -> Forall plain_id ids ->
  JsText.split "," (JsText.join "," ids) = ids.
Proof.
  unfold JsText.split. induction ids as [|x ids IH]; [done|]. intros _ Hall.
  apply Forall_cons in Hall as [[_ Hx] Hall].
  destruct (split_comma_piece x EmptyString Hx) as [H1 H2].
  destruct ids as [|y ids].
  - simpl. exact H1.
  - change (JsText.join "," (x :: y :: ids))
      with (x +:+ "," +:+ JsText.join "," (y :: ids)).
    rewrite H2. f_equal. by apply IH.
Qed.

(** X17. The source transcripts of an idea survive the record store: what
    [loadContentIdeas] makes of the text that [saveContentIdea] writes into
    ['Source Transcripts'] is the list of identifiers of the idea, provided
    no identifier is empty or holds a comma. An idea without sources is read
    back without sources. *)
Theorem sourceTranscriptIds_round_trip (idea : ContentIdea) :
  Forall plain_id (i_sourceTranscriptIds idea) ->
  NotionService.sourceTranscriptIds_of (NotionService.sourceTranscripts_text idea)
    = i_sourceTranscriptIds idea.
Proof.
  unfold NotionService.sourceTranscriptIds_of, NotionService.sourceTranscripts_text.
  intros Hall. destruct (i_sourceTranscriptIds idea) as [|x ids] eqn:Hids; [done|].
  rewrite split_join_comma by done.
  clear Hids. induction Hall as [|y l [Hy _] _ IH]; [done|].
  simpl. destruct y; [done|]. simpl. by rewrite IH.
Qed.

Lemma sourceTranscriptIds_round_trip_witness :
  let idea := sample_idea "idea-1" "Charge more" ["tldv-1"; "tldv-2"] in
  Forall plain_id (i_sourceTranscriptIds idea) /\
  NotionService.sourceTranscriptIds_of "tldv-1,tldv-2" = ["tldv-1"; "tldv-2"].
Proof.
  intros idea.
  assert (Forall plain_id (i_sourceTranscriptIds idea)) as Hall.
  { repeat constructor; done. }
  split; [exact Hall|].
  exact (sourceTranscriptIds_round_trip idea Hall).
Defined.

(** ** Cutting a text to the size of a block *)

Lemma substring_drop (i n : nat) (s : string) :
  substring i n s +:+ JsString.drop (i + n) s = JsString.drop i s.
Proof.
  revert i n. induction s as [|c s IH]; intros i n.
  - by destruct i, n.
  - destruct i as [|i].
    + destruct n as [|n]; [done|].
      change (String c (substring 0 n s +:+ JsString.drop (0 + n) s) = String c s).
      f_equal. apply (IH 0%nat n).
    + apply (IH i n).
Qed.

Lemma string_drop_all (i : nat) (s : string) :
  (String.length s <= i)%nat -> JsString.drop i s = EmptyString.
Proof.
  revert i. induction s as [|c s IH]; intros i Hi; [by destruct i|].
  destruct i as [|i]; [simpl in Hi; lia|]. apply IH. simpl in Hi. lia.
Qed.

Lemma paragraph_blocks_spec (paragraph : string) (fuel i : nat) :
  (String.length paragraph <= i + fuel)%nat ->
  concat_text (NotionService.paragraph_blocks fuel i paragraph)
    = JsString.drop i paragraph /\
  Forall (fun block => (0 < String.length block <= NotionService.maxLen)%nat)
    (NotionService.paragraph_blocks fuel i paragraph).
Proof.
  revert i. induction fuel as [|fuel IH]; intros i Hfuel.
  - split; [|constructor]. simpl. by rewrite string_drop_all by lia.
  - cbn [NotionService.paragraph_blocks].
    destruct (Nat.ltb_spec i (String.length paragraph)) as [Hlt|Hge].
    + destruct (IH (i + NotionService.maxLen)%nat) as [Hcat Hfit].
      { unfold NotionService.maxLen. lia. }
      split.
      * cbn [concat_text foldr]. fold (concat_text
          (NotionService.paragraph_blocks fuel (i + NotionService.maxLen) paragraph)).
        rewrite Hcat. unfold JsText.slice.
        replace (i + NotionService.maxLen - i)%nat with NotionService.maxLen by lia.
        apply substring_drop.
      * constructor; [|exact Hfit]. unfold JsText.slice.
        rewrite string_length_substring. unfold NotionService.maxLen. lia.
    + split; [|constructor]. simpl. by rewrite string_drop_all by lia.
Qed.

Lemma concat_text_app (l k : list string) :
  concat_text (l ++ k) = concat_text l +:+ concat_text k.
Proof.
  induction l as [|x l IH]; [done|].
  cbn [app concat_text foldr]. fold (concat_text (l ++ k)). fold (concat_text l).
  by rewrite IH, string_app_assoc.
Qed.

(** X18. [textToBlocks] cuts a text into blocks of 1 to 2000 characters
    each, and the blocks in their order are the paragraphs of the text that
    are not blank, one after another: no character of such a paragraph is
    lost, repeated or moved. *)
Theorem textToBlocks_keeps_paragraphs (text : string) :
  Forall (fun block => (0 < String.length block <= 2000)%nat)
    (NotionService.textToBlocks text) /\
  concat_text (NotionService.textToBlocks text)
    = concat_text
        (List.filter (fun paragraph => JsText.truthy_text (JsString.trim paragraph))
           (JsString.split_blank text)).
Proof.
  unfold NotionService.textToBlocks.
  induction (JsString.split_blank text) as [|p l [IHfit IHcat]]; [by split|].
  cbn [flat_map List.filter].
  destruct (JsText.truthy_text (JsString.trim p)); [|by split].
  destruct (paragraph_blocks_spec p (String.length p) 0) as [Hcat Hfit]; [lia|].
  split.
  - apply Forall_app. split; [exact Hfit|exact IHfit].
  - rewrite concat_text_app, Hcat, IHcat. done.
Qed.

(** ** Cutting a draft to the size of a message *)

Lemma trimStart_length (s : string) :
  (String.length (JsString.trimStart s) <= String.length s)%nat.
Proof.
  induction s as [|c s IH]; simpl; [done|].
  destruct (JsString.is_space c); simpl; lia.
Qed.

Lemma trimEnd_length (s : string) :
  (String.length (JsString.trimEnd s) <= String.length s)%nat.
Proof.
  induction s as [|c s IH]; simpl; [done|].
  destruct (JsString.trimEnd s); [destruct (JsString.is_space c)|]; simpl in *; lia.
Qed.

Lemma trim_length (s : string) :
  (String.length (JsString.trim s) <= String.length s)%nat.
Proof.
  unfold JsString.trim. etrans; [apply trimEnd_length|apply trimStart_length].
Qed.

Lemma chunk_step_fit (chunks : list string) (current para : string) :
  Forall (fun c => (String.length c <= maxLen)%nat) chunks ->
  (String.length current <= maxLen)%nat ->
  (String.length para <= maxLen)%nat ->
  Forall (fun c => (String.length c <= maxLen)%nat)
    (fst (chunk_step (chunks, current) para)) /\
  (String.length (snd (chunk_step (chunks, current) para)) <= maxLen)%nat.
Proof.
  intros Hchunks Hcur Hpara. unfold chunk_step.
  destruct (Nat.ltb_spec maxLen (String.length (current +:+ blank_line +:+ para)))
    as [Hlong|Hshort]; cbn [andb].
  - destruct (Nat.ltb_spec 0 (String.length current)) as [Hpos|Hzero]; cbn [fst snd].
    + split; [|done]. apply Forall_app. split; [done|]. apply Forall_singleton.
      etrans; [apply trim_length|done].
    + split; [done|]. destruct current; [done|simpl in Hzero; lia].
  - cbn [fst snd]. split; [done|]. by destruct current.
Qed.

(** X19. When no paragraph of a draft is longer than 3500 characters, no
    piece into which [sendDraftNotification] cuts a long draft is longer than
    3500 characters. *)
Theorem chunk_paragraphs_fit (body : string) :
  Forall (fun para => (String.length para <= 3500)%nat) (JsString.split_blank body) ->
  Forall (fun chunk => (String.length chunk <= 3500)%nat) (chunk_paragraphs body).
Proof.
  intros Hparas. unfold chunk_paragraphs.
  assert (forall paras chunks current,
            Forall (fun para => (String.length para <= maxLen)%nat) paras ->
            Forall (fun c => (String.length c <= maxLen)%nat) chunks ->
            (String.length current <= maxLen)%nat ->
            Forall (fun c => (String.length c <= maxLen)%nat)
              (fst (foldl chunk_step (chunks, current) paras)) /\
            (String.length (snd (foldl chunk_step (chunks, current) paras))
               <= maxLen)%nat) as Hfold.
  { induction paras as [|para paras IH]; intros chunks current Hp Hc Hcur; [done|].
    apply Forall_cons in Hp as [Hpara Hp]. cbn [foldl].
    destruct (chunk_step_fit chunks current para Hc Hcur Hpara) as [Hc' Hcur'].
    destruct (chunk_step (chunks, current) para) as [chunks' current'].
    by apply IH. }
  destruct (Hfold (JsString.split_blank body) [] EmptyString Hparas) as [Hc Hcur].
  { constructor. }
  { unfold maxLen. simpl. lia. }
  destruct (foldl chunk_step ([], EmptyString) (JsString.split_blank body))
    as [chunks current].
  cbn [fst snd] in *. destruct (nonempty (JsString.trim current)); [|exact Hc].
  apply Forall_app. split; [exact Hc|]. apply Forall_singleton.
  etrans; [apply trim_length|exact Hcur].
Qed.

(** Three paragraphs of 1500 characters: the first two make one piece, the
    third another. *)
Lemma chunk_paragraphs_fit_witness :
  let para := string_of_list_ascii (replicate 1500 "a"%char) in
  let body := para +:+ blank_line +:+ para +:+ blank_line +:+ para in
  (3500 < String.length body)%nat /\
  Forall (fun para => (String.length para <= 3500)%nat) (JsString.split_blank body) /\
  map String.length (chunk_paragraphs body) = [3002; 1500]%nat /\
  Forall (fun chunk => (String.length chunk <= 3500)%nat) (chunk_paragraphs body).
Proof.
  intros para body.
  assert (Forall (fun para => (String.length para <= 3500)%nat)
            (JsString.split_blank body)) as Hparas.
  { apply (proj1 (Forall_fmap String.length (fun n => (n <= 3500)%nat) _)).
    assert (String.length <$> JsString.split_blank body = [1500; 1500; 1500]%nat)
      as -> by (vm_compute; reflexivity).
    repeat (apply Forall_cons_2; [lia|]). apply Forall_nil_2. }
  split; [vm_compute; lia|]. split; [exact Hparas|].
  split; [vm_compute; reflexivity|].
  exact (chunk_paragraphs_fit body Hparas).
Defined.

(** ** The requests of a program *)

Section AsksOnly.
Context {St : Type} (ok : forall X, call X -> Prop).

Lemma asks_only_bindP {A B} (p : prog St A) (f : A -> M St B) :
  asks_only ok p -> (forall a, asks_onlyM ok (f a)) -> asks_only ok (bindP p f).
Proof.
  intros Hp Hf. induction p as [a s|e s|X q k IH|X s c k IH]; simpl in *.
  - apply Hf.
  - done.
  - intros x. by apply IH.
  - destruct Hp as [Hc Hk]. split; [done|]. intros r s'. by apply IH.
Qed.

Lemma asks_only_catchP {A} (p : prog St A) (h : string -> M St A) :
  asks_only ok p -> (forall e, asks_onlyM ok (h e)) -> asks_only ok (catchP p h).
Proof.
  intros Hp Hh. induction p as [a s|e s|X q k IH|X s c k IH]; simpl in *.
  - done.
  - apply Hh.
  - intros x. by apply IH.
  - destruct Hp as [Hc Hk]. split; [done|]. intros r s'. by apply IH.
Qed.

Lemma asks_onlyM_bind {A B} (m : M St A) (f : A -> M St B) :
  asks_onlyM ok m -> (forall a, asks_onlyM ok (f a)) -> asks_onlyM ok (Async.bind m f).
Proof. intros Hm Hf s. apply asks_only_bindP; [apply Hm|exact Hf]. Qed.

Lemma asks_onlyM_catch {A} (m : M St A) (h : string -> M St A) :
  asks_onlyM ok m -> (forall e, asks_onlyM ok (h e)) -> asks_onlyM ok (try_catch m h).
Proof. intros Hm Hh s. apply asks_only_catchP; [apply Hm|exact Hh]. Qed.

Lemma asks_onlyM_ret {A} (a : A) : asks_onlyM ok (@ret St A a).
Proof. by intros s. Qed.

Lemma asks_onlyM_get : asks_onlyM ok (@get St).
Proof. by intros s. Qed.

Lemma asks_onlyM_modify (f : St -> St) : asks_onlyM ok (modify f).
Proof. by intros s. Qed.

Lemma asks_onlyM_ask {X} (q : query X) : asks_onlyM ok (@ask St X q).
Proof. by intros s x. Qed.

Lemma asks_onlyM_await {X} (c : call X) : ok X c -> asks_onlyM ok (@await St X c).
Proof. intros Hc s. split; [done|]. by intros [x|e] s'. Qed.

Lemma asks_onlyM_for_each {X} (xs : list X) (body : X -> M St unit) :
  (forall x, asks_onlyM ok (body x)) -> asks_onlyM ok (for_each xs body).
Proof.
  intros Hb. induction xs as [|x xs IH]; simpl; [apply asks_onlyM_ret|].
  apply asks_onlyM_bind; [apply Hb|]. intros _. exact IH.
Qed.

End AsksOnly.

Lemma asks_only_zoomP {T St A} (ok : forall X, call X -> Prop)
    (proj : St -> T) (inj : T -> St -> St) (p : prog T A) (outer : St) :
  asks_only ok p -> asks_only ok (zoomP proj inj p outer).
Proof.
  revert outer. induction p as [a t|e t|X q k IH|X t c k IH]; intros outer Hp;
    simpl in *; [done|done| |].
  - intros x. by apply IH.
  - destruct Hp as [Hc Hk]. split; [done|]. intros r s'. by apply IH.
Qed.

(** One step of a proof that a program makes allowed requests only. *)
Ltac asks_step :=
  lazymatch goal with
  | |- asks_onlyM _ (Async.bind _ _) => apply asks_onlyM_bind; [|intros ?]
  | |- asks_onlyM _ (try_catch _ _) => apply asks_onlyM_catch; [|intros ?]
  | |- asks_onlyM _ (ret _) => apply asks_onlyM_ret
  | |- asks_onlyM _ get => apply asks_onlyM_get
  | |- asks_onlyM _ (modify _) => apply asks_onlyM_modify
  | |- asks_onlyM _ (ask _) => apply asks_onlyM_ask
  | |- asks_onlyM _ (await _) => apply asks_onlyM_await; exact Logic.I
  | |- asks_onlyM _ (for_each _ _) => apply asks_onlyM_for_each; intros ?
  | |- asks_onlyM _ (match ?x with _ => _ end) => destruct x
  | |- asks_onlyM _ (if ?x then _ else _) => destruct x
  end.

(** The miner never posts to the chat. *)

Lemma stamp_ideas_no_post {St} sources i raw :
  asks_onlyM no_post (@AIBrain.stamp_ideas St sources i raw).
Proof.
  revert i. induction raw as [|r raw IH]; intros i; simpl; repeat asks_step.
  apply IH.
Qed.

Lemma mineContentIdeas_no_post {St} batch :
  asks_onlyM no_post (@AIBrain.mineContentIdeas St batch).
Proof.
  unfold AIBrain.mineContentIdeas. repeat asks_step. apply stamp_ideas_no_post.
Qed.

Lemma save_idea_no_post idea : asks_onlyM no_post (save_idea idea).
Proof. unfold save_idea. repeat asks_step. Qed.

Lemma record_ideas_no_post found allIdeas :
  asks_onlyM no_post (record_ideas found allIdeas).
Proof.
  revert allIdeas. induction found as [|idea rest IH]; intros allIdeas; simpl;
    repeat asks_step; try apply IH.
  apply save_idea_no_post.
Qed.

Lemma mine_batches_no_post fuel i withContent allIdeas :
  asks_onlyM no_post (mine_batches fuel i withContent allIdeas).
Proof.
  revert i allIdeas. induction fuel as [|fuel IH]; intros i allIdeas; simpl;
    repeat asks_step; try apply IH.
  - apply mineContentIdeas_no_post.
  - apply record_ideas_no_post.
Qed.

Lemma load_contents_no_post unmined withContent :
  asks_onlyM no_post (load_contents unmined withContent).
Proof.
  revert withContent. induction unmined as [|t rest IH]; intros withContent; simpl;
    repeat asks_step; apply IH.
Qed.

Lemma mineFromTranscripts_no_post transcripts :
  asks_onlyM no_post (mineFromTranscripts transcripts).
Proof.
  unfold mineFromTranscripts. repeat asks_step.
  - apply load_contents_no_post.
  - apply mine_batches_no_post.
Qed.

Lemma updateIdeaStatus_no_post id status :
  asks_onlyM no_post (updateIdeaStatus id status).
Proof. unfold updateIdeaStatus. repeat asks_step. Qed.

Lemma in_miner_no_post {A} (m : M Miner A) :
  asks_onlyM no_post m -> asks_onlyM no_post (in_miner m).
Proof. intros Hm b. unfold in_miner, zoom. apply asks_only_zoomP, Hm. Qed.

Lemma ping_count_app tr tr' : ping_count (tr ++ tr') = (ping_count tr + ping_count tr')%nat.
Proof. unfold ping_count. by rewrite omap_app, length_app. Qed.

(** A program that posts nothing adds no content ping to the record. *)
Lemma no_post_pings {St A} (o : oracle) (p : prog St A) (tr : list event) :
  asks_only no_post p -> ping_count (fst (run o tr p)) = ping_count tr.
Proof.
  revert tr. induction p as [a s|e s|X q k IH|X s c k IH]; intros tr Hp; simpl in *.
  - done.
  - done.
  - rewrite IH by apply Hp. by rewrite ping_count_app, Nat.add_0_r.
  - destruct Hp as [Hc Hk]. rewrite IH by apply Hk.
    rewrite ping_count_app. destruct c; try done; simpl; lia.
Qed.

Lemma no_post_triple {St A} (o : oracle) (m : M St A) (n : nat) :
  asks_onlyM no_post m ->
  triple o (fun tr _ => ping_count tr = n) m
    (fun _ tr _ => ping_count tr = n) (fun _ tr _ => ping_count tr = n).
Proof.
  intros Hm tr s Hn. pose proof (no_post_pings o (m s) tr (Hm s)) as H.
  destruct (run o tr (m s)) as [tr' [a s'|e s']]; simpl in H; congruence.
Qed.

(** ** The scheduled cycle *)

Section Cycle.
Context (o : oracle).

Lemma no_post_bounded {St A} (m : M St A) (n k : nat) :
  asks_onlyM no_post m -> (n <= k)%nat ->
  triple o (fun tr _ => ping_count tr = n) m
    (fun _ tr _ => ping_count tr = n) (fun _ tr _ => (ping_count tr <= k)%nat).
Proof.
  intros Hm Hk. eapply triple_weaken; [apply (no_post_triple o m n Hm)|done|done|].
  intros e tr s Hn. simpl in Hn. lia.
Qed.

Lemma no_post_ends {St A} (m : M St A) (n k : nat) :
  asks_onlyM no_post m -> (n <= k)%nat ->
  triple o (fun tr _ => ping_count tr = n) m
    (fun _ tr _ => (ping_count tr <= k)%nat) (fun _ tr _ => (ping_count tr <= k)%nat).
Proof.
  intros Hm Hk. eapply triple_weaken; [apply (no_post_triple o m n Hm)|done| |].
  - intros a tr s Hn. simpl in Hn. lia.
  - intros e tr s Hn. simpl in Hn. lia.
Qed.

Lemma sendContentPing_pings_once (idea : ContentIdea) (n : nat) :
  triple o (fun tr _ => ping_count tr = n) (sendContentPing idea)
    (fun _ tr _ => (ping_count tr <= n + 1)%nat)
    (fun _ tr _ => (ping_count tr <= n + 1)%nat).
Proof.
  unfold sendContentPing.
  eapply triple_bind with (R := fun _ tr _ => ping_count tr = n).
  { apply no_post_bounded; [|lia].
    unfold AIBrain.generateInterviewOpener. by repeat asks_step. }
  intros opener. eapply triple_bind with (R := fun _ tr _ => ping_count tr = n).
  { by apply triple_get. }
  intros b. eapply triple_bind with (R := fun _ tr _ => ping_count tr = (n + 1)%nat).
  { apply triple_await. intros tr s Hn.
    assert (ping_count (tr ++ [ECall (SlackPostMessage
              {| p_channel := slackUserId b; p_thread_ts := None;
                 p_text := TxtOpener opener; p_ideaId := Some (i_id idea);
                 p_buttonsFor := None |})]) = (n + 1)%nat) as Hc.
    { rewrite ping_count_app, Hn. done. }
    destruct (answer o _ tr _); lia. }
  intros ts. apply no_post_ends; [|lia].
  destruct (truthy ts); repeat asks_step.
  apply in_miner_no_post, updateIdeaStatus_no_post.
Qed.

Lemma content_cycle_pings_once (n : nat) :
  triple o (fun tr _ => ping_count tr = n) Scheduler.content_cycle
    (fun _ tr _ => (ping_count tr <= n + 1)%nat)
    (fun _ tr _ => (ping_count tr <= n + 1)%nat).
Proof.
  unfold Scheduler.content_cycle.
  eapply triple_bind with (R := fun _ tr _ => ping_count tr = n).
  { by apply triple_get. }
  intros b. destruct (getUnprocessedIdeas (miner b)) as [|bestIdea rest];
    [|apply sendContentPing_pings_once].
  eapply triple_bind with (R := fun _ tr _ => ping_count tr = n).
  { apply no_post_bounded; [|lia]. by repeat asks_step. }
  intros recent. destruct recent as [|t recent].
  { apply triple_ret. intros tr s Hn. lia. }
  eapply triple_bind with (R := fun _ tr _ => ping_count tr = n).
  { apply no_post_bounded; [|lia].
    apply in_miner_no_post, mineFromTranscripts_no_post. }
  intros found. destruct found as [|bestIdea rest];
    [|apply sendContentPing_pings_once].
  apply triple_ret. intros tr s Hn. lia.
Qed.

End Cycle.

(** X20. [runContentCycle] never ends in an error, whatever polling does and
    whatever the services answer, and beyond what polling itself may post it
    posts at most one content ping: a cycle opens at most one interview. *)
Theorem runContentCycle_pings_at_most_once (o : oracle) (tr : list event) (b : Bot)
    (pollNewMeetings : M Bot (list Transcript)) :
  exists tr' b',
    run o tr (Scheduler.runContentCycle pollNewMeetings b) = (tr', Done tt b') /\
    (ping_count tr' <= ping_count (fst (run o tr (pollNewMeetings b))) + 1)%nat.
Proof.
  unfold Scheduler.runContentCycle, try_catch, Async.bind.
  rewrite run_catchP, run_bindP.
  destruct (run o tr (pollNewMeetings b)) as [tr1 [l b1|e b1]]; simpl.
  - pose proof (content_cycle_pings_once o (ping_count tr1) tr1 b1 eq_refl) as H.
    destruct (run o tr1 (Scheduler.content_cycle b1)) as [tr2 [[] b2|e b2]];
      simpl; eauto.
  - eexists _, _. split; [reflexivity|]. lia.
Qed.

(** ** The transcript store *)

Section TaskRuns.
Context {R : Type -> Type} {St : Type} (w : Task.world R).

Lemma task_run_bindP {A B} (p : Task.prog R St A) (f : A -> Task.M R St B) tr :
  Task.run w tr (Task.bindP p f) =
  match Task.run w tr p with
  | (tr', Done a s) => Task.run w tr' (f a s)
  | (tr', Failed e s) => (tr', Failed e s)
  end.
Proof.
  revert tr. induction p as [a s|e s|k IH|X s c k IH]; intros tr; simpl; auto.
Qed.

Lemma task_run_catchP {A} (p : Task.prog R St A) (h : string -> Task.M R St A) tr :
  Task.run w tr (Task.catchP p h) =
  match Task.run w tr p with
  | (tr', Done a s) => (tr', Done a s)
  | (tr', Failed e s) => Task.run w tr' (h e s)
  end.
Proof.
  revert tr. induction p as [a s|e s|k IH|X s c k IH]; intros tr; simpl; auto.
Qed.

End TaskRuns.

(** X21. [TranscriptStore.save] never overwrites: for an identifier that the
    store holds it does nothing at all. For a new identifier it binds the
    transcript, stamped with the moment of its processing, asks the record
    store once to persist it, and adds the page when the record store gave
    one; it ends normally also when the record store fails, and leaves every
    other binding as it is. *)
Theorem save_keeps_first_transcript (w : Task.world TranscriptStore.request)
    (tr : list (Task.event TranscriptStore.request)) (s : TranscriptStore.Store)
    (t : Transcript) :
  (TranscriptStore.has s (t_id t) = true ->
     TranscriptStore.save t s = Task.Ret tt s) /\
  (TranscriptStore.has s (t_id t) = false ->
     let at_ := Task.time w tr in
     let asked := TranscriptStore.NotionSaveTranscript
                    (TranscriptStore.transcript_with_processedAt at_ t) in
     exists s',
       Task.run w tr (TranscriptStore.save t s)
         = (tr ++ [Task.Read; Task.Asked asked], Done tt s') /\
       TranscriptStore.get s' (t_id t)
         = Some (stored_on (TranscriptStore.transcript_with_processedAt at_ t)
                   (Task.answer w _ (tr ++ [Task.Read]) asked)) /\
       forall id, id <> t_id t -> TranscriptStore.get s' id = TranscriptStore.get s id).
Proof.
  unfold TranscriptStore.has, TranscriptStore.get. split.
  - intros Hhas. unfold TranscriptStore.save, Task.bind, Task.get. simpl.
    by rewrite Hhas.
  - intros Hnew. set (at_ := Task.time w tr).
    set (t1 := TranscriptStore.transcript_with_processedAt at_ t).
    set (asked := TranscriptStore.NotionSaveTranscript t1).
    unfold TranscriptStore.save, Task.bind, Task.get, Task.now, Task.modify,
      Task.try_catch, Task.await. simpl. rewrite Hnew. simpl.
    fold at_. fold t1. change (t_id t1) with (t_id t). fold asked.
    rewrite <- app_assoc. simpl.
    destruct (Task.answer w string (tr ++ [Task.Read]) asked) as [page|e]; simpl.
    + eexists. split; [reflexivity|]. split.
      { rewrite JsMap_get_update, String.eqb_refl, JsMap_get_set, String.eqb_refl.
        reflexivity. }
      intros id Hne. rewrite JsMap_get_update.
      destruct (String.eqb_spec (t_id t) id) as [Heq|_]; [congruence|].
      rewrite JsMap_get_set. destruct (String.eqb_spec (t_id t) id); [congruence|done].
    + eexists. split; [reflexivity|]. split.
      { rewrite JsMap_get_set, String.eqb_refl. reflexivity. }
      intros id Hne. rewrite JsMap_get_set.
      destruct (String.eqb_spec (t_id t) id); [congruence|done].
Qed.

Lemma insert_latest_first_perm (x : Transcript) (l : list Transcript) :
  TranscriptStore.insert_latest_first x l ≡ₚ x :: l.
Proof.
  induction l as [|y l IH]; simpl; [done|].
  destruct (TranscriptStore.stays_before x y); [done|].
  rewrite IH. apply perm_swap.
Qed.

Lemma not_later_trans (c b a : Transcript) :
  not_later c b -> not_later b a -> not_later c a.
Proof.
  intros (tc & tb & Hc & Hb & Hcb) (tb' & ta & Hb' & Ha & Hba).
  exists tc, ta. split; [done|]. split; [done|]. rewrite Hb in Hb'.
  injection Hb' as <-. lia.
Qed.

Lemma insert_latest_first_sorted (x : Transcript) (l : list Transcript) :
  dated x -> Forall dated l ->
  latest_first_rec l -> latest_first_rec (TranscriptStore.insert_latest_first x l).
Proof.
  intros [tx Hx]. induction l as [|y l IH]; simpl; intros Hd Hs.
  { split; [constructor|done]. }
  apply Forall_cons in Hd as [[ty Hy] Hd]. destruct Hs as [Hall Hl].
  unfold TranscriptStore.stays_before. rewrite Hx, Hy.
  destruct (ty <=? tx)%N eqn:Hle.
  - apply N.leb_le in Hle. simpl. split; [|done].
    assert (not_later y x) as Hyx by (exists ty, tx; done).
    constructor; [done|]. eapply Forall_impl; [exact Hall|]. simpl.
    intros z Hz. by eapply not_later_trans.
  - apply N.leb_gt in Hle. simpl. split; [|by apply IH].
    rewrite insert_latest_first_perm. constructor; [|done].
    exists tx, ty. split; [done|]. split; [done|]. lia.
Qed.

Lemma latest_first_rec_lookup (l : list Transcript) :
  latest_first_rec l -> latest_first_order l.
Proof.
  induction l as [|x l IH]; intros Hs i j a b Hij Hi Hj.
  - by rewrite lookup_nil in Hi.
  - destruct Hs as [Hx Hl]. destruct j as [|j]; [lia|]. simpl in Hj.
    destruct i as [|i]; simpl in Hi.
    + injection Hi as <-.
      apply (proj1 (Forall_forall _ _) Hx). by eapply list_elem_of_lookup_2.
    + apply (IH Hl i j a b); [lia|done|done].
Qed.

Lemma latest_first_perm (l : list Transcript) : TranscriptStore.latest_first l ≡ₚ l.
Proof.
  unfold TranscriptStore.latest_first.
  induction l as [|x l IH]; simpl; [done|].
  by rewrite insert_latest_first_perm, IH.
Qed.

Lemma latest_first_sorted (l : list Transcript) :
  Forall dated l -> latest_first_order (TranscriptStore.latest_first l).
Proof.
  intros Hd. apply latest_first_rec_lookup. unfold TranscriptStore.latest_first.
  induction l as [|x l IH]; simpl; [done|].
  apply Forall_cons in Hd as [Hx Hd].
  apply insert_latest_first_sorted; [done| |by apply IH].
  fold (TranscriptStore.latest_first l). by rewrite latest_first_perm.
Qed.

Lemma dated_since_spec (cutoff : N) (t : Transcript) :
  TranscriptStore.dated_since cutoff t = true <->
  exists n, t_date t = Some n /\ (cutoff <= n)%N.
Proof.
  unfold TranscriptStore.dated_since. destruct (t_date t) as [n|].
  - rewrite N.leb_le. split; [by exists n|]. by intros (n' & [= <-] & Hle).
  - split; [done|]. by intros (n & ? & _).
Qed.

(** X22. [getAll] answers every transcript of the store exactly once; when
    every transcript of the store has a date that is a date, the latest comes
    first. [getRecent] answers, the latest first, exactly the transcripts of
    the store whose date is a date at the cutoff or after it, each as often
    as the store holds it; a transcript whose date is no date is never among
    them. *)
Theorem transcript_views_latest_first (cutoff : N) (s : TranscriptStore.Store) :
  TranscriptStore.getAll s ≡ₚ JsMap.values s /\
  (Forall dated (JsMap.values s) -> latest_first_order (TranscriptStore.getAll s)) /\
  TranscriptStore.getRecent cutoff s
    ≡ₚ List.filter (TranscriptStore.dated_since cutoff) (JsMap.values s) /\
  latest_first_order (TranscriptStore.getRecent cutoff s) /\
  (forall t, t ∈ TranscriptStore.getRecent cutoff s <->
             t ∈ TranscriptStore.getAll s /\
             exists n, t_date t = Some n /\ (cutoff <= n)%N).
Proof.
  unfold TranscriptStore.getAll, TranscriptStore.getRecent.
  split; [apply latest_first_perm|]. split; [apply latest_first_sorted|].
  split; [apply latest_first_perm|]. split.
  - apply latest_first_sorted. apply Forall_forall. intros t Ht.
    apply list_elem_of_In, filter_In in Ht as [_ Ht].
    apply dated_since_spec in Ht as (n & Hn & _). by exists n.
  - intros t. rewrite !latest_first_perm, <- dated_since_spec. split.
    + intros Ht. apply list_elem_of_In, filter_In in Ht as [Hin Hd].
      split; [by apply list_elem_of_In|done].
    + intros [Hin Hd]. apply list_elem_of_In, filter_In.
      split; [by apply list_elem_of_In|done].
Qed.

(** X23. [TranscriptStore.loadFromNotion] never throws. When the record
    store rejects the load the store is left as it was. When it answers, every
    transcript of the answer can be got by its identifier (the last one loaded
    under that identifier, also where the store held another before), and
    every other binding stays. *)
Theorem store_loadFromNotion_restores (w : Task.world TranscriptStore.request)
    (tr : list (Task.event TranscriptStore.request)) (s : TranscriptStore.Store) :
  exists s',
    Task.run w tr (TranscriptStore.loadFromNotion s)
      = (tr ++ [Task.Asked TranscriptStore.NotionLoadTranscripts], Done tt s') /\
    (forall e, Task.answer w _ tr TranscriptStore.NotionLoadTranscripts = Err e ->
               s' = s) /\
    (forall loaded, Task.answer w _ tr TranscriptStore.NotionLoadTranscripts = Ok loaded ->
       (forall t, t ∈ loaded ->
          exists t', last_under t_id loaded (t_id t) t' /\
                     TranscriptStore.get s' (t_id t) = Some t') /\
       (forall id, (forall t, t ∈ loaded -> t_id t <> id) ->
                   TranscriptStore.get s' id = TranscriptStore.get s id)).
Proof.
  unfold TranscriptStore.loadFromNotion, Task.try_catch, Task.bind, Task.await,
    Task.modify, TranscriptStore.get. simpl.
  destruct (Task.answer w _ tr TranscriptStore.NotionLoadTranscripts)
    as [loaded|e] eqn:Hans; simpl.
  - eexists. split; [reflexivity|]. split; [done|].
    intros loaded' [= <-]. split.
    + intros t Hin. by apply (JsMap_get_fold_set t_id).
    + intros id Hno. by apply (JsMap_get_fold_other t_id).
  - exists s. split; [done|]. split; [done|]. by intros loaded.
Qed.

(** ** The listing of meetings *)

Lemma page_requests_step (since : option string) (offset n : nat) :
  page_requests since offset (S n)
    = Task.Asked (TldvService.FetchMeetings since TldvService.limit offset)
        :: page_requests since (offset + TldvService.limit) n.
Proof.
  unfold page_requests. cbn [seq map]. rewrite Nat.add_0_r. f_equal.
  rewrite <- seq_shift, map_map. apply map_ext. intros k.
  do 2 f_equal. lia.
Qed.

Lemma listMeetings_from_spec {St} (w : Task.world TldvService.request)
    (since : option string) (s : St) (fuel : nat)
    (allMeetings : list TldvService.TldvMeeting) (offset : nat)
    (tr : list (Task.event TldvService.request)) :
  (TldvService.maxMeetings <= length allMeetings + fuel * TldvService.limit)%nat ->
  exists n,
    (n <= fuel)%nat /\
    match Task.run w tr
            (TldvService.listMeetings_from fuel since allMeetings offset s) with
    | (tr', Done (Some l) s') =>
        tr' = tr ++ page_requests since offset n /\ s' = s /\
        l = allMeetings ++ concat (pages_answered w tr (page_requests since offset n))
    | (tr', Done None s') => False
    | (tr', Failed e s') =>
        tr' = tr ++ page_requests since offset n /\ s' = s
    end.
Proof.
  revert allMeetings offset tr. induction fuel as [|fuel IH];
    intros allMeetings offset tr Hfuel.
  - exists 0%nat. split; [done|]. cbn [TldvService.listMeetings_from].
    destruct (Nat.ltb_spec (length allMeetings) TldvService.maxMeetings) as [Hlt|Hge].
    { unfold TldvService.limit, TldvService.maxMeetings in *. lia. }
    simpl. by rewrite !app_nil_r.
  - cbn [TldvService.listMeetings_from].
    destruct (Nat.ltb_spec (length allMeetings) TldvService.maxMeetings) as [Hlt|Hge].
    2:{ exists 0%nat. split; [lia|]. simpl. by rewrite !app_nil_r. }
    unfold Task.bind, Task.await. cbn [Task.bindP Task.run].
    set (req := TldvService.FetchMeetings since TldvService.limit offset).
    destruct (Task.answer w _ tr req) as [meetings|e] eqn:Hans.
    2:{ exists 1%nat. split; [lia|]. cbn [Task.bindP Task.run].
        rewrite page_requests_step. done. }
    cbn [Task.bindP]. destruct meetings as [|m0 ms] eqn:Hms.
    { exists 1%nat. split; [lia|]. cbn [Task.run].
      rewrite page_requests_step. cbn [page_requests seq map pages_answered].
      fold req. rewrite Hans. simpl. by rewrite !app_nil_r. }
    rewrite <- Hms in *. clear Hms.
    destruct (Nat.ltb_spec (length meetings) TldvService.limit) as [Hshort|Hfull].
    { exists 1%nat. split; [lia|]. cbn [Task.run].
      rewrite page_requests_step. cbn [page_requests seq map pages_answered].
      fold req. rewrite Hans. simpl. by rewrite !app_nil_r. }
    destruct (IH (allMeetings ++ meetings) (offset + TldvService.limit)%nat
                (tr ++ [Task.Asked req])) as (n & Hn & Hrun).
    { rewrite length_app.
      unfold TldvService.limit, TldvService.maxMeetings in *. lia. }
    exists (S n). split; [lia|].
    destruct (Task.run w (tr ++ [Task.Asked req])
                (TldvService.listMeetings_from fuel since (allMeetings ++ meetings)
                   (offset + TldvService.limit) s)) as [tr' [[l|] s'|e s']].
    + destruct Hrun as (-> & -> & ->). rewrite page_requests_step.
      split; [by rewrite <- app_assoc|]. split; [done|].
      cbn [pages_answered]. fold req. rewrite Hans. simpl.
      by rewrite <- app_assoc.
    + done.
    + destruct Hrun as (-> & ->). rewrite page_requests_step.
      split; [by rewrite <- app_assoc|done].
Qed.

(** X24. [listMeetings] asks for at most five pages, whatever the server
    answers: the pages at offsets 0, 100, 200, ... with limit 100, one after
    another; the bound of the embedding is never hit. When it answers, its
    answer is the pages it was given, one after another, and when a request
    fails it throws; its caller's state is not touched. *)
Theorem listMeetings_asks_five_pages_at_most {St}
    (w : Task.world TldvService.request)
    (tr : list (Task.event TldvService.request)) (s : St) (since : option string) :
  exists n,
    (n <= 5)%nat /\
    match Task.run w tr (TldvService.listMeetings 5 since s) with
    | (tr', Done (Some l) s') =>
        tr' = tr ++ page_requests since 0 n /\ s' = s /\
        l = concat (pages_answered w tr (page_requests since 0 n))
    | (tr', Done None s') => False
    | (tr', Failed e s') => tr' = tr ++ page_requests since 0 n /\ s' = s
    end.
Proof.
  unfold TldvService.listMeetings.
  apply (listMeetings_from_spec w since s 5 [] 0 tr).
  unfold TldvService.maxMeetings, TldvService.limit. simpl. lia.
Qed.

(** ** The start *)

(** X25. When the start-up load of the ideas answers a snapshot with an idea
    that names no source transcript, and the miner is handed the identifiers
    of the transcript store as [index.ts] does, every transcript of the store
    counts as mined: [mineFromTranscripts] on recent transcripts of the store,
    or on any transcripts of the store, answers no idea and asks nothing of
    any service. *)
Theorem legacy_idea_stops_mining_of_the_store (o : oracle) (tr : list event)
    (m : Miner) (s : TranscriptStore.Store) (loaded : list ContentIdea) :
  answer o _ tr NotionLoadIdeas = Ok loaded ->
  (exists idea, idea ∈ loaded /\ i_sourceTranscriptIds idea = []) ->
  let m' := final_state (run o tr (loadFromNotion (Some (Main.allTranscriptIds s)) m)) in
  (forall cutoff, mineFromTranscripts (TranscriptStore.getRecent cutoff s) m' = Ret [] m') /\
  (forall transcripts, (forall t, t ∈ transcripts -> t ∈ JsMap.values s) ->
     mineFromTranscripts transcripts m' = Ret [] m').
Proof.
  intros Hans Hlegacy m'.
  assert (forall t, t ∈ JsMap.values s -> t_id t ∈ minedTranscriptIds m') as Hall.
  { intros t Ht. subst m'. unfold loadFromNotion, final_state. simpl.
    rewrite Hans. simpl. unfold load_ideas.
    pose proof (load_idea_flag loaded m false (or_intror Hlegacy)) as Hflag.
    destruct (foldl load_idea (m, false) loaded) as [m1 flag]. simpl in Hflag.
    subst flag. apply mark_all_mined_spec. left.
    unfold Main.allTranscriptIds. apply (elem_of_map_1 t_id).
    unfold TranscriptStore.getAll.
    by rewrite latest_first_perm. }
  split.
  - intros cutoff. apply mineFromTranscripts_nothing_new. intros t Ht. apply Hall.
    unfold TranscriptStore.getRecent in Ht.
    rewrite latest_first_perm in Ht.
    by apply list_elem_of_In, filter_In in Ht as [Ht%list_elem_of_In _].
  - intros transcripts Hin. apply mineFromTranscripts_nothing_new.
    intros t Ht. by apply Hall, Hin.
Qed.

Lemma legacy_idea_stops_mining_of_the_store_witness :
  let loaded := [sample_idea "page-7" "Old idea" []] in
  let o := sample_world [] loaded "no" in
  let s : TranscriptStore.Store := [("t-1", sample_transcript "t-1")] in
  let m' := final_state
              (run o [] (loadFromNotion (Some (Main.allTranscriptIds s))
                           ContentMiner.init)) in
  answer o _ [] NotionLoadIdeas = Ok loaded /\
  (exists idea, idea ∈ loaded /\ i_sourceTranscriptIds idea = []) /\
  mineFromTranscripts (TranscriptStore.getRecent 0 s) m' = Ret [] m'.
Proof.
  intros loaded o s m'.
  assert (exists idea, idea ∈ loaded /\ i_sourceTranscriptIds idea = []) as Hlegacy.
  { exists (sample_idea "page-7" "Old idea" []). split; [by left|reflexivity]. }
  split; [reflexivity|]. split; [exact Hlegacy|].
  exact (proj1 (legacy_idea_stops_mining_of_the_store o [] ContentMiner.init s loaded
                  eq_refl Hlegacy) 0%N).
Defined.

(** ** Marks in a hook *)

Lemma strip_other_mark (a b : string) (c : ascii) :
  JsString.is_lower (JsString.to_lower_char c)
    || JsString.is_digit (JsString.to_lower_char c)
    || JsString.is_space (JsString.to_lower_char c) = false ->
  JsString.strip_other (JsString.toLowerCase (a +:+ String c b))
    = JsString.strip_other (JsString.toLowerCase (a +:+ b)).
Proof.
  intros Hc. induction a as [|x a IH].
  - change (EmptyString +:+ String c b) with (String c b).
    change (EmptyString +:+ b) with b.
    cbn [JsString.toLowerCase JsString.strip_other]. by rewrite Hc.
  - rewrite !string_app_cons. cbn [JsString.toLowerCase JsString.strip_other].
    by rewrite IH.
Qed.

(** X26. In a hook of 8-bit characters (the strings of this embedding,
    codes 0 to 255), a character whose lower-case form is outside [a-z],
    [0-9] and white space does not count: with or without it, anywhere in
    the hook, the key is the same, so each of the two hooks is a duplicate
    once the other is known. Characters beyond code 255, some of which
    [toLowerCase] turns into letters of [a-z], are not covered. *)
Theorem marks_do_not_tell_hooks_apart (m : Miner) (a b : string) (c : ascii) :
  JsString.is_lower (JsString.to_lower_char c)
    || JsString.is_digit (JsString.to_lower_char c)
    || JsString.is_space (JsString.to_lower_char c) = false ->
  normalizeHook (a +:+ String c b) = normalizeHook (a +:+ b) /\
  isDuplicate (add_hook (a +:+ String c b) m) (a +:+ b) = true /\
  isDuplicate (add_hook (a +:+ b) m) (a +:+ String c b) = true.
Proof.
  intros Hc.
  assert (normalizeHook (a +:+ String c b) = normalizeHook (a +:+ b)) as Heq.
  { unfold normalizeHook, JsString.normalize. by rewrite strip_other_mark. }
  split; [exact Heq|].
  split; apply isDuplicate_true; unfold add_hook; simpl; rewrite Heq; set_solver.
Qed.

Lemma marks_do_not_tell_hooks_apart_witness :
  JsString.is_lower (JsString.to_lower_char "!")
    || JsString.is_digit (JsString.to_lower_char "!")
    || JsString.is_space (JsString.to_lower_char "!") = false /\
  normalizeHook "Ship it!" = normalizeHook "Ship it".
Proof.
  split; [reflexivity|].
  exact (proj1 (marks_do_not_tell_hooks_apart ContentMiner.init "Ship it" "" "!"
                  eq_refl)).
Defined.

(** ** The first replies of an interview *)

Lemma run_bind {St A B} (o : oracle) (m : M St A) (f : A -> M St B) tr s :
  run o tr (Async.bind m f s) =
  match run o tr (m s) with
  | (tr', Done a s') => run o tr' (f a s')
  | (tr', Failed e s') => (tr', Failed e s')
  end.
Proof. unfold Async.bind. apply run_bindP. Qed.

(** X27. A reply to an interview that holds fewer than three messages is
    recorded in the session, and the drafting service is asked for a
    follow-up question at once: it is not asked whether the material is
    enough, and no draft is made. The question it gives is recorded after the
    reply and posted in the thread; the session stays as active as it was.
    When the drafting service fails the reply stays recorded and the error
    goes to the handler. *)
Theorem short_interview_gets_follow_up (o : oracle) (tr : list event) (b : Bot)
    (key userMessage threadTs channel : string) (held : InterviewSession)
    (idea : ContentIdea) :
  JsMap.get (activeSessions b) key = Some held ->
  getIdea (miner b) (s_ideaId held) = Some idea ->
  (length (s_messages held) < 3)%nat ->
  let reply := said_by user userMessage (tell o _ tr Now) in
  let heard := s_messages held ++ [reply] in
  let tr1 := tr ++ [EAsk Now] in
  let tr2 := tr1 ++ [ECall (LlmFollowUp idea heard)] in
  let r := run o tr (handleInterviewReply key held userMessage threadTs channel b) in
  match answer o _ tr1 (LlmFollowUp idea heard) with
  | Ok q =>
      let question := said_by agent (text_or "" q) (tell o _ tr2 Now) in
      fst r = tr2 ++ [EAsk Now;
                      ECall (SlackPostMessage
                               (post channel (Some threadTs)
                                  (TxtFollowUp (text_or "" q))))] /\
      JsMap.get (activeSessions (final_state r)) key
        = Some (session_push question (session_push reply held)) /\
      (forall key', key' <> key ->
         JsMap.get (activeSessions (final_state r)) key'
           = JsMap.get (activeSessions b) key') /\
      miner (final_state r) = miner b /\
      pendingDrafts (final_state r) = pendingDrafts b
  | Err e =>
      r = (tr2, Failed e (upd_session key (session_push reply) b))
  end.
Proof.
  intros Hget Hidea Hshort reply heard tr1 tr2 r.
  set (b1 := upd_session key (session_push reply) b).
  assert (session_at key held b1 = session_push reply held) as Hat1.
  { by apply session_at_upd. }
  assert (length heard < 4)%nat as Hheard.
  { unfold heard. rewrite length_app. simpl. lia. }
  subst r. unfold handleInterviewReply.
  rewrite run_bind. cbn [ask run]. rewrite run_bind. cbn [modify run].
  change (upd_session key
            (session_push {| m_role := user; m_content := userMessage;
                             m_timestamp := tell o N tr Now |}) b) with b1.
  rewrite run_bind. cbn [get run].
  rewrite Hat1. cbn [s_ideaId session_push s_messages].
  change (miner b1) with (miner b). rewrite Hidea.
  rewrite run_bind. fold heard. rewrite hasEnoughMaterial_short by done.
  cbn [run]. rewrite run_bind. cbn [get run]. rewrite Hat1.
  cbn [session_push s_messages]. fold heard.
  rewrite run_bind. unfold AIBrain.generateFollowUp. rewrite run_bind.
  cbn [await run]. fold tr1. fold tr2.
  destruct (answer o _ tr1 (LlmFollowUp idea heard)) as [q|e]; [|done].
  cbn [run ret]. rewrite run_bind. cbn [ask run]. rewrite run_bind. cbn [modify run].
  set (question := said_by agent (text_or "" q) (tell o N tr2 Now)).
  change (upd_session key
            (session_push {| m_role := agent; m_content := text_or "" q;
                             m_timestamp := tell o N tr2 Now |}) b1)
    with (upd_session key (session_push question) b1).
  unfold say. rewrite run_bind. cbn [await run].
  assert (JsMap.get (activeSessions (upd_session key (session_push question) b1)) key
          = Some (session_push question (session_push reply held)) :> option InterviewSession)
    as Hkey.
  { unfold upd_session, b1. simpl.
    by rewrite !JsMap_get_update, String.eqb_refl, Hget. }
  assert (forall key', key' <> key ->
            (JsMap.get (activeSessions (upd_session key (session_push question) b1)) key'
             = JsMap.get (activeSessions b) key')) as Hother.
  { intros key' Hne. unfold upd_session, b1. simpl. rewrite !JsMap_get_update.
    destruct (String.eqb_spec key key'); [congruence|done]. }
  destruct (answer o _ (tr2 ++ [EAsk Now]) _) as [ts|e]; unfold final_state; simpl;
    rewrite <- !app_assoc; simpl; done.
Qed.

Lemma short_interview_gets_follow_up_witness :
  let o := sample_world [] [] "no" in
  let held := opened_session (sample_idea "idea-1" "Charge more" ["t-1"])
                "ts-1" "What happened next?" 1 2 3 in
  let b := set_activeSessions [("ts-1", held)] sample_bot in
  let r := run o [] (handleInterviewReply "ts-1" held "We doubled it." "ts-1" "D1" b) in
  JsMap.get (activeSessions b) "ts-1" = Some held /\
  getIdea (miner b) (s_ideaId held) = Some (sample_idea "idea-1" "Charge more" ["t-1"]) /\
  (length (s_messages held) < 3)%nat /\
  JsMap.get (activeSessions (final_state r)) "ts-1"
    = Some (session_push (said_by agent "Tell me more." 1002)
              (session_push (said_by user "We doubled it." 1000) held)).
Proof.
  intros o held b r.
  assert (length (s_messages held) < 3)%nat as Hshort by (simpl; lia).
  split; [reflexivity|]. split; [reflexivity|]. split; [exact Hshort|].
  exact (proj1 (proj2
    (short_interview_gets_follow_up o [] b "ts-1" "We doubled it." "ts-1" "D1" held
       (sample_idea "idea-1" "Charge more" ["t-1"]) eq_refl eq_refl Hshort))).
Defined.

(** ** The list behind the numbers *)

Lemma say_run (o : oracle) (tr : list event) (b : Bot) channel text thread :
  fst (run o tr (say channel text thread b))
    = tr ++ [ECall (SlackPostMessage (post channel thread text))] /\
  final_state (run o tr (say channel text thread b)) = b.
Proof.
  unfold say. rewrite run_bind. cbn [await run].
  by destruct (answer o _ tr _) as [ts|e].
Qed.

(** X28. The command [ideas] (or [show ideas]) posts the first ten ideas
    still to be interviewed and makes them the list from which a number picks,
    whether or not the post goes through. With no such idea it says so and
    the list shown before stays in force. The registry and the interviews are
    not touched. *)
Theorem ideas_command_numbers_what_it_lists (o : oracle) (tr : list event) (b : Bot)
    (text channel : string) :
  is_one_of ["ideas"; "show ideas"] (JsString.normalize text) = true ->
  let r := run o tr (handleCommand text channel b) in
  let waiting := getUnprocessedIdeas (miner b) in
  fst r = tr ++ [ECall (SlackPostMessage (post channel None
                   (if waiting is [] then TxtNoIdeas
                    else TxtIdeaList (take 10 waiting))))] /\
  lastShownIdeas (final_state r)
    = (if waiting is [] then lastShownIdeas b else take 10 waiting) /\
  miner (final_state r) = miner b /\
  activeSessions (final_state r) = activeSessions b.
Proof.
  intros Hc r waiting. subst r.
  assert (JsString.normalize text = "ideas" \/ JsString.normalize text = "show ideas")
    as Hcmd.
  { unfold is_one_of in Hc. cbn [existsb] in Hc.
    apply orb_prop in Hc as [Hc|Hc]; [left; by apply String.eqb_eq in Hc|].
    apply orb_prop in Hc as [Hc|Hc]; [right; by apply String.eqb_eq in Hc|done]. }
  unfold handleCommand.
  assert (is_one_of ["stop"; "done"] (JsString.normalize text) = false) as ->
    by (destruct Hcmd as [->| ->]; reflexivity).
  assert (is_one_of ["status"; "what do you have"] (JsString.normalize text) = false) as ->
    by (destruct Hcmd as [->| ->]; reflexivity).
  rewrite Hc. unfold handleIdeasCommand. rewrite run_bind. cbn [get run].
  fold waiting. destruct waiting as [|i l] eqn:Hw.
  - destruct (say_run o tr b channel TxtNoIdeas None) as [-> ->]. done.
  - rewrite run_bind. cbn [modify run].
    destruct (say_run o tr (set_lastShownIdeas (take 10 (i :: l)) b) channel
                (TxtIdeaList (take 10 (i :: l))) None) as [-> ->].
    done.
Qed.

Lemma ideas_command_numbers_what_it_lists_witness :
  let r := run (sample_world [] [] "no") [] (handleCommand "Show ideas" "D1" sample_bot) in
  is_one_of ["ideas"; "show ideas"] (JsString.normalize "Show ideas") = true /\
  lastShownIdeas (final_state r) = [sample_idea "idea-1" "Charge more" ["t-1"]].
Proof.
  intros r. split; [reflexivity|].
  exact (proj1 (proj2
    (ideas_command_numbers_what_it_lists (sample_world [] [] "no") [] sample_bot
       "Show ideas" "D1" eq_refl))).
Defined.
